(** * The text-to-audio preview synthesiser of [src/utils/audioGenerator.ts]

    A shallow embedding of [generateAudioPreview] and [bufferToWav].

    - JavaScript strings are sequences of UTF-16 code units; the embedding
      covers the code units below 256 (Latin-1), carried by [string].
    - JavaScript numbers are carried by exact rationals extended with the
      IEEE special values ([jsnum]); binary64 rounding is not modelled.
      In the encoder this loses nothing: samples come out of a
      Float32Array, so their products with 32767 and 32768 are exact in
      binary64.  In the synthesiser times and frequencies are kept as the
      expressions the code writes.
    - [Math.random] is an oracle [rng : N -> Q] read through a call counter.
    - The Web Audio graph is recorded as the list of source nodes the code
      creates, with the parameters it gives them; the offline renderer that
      turns the graph into samples is the browser's, not the repository's.
    - Of the page ([App.tsx], [ApiKeyModal.tsx]) the bookmark set, the two
      track lists, the track ids and the key form are embedded, each
      handler as a function on the state it updates.

    Where exact arithmetic and binary64 part, the statements say for
    which inputs they speak:
    - [parseInt] gives the integer the digits spell, which a number holds
      exactly below 2^53; statements on the value of a bpm token carry
      that bound.
    - A loop bound is the exact quotient.  The code's quotient can lie an
      ulp above an integer (the beat loop at 366 bpm, the half-beat loop
      at 183 bpm) and the loop then runs one more round; statements on
      round counts carry tempos for which the two agree.
    - Samples drawn from [Math.random] are the exact values of the
      expressions; the [Float32Array] that stores them rounds them, and no
      statement reads their values. *)

From Stdlib Require Import ZArith QArith Qround List String Ascii Bool Lia.
From Stdlib Require Import Qpower DecimalString DecimalN Permutation Sorted.
Import ListNotations.

Local Open Scope Z_scope.

(** ** JavaScript numbers *)

Module JsNumber.

Local Open Scope Q_scope.

(** A Number is a rational or one of NaN, +Infinity, -Infinity.  The two
    zeros are one value, and a division by zero takes the zero as +0 (no
    expression of the source produces -0 as a divisor). *)
Inductive jsnum : Type :=
| Fin (q : Q)
| NaN
| PosInf
| NegInf.

Definition Qlt_bool (x y : Q) : bool := negb (Qle_bool y x).

Definition ofZ (z : Z) : jsnum := Fin (inject_Z z).

Definition signed (positive : bool) : jsnum :=
  if positive then PosInf else NegInf.

Definition jsmul (x y : jsnum) : jsnum :=
  match x, y with
  | NaN, _ | _, NaN => NaN
  | Fin a, Fin b => Fin (a * b)
  | Fin a, PosInf | PosInf, Fin a =>
      if Qeq_bool a 0 then NaN else signed (Qlt_bool 0 a)
  | Fin a, NegInf | NegInf, Fin a =>
      if Qeq_bool a 0 then NaN else signed (Qlt_bool a 0)
  | PosInf, PosInf | NegInf, NegInf => PosInf
  | PosInf, NegInf | NegInf, PosInf => NegInf
  end.

Definition jsdiv (x y : jsnum) : jsnum :=
  match x, y with
  | NaN, _ | _, NaN => NaN
  | Fin a, Fin b =>
      if Qeq_bool b 0
      then (if Qeq_bool a 0 then NaN else signed (Qlt_bool 0 a))
      else Fin (a / b)
  | Fin _, PosInf | Fin _, NegInf => Fin 0
  | PosInf, Fin b => signed (Qle_bool 0 b)
  | NegInf, Fin b => signed (Qlt_bool b 0)
  | _, _ => NaN
  end.

Definition jsadd (x y : jsnum) : jsnum :=
  match x, y with
  | NaN, _ | _, NaN => NaN
  | Fin a, Fin b => Fin (a + b)
  | PosInf, NegInf | NegInf, PosInf => NaN
  | PosInf, _ | _, PosInf => PosInf
  | NegInf, _ | _, NegInf => NegInf
  end.

(** [x < y]; false as soon as one side is NaN. *)
Definition jslt (x y : jsnum) : bool :=
  match x, y with
  | NaN, _ | _, NaN => false
  | Fin a, Fin b => Qlt_bool a b
  | NegInf, NegInf | PosInf, _ | _, NegInf => false
  | NegInf, _ | _, PosInf => true
  end.

(** [Math.min] and [Math.max] of two arguments: NaN is contagious. *)
Definition Math_min (x y : jsnum) : jsnum :=
  match x, y with
  | NaN, _ | _, NaN => NaN
  | _, _ => if jslt y x then y else x
  end.

Definition Math_max (x y : jsnum) : jsnum :=
  match x, y with
  | NaN, _ | _, NaN => NaN
  | _, _ => if jslt x y then y else x
  end.

(** The integer part kept by the integer conversions ([ToInt16] and the
    like): rounding towards zero, and 0 for NaN and the infinities. *)
Definition truncate (x : jsnum) : Z :=
  match x with
  | Fin q => Z.quot (Qnum q) (Zpos (Qden q))
  | _ => 0%Z
  end.

End JsNumber.

Import JsNumber.

(** ** JavaScript strings *)

Module JsString.

Local Open Scope N_scope.

Definition code (c : ascii) : N := N_of_ascii c.

(** [String.prototype.toLowerCase] on one Latin-1 code unit: A-Z and the
    accented capitals U+00C0..U+00DE (U+00D7, the multiplication sign,
    excepted) move 32 up. *)
Definition lowerChar (c : ascii) : ascii :=
  let n := code c in
  if ((65 <=? n) && (n <=? 90))
     || ((192 <=? n) && (n <=? 222) && negb (n =? 215))
  then ascii_of_N (n + 32) else c.

Fixpoint toLowerCase (s : string) : string :=
  match s with
  | EmptyString => EmptyString
  | String c s' => String (lowerChar c) (toLowerCase s')
  end.

(** [s.startsWith(p)] *)
Fixpoint startsWith (s p : string) {struct p} : bool :=
  match p, s with
  | EmptyString, _ => true
  | String _ _, EmptyString => false
  | String a p', String b s' => Ascii.eqb a b && startsWith s' p'
  end.

(** [s.includes(p)] *)
Fixpoint includes (s p : string) : bool :=
  startsWith s p ||
  match s with
  | EmptyString => false
  | String _ s' => includes s' p
  end.

(** The regular expression classes [\d] and [\s]. *)
Definition isDigit (c : ascii) : bool :=
  let n := code c in (48 <=? n) && (n <=? 57).

Definition isSpace (c : ascii) : bool :=
  let n := code c in
  ((9 <=? n) && (n <=? 13)) || (n =? 32) || (n =? 160).

(** The longest run of digits at the head of [s], and what follows it. *)
Fixpoint takeDigits (s : string) : string * string :=
  match s with
  | EmptyString => (EmptyString, EmptyString)
  | String c s' =>
      if isDigit c then let (ds, r) := takeDigits s' in (String c ds, r)
      else (EmptyString, s)
  end.

Fixpoint dropSpaces (s : string) : string :=
  match s with
  | EmptyString => EmptyString
  | String c s' => if isSpace c then dropSpaces s' else s
  end.

(** [/(\d+)\s*bpm/] anchored at the head of [s]; the result is capture
    group 1.  Both quantifiers are greedy, and giving back a digit or a
    blank never helps: what follows [\d+] must be a blank or the letter b,
    what follows [\s*] must be the letter b. *)
Definition matchBpmAt (s : string) : option string :=
  match takeDigits s with
  | (EmptyString, _) => None
  | (ds, r) => if startsWith (dropSpaces r) "bpm" then Some ds else None
  end.

(** [s.match(/(\d+)\s*bpm/)]: the leftmost position at which the pattern
    matches; [None] is JavaScript's [null]. *)
Fixpoint matchBpm (s : string) : option string :=
  match matchBpmAt s with
  | Some ds => Some ds
  | None =>
      match s with
      | EmptyString => None
      | String _ s' => matchBpm s'
      end
  end.

(** [parseInt(ds, 10)] on a string of decimal digits: the integer they
    spell.  The code's result is that integer rounded to binary64, the
    same below 2^53. *)
Definition digitValue (c : ascii) : Z := Z.of_N (code c - 48).

Fixpoint parseDigits (acc : Z) (s : string) : Z :=
  match s with
  | EmptyString => acc
  | String c s' => parseDigits (10 * acc + digitValue c)%Z s'
  end.

Definition parseInt (ds : string) : Z := parseDigits 0%Z ds.

(** Declarative readings, used to state what the matchers compute. *)
Fixpoint allChars (p : ascii -> bool) (s : string) : bool :=
  match s with
  | EmptyString => true
  | String c s' => p c && allChars p s'
  end.

(** The head of [s], if any, is rejected by [p]. *)
Definition headFails (p : ascii -> bool) (s : string) : Prop :=
  match s with
  | EmptyString => True
  | String c _ => p c = false
  end.

Definition Contains (s p : string) : Prop :=
  exists a b, s = (a ++ p ++ b)%string.

(** The pattern matches [s] right after [pre], with [ds] as group 1. *)
Definition BpmTokenAt (pre s ds : string) : Prop :=
  exists ws post,
    ds <> EmptyString /\ allChars isDigit ds = true /\
    allChars isSpace ws = true /\
    s = (pre ++ ds ++ ws ++ "bpm" ++ post)%string.

Definition BpmToken (s ds : string) : Prop :=
  exists pre, BpmTokenAt pre s ds.

(** [ds] is group 1 of the match that starts first. *)
Definition LeftmostBpmToken (s ds : string) : Prop :=
  exists pre,
    BpmTokenAt pre s ds /\
    forall pre' ds', BpmTokenAt pre' s ds' ->
                     (String.length pre <= String.length pre')%nat.

End JsString.

Import JsString.

(** ** Parameter extraction (source lines 34-71) *)

Local Open Scope string_scope.

Section Parameters.

Variable lowerDesc : string.

Definition enableReverb : bool := includes lowerDesc "reverb".
Definition enableDelay : bool := includes lowerDesc "delay".

(** Lines 52-59. *)
Definition bpm : Z :=
  match matchBpm lowerDesc with
  | Some g1 => parseInt g1
  | None =>
      let bpm := 120 in
      let bpm := if includes lowerDesc "slow" then 80 else bpm in
      let bpm := if includes lowerDesc "fast" || includes lowerDesc "upbeat"
                 then 140 else bpm in
      bpm
  end.

(** Lines 63-66. *)
Definition scale : list Z :=
  let scale := [0; 2; 4; 5; 7; 9; 11] in
  let scale := if includes lowerDesc "minor" then [0; 2; 3; 5; 7; 8; 10]
               else scale in
  let scale := if includes lowerDesc "dissonant" || includes lowerDesc "atonal"
               then [0; 1; 4; 5; 8; 9] else scale in
  let scale := if includes lowerDesc "pentatonic" then [0; 2; 4; 7; 9]
               else scale in
  scale.

(** Lines 69-71. *)
Definition isMinor : bool := includes lowerDesc "minor".

Definition chordProgression : list (list Z) :=
  if isMinor then [[0; 3; 7]; [8; 0; 3]; [3; 7; 10]; [10; 2; 5]]
  else [[0; 4; 7]; [7; 11; 2]; [9; 0; 4]; [5; 9; 0]].

Definition baseFreq : Q := 220%Q.

(** Lines 223-234: which layers are built. *)
Definition enableDrums : bool :=
  includes lowerDesc "drum" || includes lowerDesc "beat"
  || includes lowerDesc "percussion" || includes lowerDesc "heartbeat".

Definition enableHarmony : bool :=
  includes lowerDesc "pad" || includes lowerDesc "string"
  || includes lowerDesc "choir" || includes lowerDesc "chord".

Definition enableBass : bool :=
  includes lowerDesc "bass" || includes lowerDesc "drone"
  || includes lowerDesc "rumble".

Definition enableMelody : bool :=
  includes lowerDesc "melody" || includes lowerDesc "piano"
  || includes lowerDesc "bell" || includes lowerDesc "music box"
  || includes lowerDesc "glockenspiel".

End Parameters.

(** The tempo rule as the specification words it, an else-if chain in the
    listed order: a bpm token, else "slow", else "fast" or "upbeat", else
    the default. *)
Definition tempoAsSpecified (lowerDesc : string) : Z :=
  match matchBpm lowerDesc with
  | Some g1 => parseInt g1
  | None =>
      if includes lowerDesc "slow" then 80
      else if includes lowerDesc "fast" || includes lowerDesc "upbeat" then 140
      else 120
  end.

Definition majorScale : list Z := [0; 2; 4; 5; 7; 9; 11].
Definition minorScale : list Z := [0; 2; 3; 5; 7; 8; 10].
Definition dissonantScale : list Z := [0; 1; 4; 5; 8; 9].
Definition pentatonicScale : list Z := [0; 2; 4; 7; 9].

Definition majorProgression : list (list Z) :=
  [[0; 4; 7]; [7; 11; 2]; [9; 0; 4]; [5; 9; 0]].

Definition exampleDescription : string :=
  "A very slow, dragging 60 bpm tempo in a dissonant, atonal scale... music box with heavy reverb and delay... low rumbling bass synth drones... sparse piano chords. No drums...".

(** ** The WAV encoder (source lines 244-283) *)

Module Wav.

Local Open Scope N_scope.

(** The part of the Web Audio [AudioBuffer] interface the encoder reads.
    [getChannelData c i] is [buffer.getChannelData(c)[i]]; the sample rate
    is taken to be integral, as the engine's 44100 is. *)
Record AudioBuffer : Type := {
  numberOfChannels : N;
  length : N;
  sampleRate : N;
  getChannelData : N -> N -> jsnum
}.

(** [new ArrayBuffer(n)] on an engine that can allocate [n] bytes exactly
    when [allocates n]: [n] zero bytes, or [None] for the [RangeError] of
    a length of 2^53 or more, which is no index, and of an allocation
    that fails. *)
Definition newArrayBuffer (allocates : N -> bool) (n : N)
  : option (list Z) :=
  if (n <? 2 ^ 53) && allocates n then Some (repeat 0%Z (N.to_nat n))
  else None.

(** One byte store through the view; [None] is the [RangeError] of a store
    outside the buffer. *)
Fixpoint storeByte (view : list Z) (off : nat) (b : Z) : option (list Z) :=
  match view, off with
  | [], _ => None
  | _ :: rest, O => Some (b :: rest)
  | x :: rest, S off' =>
      match storeByte rest off' b with
      | Some rest' => Some (x :: rest')
      | None => None
      end
  end.

Definition bindView (v : option (list Z)) (k : list Z -> option (list Z))
  : option (list Z) :=
  match v with
  | Some view => k view
  | None => None
  end.

(** Little-endian stores of the low [8 * width] bits of [v]. *)
Fixpoint storeLE (view : list Z) (off : nat) (width : nat) (v : Z)
  : option (list Z) :=
  match width with
  | O => Some view
  | S w =>
      bindView (storeByte view off (v mod 256)%Z)
               (fun view' => storeLE view' (S off) w (v / 256)%Z)
  end.

Definition setUint8 (view : list Z) (off : N) (v : Z) : option (list Z) :=
  storeLE view (N.to_nat off) 1 (v mod 2 ^ 8)%Z.

Definition setUint16 (view : list Z) (off : N) (v : Z) : option (list Z) :=
  storeLE view (N.to_nat off) 2 (v mod 2 ^ 16)%Z.

Definition setUint32 (view : list Z) (off : N) (v : Z) : option (list Z) :=
  storeLE view (N.to_nat off) 4 (v mod 2 ^ 32)%Z.

(** [ToInt16]: truncate, reduce modulo 2^16 into [-2^15, 2^15). *)
Definition ToInt16 (x : jsnum) : Z :=
  let int := (truncate x mod 2 ^ 16)%Z in
  if (2 ^ 15 <=? int)%Z then (int - 2 ^ 16)%Z else int.

(** [view.setInt16(off, x, true)]: the two's-complement bytes of
    [ToInt16 x]. *)
Definition setInt16 (view : list Z) (off : N) (x : jsnum) : option (list Z) :=
  storeLE view (N.to_nat off) 2 (ToInt16 x mod 2 ^ 16)%Z.

Definition charCode (c : ascii) : Z := Z.of_N (N_of_ascii c).

(** Lines 252-256. *)
Fixpoint writeString (view : list Z) (offset : N) (s : string)
  : option (list Z) :=
  match s with
  | EmptyString => Some view
  | String c s' =>
      bindView (setUint8 view offset (charCode c))
               (fun view' => writeString view' (offset + 1) s')
  end.

(** A counting loop [for (let i = from; ...; i++)] of [count] rounds over a
    state that a round may fail to produce. *)
Fixpoint forN {S : Type} (count : nat) (i : N) (body : N -> S -> option S)
  (st : S) : option S :=
  match count with
  | O => Some st
  | Datatypes.S count' =>
      match body i st with
      | Some st' => forN count' (i + 1) body st'
      | None => None
      end
  end.

(** Lines 275-276. *)
Definition clampSample (x : jsnum) : jsnum :=
  Math_max (ofZ (-1)) (Math_min (ofZ 1) x).

Definition intSampleOf (sample : jsnum) : jsnum :=
  if jslt sample (ofZ 0) then jsmul sample (ofZ 32768)
  else jsmul sample (ofZ 32767).

(** Lines 277-278: the body of the inner loop. *)
Definition storeSample (buffer : AudioBuffer) (i channel : N)
  (st : list Z * N) : option (list Z * N) :=
  let (view, offset) := st in
  let sample := clampSample (getChannelData buffer channel i) in
  let intSample := intSampleOf sample in
  match setInt16 view offset intSample with
  | Some view' => Some (view', offset + 2)
  | None => None
  end.

(** Lines 258-270. *)
Definition writeHeader (buffer : AudioBuffer) (view : list Z)
  : option (list Z) :=
  let numOfChan := Z.of_N (numberOfChannels buffer) in
  let len := Z.of_N (length buffer) in
  let rate := Z.of_N (sampleRate buffer) in
  bindView (writeString view 0 "RIFF") (fun view =>
  bindView (setUint32 view 4 (36 + len * numOfChan * 2)%Z) (fun view =>
  bindView (writeString view 8 "WAVE") (fun view =>
  bindView (writeString view 12 "fmt ") (fun view =>
  bindView (setUint32 view 16 16%Z) (fun view =>
  bindView (setUint16 view 20 1%Z) (fun view =>
  bindView (setUint16 view 22 numOfChan) (fun view =>
  bindView (setUint32 view 24 rate) (fun view =>
  bindView (setUint32 view 28 (rate * 2 * numOfChan)%Z) (fun view =>
  bindView (setUint16 view 32 (numOfChan * 2)%Z) (fun view =>
  bindView (setUint16 view 34 16%Z) (fun view =>
  bindView (writeString view 36 "data") (fun view =>
  setUint32 view 40 (len * numOfChan * 2)%Z)))))))))))).

(** Lines 249-282: [bufferToWav] from its second statement on, with the
    allocated bytes in [view]; [None] is an exception escaping the
    function. *)
Definition encodeInto (buffer : AudioBuffer) (view : list Z)
  : option (list Z) :=
  let numOfChan := numberOfChannels buffer in
  match writeHeader buffer view with
  | None => None
  | Some view =>
      let offset := 44 in
      match forN (N.to_nat (length buffer)) 0
              (fun i => forN (N.to_nat numOfChan) 0 (storeSample buffer i))
              (view, offset) with
      | Some (view, _) => Some view
      | None => None
      end
  end.

(** Lines 245-283: [bufferToWav] on an engine that allocates as
    [allocates] says. *)
Definition bufferToWavOn (allocates : N -> bool) (buffer : AudioBuffer)
  : option (list Z) :=
  let numOfChan := numberOfChannels buffer in
  let len := length buffer * numOfChan * 2 + 44 in
  match newArrayBuffer allocates len with
  | None => None
  | Some view => encodeInto buffer view
  end.

(** [bufferToWav] once its output is allocated. *)
Definition bufferToWav (buffer : AudioBuffer) : option (list Z) :=
  let numOfChan := numberOfChannels buffer in
  let len := length buffer * numOfChan * 2 + 44 in
  encodeInto buffer (repeat 0%Z (N.to_nat len)).

(** The allocation of the output of [bufferToWav] succeeds. *)
Definition allocated (allocates : N -> bool) (buffer : AudioBuffer) : Prop :=
  length buffer * numberOfChannels buffer * 2 + 44 < 2 ^ 53
  /\ allocates (length buffer * numberOfChannels buffer * 2 + 44) = true.

(** An engine that never runs out of memory. *)
Definition unbounded : N -> bool := fun _ => true.

(** Reading the encoded bytes back. *)
Fixpoint readLE (bytes : list Z) : Z :=
  match bytes with
  | [] => 0%Z
  | b :: rest => (b + 256 * readLE rest)%Z
  end.

Definition slice (from width : nat) (bytes : list Z) : list Z :=
  firstn width (skipn from bytes).

Definition fieldLE (from width : nat) (bytes : list Z) : Z :=
  readLE (slice from width bytes).

Definition asciiBytes (s : string) : list Z :=
  map charCode (list_ascii_of_string s).

(** A signed 16-bit little-endian sample. *)
Definition readInt16 (bytes : list Z) : Z :=
  let u := readLE bytes in
  if (2 ^ 15 <=? u)%Z then (u - 2 ^ 16)%Z else u.

(** The two-byte group of sample [k] (frames interleaved). *)
Definition pcmAt (k : nat) (bytes : list Z) : Z :=
  readInt16 (slice (44 + 2 * k) 2 bytes).

(** *** The layout of a canonical WAV file, to compare the encoder with *)

(** [width] little-endian bytes of [v]. *)
Fixpoint leBytes (width : nat) (v : Z) : list Z :=
  match width with
  | O => []
  | S w => (v mod 256)%Z :: leBytes w (v / 256)%Z
  end.

Definition dataBytes (buffer : AudioBuffer) : Z :=
  (Z.of_N (length buffer) * Z.of_N (numberOfChannels buffer) * 2)%Z.

Definition headerBytes (buffer : AudioBuffer) : list Z :=
  let numOfChan := Z.of_N (numberOfChannels buffer) in
  let rate := Z.of_N (sampleRate buffer) in
  (asciiBytes "RIFF"
   ++ leBytes 4 ((36 + dataBytes buffer) mod 2 ^ 32)
   ++ asciiBytes "WAVE"
   ++ asciiBytes "fmt "
   ++ leBytes 4 (16 mod 2 ^ 32)
   ++ leBytes 2 (1 mod 2 ^ 16)
   ++ leBytes 2 (numOfChan mod 2 ^ 16)
   ++ leBytes 4 (rate mod 2 ^ 32)
   ++ leBytes 4 ((rate * 2 * numOfChan) mod 2 ^ 32)
   ++ leBytes 2 ((numOfChan * 2) mod 2 ^ 16)
   ++ leBytes 2 (16 mod 2 ^ 16)
   ++ asciiBytes "data"
   ++ leBytes 4 (dataBytes buffer mod 2 ^ 32))%list%Z.

(** The PCM value of the sample of channel [c] in frame [i]. *)
Definition pcmValue (buffer : AudioBuffer) (i c : N) : Z :=
  ToInt16 (intSampleOf (clampSample (getChannelData buffer c i))).

Fixpoint Nseq (start : N) (count : nat) : list N :=
  match count with
  | O => []
  | S count' => start :: Nseq (start + 1) count'
  end.

Definition sampleBytes (buffer : AudioBuffer) (i c : N) : list Z :=
  leBytes 2 (pcmValue buffer i c mod 2 ^ 16)%Z.

Definition frameBytes (buffer : AudioBuffer) (i : N) : list Z :=
  flat_map (sampleBytes buffer i)
           (Nseq 0 (N.to_nat (numberOfChannels buffer))).

(** The state of the sample loops once [pre] is written and [n] zero
    bytes are left before [rest]. *)
Definition written (pre rest : list Z) (n : nat) : list Z * N :=
  (pre ++ repeat 0%Z n ++ rest, N.of_nat (List.length pre))%list.

Definition pcmBytes (buffer : AudioBuffer) : list Z :=
  flat_map (frameBytes buffer) (Nseq 0 (N.to_nat (length buffer))).


(** Values the header fields can hold. *)
Definition fitsHeader (buffer : AudioBuffer) : Prop :=
  (Z.of_N (numberOfChannels buffer) * 2 < 2 ^ 16
   /\ 36 + dataBytes buffer < 2 ^ 32
   /\ Z.of_N (sampleRate buffer) < 2 ^ 32
   /\ Z.of_N (sampleRate buffer) * 2 * Z.of_N (numberOfChannels buffer) < 2 ^ 32)%Z.

(** The 44 header bytes of [bytes] read as the RIFF/WAVE fields; the four
    tags are the ASCII codes of "RIFF", "WAVE", "fmt " and "data". *)
Record headerFields : Type := {
  chunkSize : Z;
  fmtChunkSize : Z;
  audioFormat : Z;
  numChannels : Z;
  headerSampleRate : Z;
  byteRate : Z;
  blockAlign : Z;
  bitsPerSample : Z;
  dataSize : Z
}.

Definition readsAs (bytes : list Z) (h : headerFields) : Prop :=
  slice 0 4 bytes = [82; 73; 70; 70]%Z /\
  fieldLE 4 4 bytes = chunkSize h /\
  slice 8 4 bytes = [87; 65; 86; 69]%Z /\
  slice 12 4 bytes = [102; 109; 116; 32]%Z /\
  fieldLE 16 4 bytes = fmtChunkSize h /\
  fieldLE 20 2 bytes = audioFormat h /\
  fieldLE 22 2 bytes = numChannels h /\
  fieldLE 24 4 bytes = headerSampleRate h /\
  fieldLE 28 4 bytes = byteRate h /\
  fieldLE 32 2 bytes = blockAlign h /\
  fieldLE 34 2 bytes = bitsPerSample h /\
  slice 36 4 bytes = [100; 97; 116; 97]%Z /\
  fieldLE 40 4 bytes = dataSize h.

(** The field values a canonical header has for [buffer]. *)
Definition exactFields (buffer : AudioBuffer) : headerFields :=
  let numOfChan := Z.of_N (numberOfChannels buffer) in
  let rate := Z.of_N (sampleRate buffer) in
  {| chunkSize := 36 + dataBytes buffer;
     fmtChunkSize := 16;
     audioFormat := 1;
     numChannels := numOfChan;
     headerSampleRate := rate;
     byteRate := rate * numOfChan * 2;
     blockAlign := numOfChan * 2;
     bitsPerSample := 16;
     dataSize := dataBytes buffer |}%Z.

(** The same values cut to the widths of their fields. *)
Definition truncatedFields (buffer : AudioBuffer) : headerFields :=
  let e := exactFields buffer in
  {| chunkSize := chunkSize e mod 2 ^ 32;
     fmtChunkSize := 16;
     audioFormat := 1;
     numChannels := numChannels e mod 2 ^ 16;
     headerSampleRate := headerSampleRate e mod 2 ^ 32;
     byteRate := byteRate e mod 2 ^ 32;
     blockAlign := blockAlign e mod 2 ^ 16;
     bitsPerSample := 16;
     dataSize := dataSize e mod 2 ^ 32 |}%Z.

Definition silence (channels frames : N) : AudioBuffer :=
  {| numberOfChannels := channels; length := frames; sampleRate := 44100;
     getChannelData := fun _ _ => ofZ 0 |}.

(** A buffer with more channels than the 16-bit block-align field counts. *)
Definition wideBuffer : AudioBuffer := silence 32768 1.

(** A two-frame stereo buffer with samples inside, outside and not in the
    number line. *)
Definition tinyBuffer : AudioBuffer :=
  {| numberOfChannels := 2; length := 2; sampleRate := 44100;
     getChannelData := fun c i =>
       if N.eqb c 0 then Fin (1 # 2)
       else if N.eqb i 0 then Fin (- (3 # 2)) else NaN |}.

(** A one-frame stereo buffer with a sample above 1 and a negative one. *)
Definition loudBuffer : AudioBuffer :=
  {| numberOfChannels := 2; length := 1; sampleRate := 44100;
     getChannelData := fun c _ =>
       if N.eqb c 0 then Fin (3 # 2) else Fin (- (1 # 4)) |}.

End Wav.

(** ** The audio graph (source lines 8-242) *)

Module Synth.

Import Wav.

Local Open Scope list_scope.
Local Open Scope Q_scope.

Inductive OscillatorType : Type := sine | square | sawtooth | triangle.

Inductive BiquadType : Type := lowpass | highpass.

(** A value handed to an AudioParam: a literal, or
    [base * Math.pow(2, exponent)], kept as written since 2^(k/12) is
    irrational. *)
Inductive value : Type :=
| Lit (q : Q)
| TimesPow2 (base exponent : Q).

Inductive automation : Type :=
| setValueAtTime (v : value) (time : Q)
| linearRampToValueAtTime (v : value) (time : Q)
| exponentialRampToValueAtTime (v : value) (time : Q).

Inductive sourceNode : Type :=
| OscillatorNode (type : OscillatorType) (detune : Z)
    (frequency : list automation)
| BufferSourceNode (buffer : list Q).

(** One started source with what stands between it and the gain node of
    its layer: an optional filter of its own and the automation of its
    envelope gain ([[]] when it has no envelope). *)
Record voice : Type := {
  source : sourceNode;
  voiceFilter : option (BiquadType * Q);
  envelope : list automation;
  startTime : Q;
  stopTime : Q
}.

(** A layer: its gain, the filter between that gain and the master gain,
    and its voices in creation order. *)
Record layer : Type := {
  layerGain : Q;
  layerFilter : option (BiquadType * Q);
  voices : list voice
}.

(** What reaches [context.destination]: the master gain with the optional
    reverb and delay sends, fed by the layers that were built.  [reverb]
    holds the impulse response of the convolver when it is connected. *)
Record AudioGraph : Type := {
  reverb : option (list (list Q));
  delay : bool;
  drums : option layer;
  harmony : option layer;
  bass : option layer;
  melody : option layer
}.

(** An oscillator wired straight to the gain of its layer, playing one
    frequency from [start] to [stop]. *)
Definition oscillatorVoice (type : OscillatorType) (freq : value)
  (start stop : Q) (detune : Z) : voice :=
  {| source := OscillatorNode type detune [setValueAtTime freq start];
     voiceFilter := None;
     envelope := [];
     startTime := start;
     stopTime := stop |}.

(** *** Effects: randomness, exceptions, loops that may not end *)

Inductive outcome (A : Type) : Type :=
| Returned (a : A) (calls : N)
| Threw
| Hangs.

Arguments Returned {A} a calls.
Arguments Threw {A}.
Arguments Hangs {A}.

(** A computation reads the number of [Math.random] calls made so far. *)
Definition M (A : Type) : Type := N -> outcome A.

Definition ret {A : Type} (a : A) : M A := fun calls => Returned a calls.

Definition bind {A B : Type} (m : M A) (k : A -> M B) : M B :=
  fun calls =>
    match m calls with
    | Returned a calls' => k a calls'
    | Threw => Threw
    | Hangs => Hangs
    end.

Definition throw {A : Type} : M A := fun _ => Threw.

Notation "x <- m ;; k" := (bind m (fun x => k))
  (at level 61, m at next level, right associativity).

(** A time argument of [setValueAtTime], [start], [stop] and the ramps:
    a non-finite one is a [TypeError], a negative one a [RangeError]. *)
Definition atTime (t : jsnum) : M Q :=
  match t with
  | Fin q => if Qlt_bool q 0 then throw else ret q
  | _ => throw
  end.

(** [list.forEach], collecting the voices each round creates. *)
Fixpoint forEach {A B : Type} (l : list A) (i : Z) (body : A -> Z -> M (list B))
  : M (list B) :=
  match l with
  | [] => ret []
  | x :: rest =>
      here <- body x i ;;
      later <- forEach rest (i + 1)%Z body ;;
      ret (here ++ later)
  end.

(** [count] rounds of a counting loop starting at [i]. *)
Fixpoint forCount {B : Type} (count : nat) (i : Z) (body : Z -> M (list B))
  : M (list B) :=
  match count with
  | O => ret []
  | S count' =>
      here <- body i ;;
      later <- forCount count' (i + 1)%Z body ;;
      ret (here ++ later)
  end.

(** The number of rounds of [for (let i = 0; i < bound; i++)]; [None]
    when the loop never ends: the counter stays at 2^53, where [i++] no
    longer changes it, so a bound above 2^53 is never reached. *)
Definition rounds (bound : jsnum) : option nat :=
  match bound with
  | Fin q =>
      if Qlt_bool (inject_Z (2 ^ 53)) q then None
      else Some (Z.to_nat (Qceiling q))
  | PosInf => None
  | NaN | NegInf => Some O
  end.

Definition forLt {B : Type} (bound : jsnum) (body : Z -> M (list B))
  : M (list B) :=
  match rounds bound with
  | Some count => forCount count 0%Z body
  | None => fun _ => Hangs
  end.

Definition duration : Z := 10.
Definition contextSampleRate : Z := 44100.

Section WithRandom.

(** [rng k] is what the [k]-th call of [Math.random] returns. *)
Variable rng : N -> Q.

Definition Math_random : M Q := fun calls => Returned (rng calls) (calls + 1)%N.

(** Lines 22-28: one channel of the impulse response, each sample the
    exact value of the expression of line 26. *)
Definition impulseChannel : M (list Q) :=
  forCount (Z.to_nat (2 * contextSampleRate)) 0%Z (fun j =>
    r <- Math_random ;;
    ret [(r * 2 - 1)
         * (1 - inject_Z j / inject_Z (2 * contextSampleRate)) ^ 2]).

Definition createImpulse : M (list (list Q)) :=
  forCount 2 0%Z (fun _ => chan <- impulseChannel ;; ret [chan]).

(** Lines 102-104: the noise of one snare hit, each sample the exact
    value of the expression of line 104. *)
Definition noiseBuffer : M (list Q) :=
  forCount (Z.to_nat (Qfloor (inject_Z contextSampleRate * (2 # 10)))) 0%Z
    (fun _ => r <- Math_random ;; ret [r * 2 - 1]).

Section Layers.

(** What the four closures capture. *)
Variable lowerDesc : string.
Variable beatDuration : jsnum.
Variable scale : list Z.
Variable chordProgression : list (list Z).

(** Lines 85-96. *)
Definition kick (time : jsnum) : M (list voice) :=
  t <- atTime time ;;
  ret [ {| source := OscillatorNode sine 0
             [setValueAtTime (Lit 150) t;
              exponentialRampToValueAtTime (Lit (1 # 100)) (t + (1 # 10))];
           voiceFilter := None;
           envelope :=
             [setValueAtTime (Lit 1) t;
              exponentialRampToValueAtTime (Lit (1 # 100)) (t + (1 # 10))];
           startTime := t;
           stopTime := t + (15 # 100) |} ].

(** Lines 99-114. *)
Definition snare (time : jsnum) : M (list voice) :=
  buffer <- noiseBuffer ;;
  t <- atTime time ;;
  ret [ {| source := BufferSourceNode buffer;
           voiceFilter := Some (highpass, 1500);
           envelope :=
             [setValueAtTime (Lit (8 # 10)) t;
              exponentialRampToValueAtTime (Lit (1 # 100)) (t + (15 # 100))];
           startTime := t;
           stopTime := t + (15 # 100) |} ].

(** Lines 76-116. *)
Definition createDrums : M layer :=
  vs <- forLt (jsdiv (ofZ duration) beatDuration) (fun i =>
    let time := jsmul (ofZ i) beatDuration in
    k <- (if (i mod 2 =? 0)%Z || includes lowerDesc "heartbeat"
          then kick time else ret []) ;;
    s <- (if negb (i mod 2 =? 0)%Z && negb (includes lowerDesc "heartbeat")
          then snare time else ret []) ;;
    ret (k ++ s)) ;;
  ret {| layerGain := 8 # 10; layerFilter := None; voices := vs |}.

(** Lines 127-129. *)
Definition harmonyOscType : OscillatorType :=
  let oscType := sawtooth in
  let oscType := if includes lowerDesc "choir" || includes lowerDesc "soft"
                 then sine else oscType in
  let oscType := if includes lowerDesc "synth" then square else oscType in
  oscType.

(** Line 135. *)
Definition detuneAmount : Z := if includes lowerDesc "string" then 5 else 0.

(** [baseFreq * Math.pow(2, (offset + scale[0]) / 12)]; [None] when
    [scale[0]] is [undefined], which makes the frequency NaN. *)
Definition noteFrequency (base : Q) (offset : Z) : option value :=
  match nth_error scale 0 with
  | Some s0 => Some (TimesPow2 base (inject_Z (offset + s0) / 12))
  | None => None
  end.

(** Lines 136-146: the oscillators of one chord note. *)
Definition harmonyNote (time : jsnum) (noteOffset : Z) : M (list voice) :=
  forEach [(- detuneAmount)%Z; 0%Z; detuneAmount] 0%Z (fun detune _ =>
    if (detune =? 0)%Z && negb (detuneAmount =? 0)%Z then ret []
    else
      match noteFrequency baseFreq noteOffset with
      | None => throw
      | Some freq =>
          t <- atTime time ;;
          stop <- atTime (jsadd time (jsmul beatDuration (ofZ 4))) ;;
          ret [oscillatorVoice harmonyOscType freq t stop detune]
      end).

(** Lines 119-149. *)
Definition createHarmony : M layer :=
  vs <- forEach chordProgression 0%Z (fun chord i =>
    let time := jsmul (jsmul (ofZ i) beatDuration) (ofZ 4) in
    forEach chord 0%Z (fun noteOffset _ => harmonyNote time noteOffset)) ;;
  ret {| layerGain := 4 # 10; layerFilter := Some (lowpass, 800);
         voices := vs |}.

(** Lines 160-161. *)
Definition bassOscType : OscillatorType :=
  if includes lowerDesc "rumble" || includes lowerDesc "drone"
  then sine else square.

(** Lines 152-174.  [chord[0]] of an empty chord is [undefined]. *)
Definition createBass : M layer :=
  vs <- forEach chordProgression 0%Z (fun chord i =>
    let time := jsmul (jsmul (ofZ i) beatDuration) (ofZ 4) in
    match nth_error chord 0 with
    | None => throw
    | Some rootNote =>
        match noteFrequency (baseFreq / 2) rootNote with
        | None => throw
        | Some freq =>
            t <- atTime time ;;
            stop <- atTime (jsadd time (jsmul beatDuration (ofZ 4))) ;;
            ret [oscillatorVoice bassOscType freq t stop 0]
        end
    end) ;;
  ret {| layerGain := 7 # 10; layerFilter := Some (lowpass, 400);
         voices := vs |}.

(** Lines 182-184. *)
Definition melodyOscType : OscillatorType :=
  let oscType := triangle in
  let oscType := if includes lowerDesc "bell" || includes lowerDesc "music box"
                    || includes lowerDesc "glockenspiel"
                 then sine else oscType in
  let oscType := if includes lowerDesc "piano" then sine else oscType in
  oscType.

(** [scale[noteIndex]] for an integral index. *)
Definition scaleAt (noteIndex : Z) : option Z :=
  if (noteIndex <? 0)%Z then None else nth_error scale (Z.to_nat noteIndex).

(** Lines 191-218: one half-beat of the melody.  [currentChord] (lines
    188-189) is computed and never read. *)
Definition melodyStep (i : Z) : M (list voice) :=
  let time := jsmul (ofZ i) (jsdiv beatDuration (ofZ 2)) in
  gate <- Math_random ;;
  if Qlt_bool (3 # 10) gate then
    pick <- Math_random ;;
    let noteIndex := Qfloor (pick * inject_Z (Z.of_nat (List.length scale))) in
    match scaleAt noteIndex with
    | None => throw
    | Some degree =>
        let note := (degree + 12)%Z in
        let freq := TimesPow2 baseFreq (inject_Z note / 12) in
        let detune := if includes lowerDesc "detuned" then (-25)%Z else 0%Z in
        t <- atTime time ;;
        let long := includes lowerDesc "piano" || includes lowerDesc "bell" in
        let attack := if long then 1 # 100 else 5 # 100 in
        decayTime <- atTime (jsadd time (if long then jsmul beatDuration (ofZ 2)
                                         else jsdiv beatDuration (ofZ 2))) ;;
        ret [ {| source := OscillatorNode melodyOscType detune
                             [setValueAtTime freq t];
                 voiceFilter := None;
                 envelope :=
                   [setValueAtTime (Lit 0) t;
                    linearRampToValueAtTime (Lit 1) (t + attack);
                    exponentialRampToValueAtTime (Lit (1 # 1000)) decayTime];
                 startTime := t;
                 stopTime := decayTime |} ]
    end
  else ret [].

(** Lines 177-220. *)
Definition createMelody : M layer :=
  vs <- forLt (jsdiv (ofZ duration) (jsdiv beatDuration (ofZ 2))) melodyStep ;;
  ret {| layerGain := 6 # 10; layerFilter := None; voices := vs |}.

End Layers.

Definition whenEnabled (enabled : bool) (create : M layer) : M (option layer) :=
  if enabled then (l <- create ;; ret (Some l)) else ret None.

(** Lines 8-234: the graph handed to [context.startRendering()]. *)
Definition buildGraph (description : string) : M AudioGraph :=
  impulse <- createImpulse ;;
  let lowerDesc := toLowerCase description in
  let beatDuration := jsdiv (ofZ 60) (ofZ (bpm lowerDesc)) in
  let scale := scale lowerDesc in
  let chordProgression := chordProgression lowerDesc in
  d <- whenEnabled (enableDrums lowerDesc)
         (createDrums lowerDesc beatDuration) ;;
  h <- whenEnabled (enableHarmony lowerDesc)
         (createHarmony lowerDesc beatDuration scale chordProgression) ;;
  b <- whenEnabled (enableBass lowerDesc)
         (createBass lowerDesc beatDuration scale chordProgression) ;;
  m <- whenEnabled (enableMelody lowerDesc)
         (createMelody lowerDesc beatDuration scale) ;;
  ret {| reverb := if enableReverb lowerDesc then Some impulse else None;
         delay := enableDelay lowerDesc;
         drums := d; harmony := h; bass := b; melody := m |}.

(** Lines 236-240.  [render] stands for [context.startRendering()], the
    browser's offline renderer; the encoder is taken on an engine that
    allocates its output. *)
Definition generateAudioPreview (render : AudioGraph -> AudioBuffer)
  (description : string) : M (list Z) :=
  graph <- buildGraph description ;;
  match bufferToWav (render graph) with
  | Some wav => ret wav
  | None => throw
  end.

End WithRandom.

(** *** Vocabulary for the statements *)

(** The detunes of the oscillators one chord note gets. *)
Definition detunesPerNote (lowerDesc : string) : list Z :=
  if includes lowerDesc "string" then [-5; 5]%Z else [0; 0; 0]%Z.

(** The same as the specification words it: one oscillator, or a trio. *)
Definition detunesPerNoteAsSpecified (lowerDesc : string) : list Z :=
  if includes lowerDesc "string" then [-5; 0; 5]%Z else [0]%Z.

Definition voiceDetune (v : voice) : option Z :=
  match source v with
  | OscillatorNode _ detune _ => Some detune
  | BufferSourceNode _ => None
  end.

(** The results of the rounds of a loop, one after the other. *)
Fixpoint flatIndexed {A B : Type} (f : A -> Z -> list B) (l : list A) (i : Z)
  : list B :=
  match l with
  | [] => []
  | x :: rest => f x i ++ flatIndexed f rest (i + 1)%Z
  end.

(** A graph with what was drawn from [Math.random] outside the melody
    blanked: the samples of the snare noise and of the impulse response. *)
Definition maskVoice (v : voice) : voice :=
  match source v with
  | BufferSourceNode _ =>
      {| source := BufferSourceNode [];
         voiceFilter := voiceFilter v;
         envelope := envelope v;
         startTime := startTime v;
         stopTime := stopTime v |}
  | OscillatorNode _ _ _ => v
  end.

Definition maskLayer (l : layer) : layer :=
  {| layerGain := layerGain l;
     layerFilter := layerFilter l;
     voices := map maskVoice (voices l) |}.

Definition maskNoise (g : AudioGraph) : AudioGraph :=
  {| reverb := option_map (fun _ => []) (reverb g);
     delay := delay g;
     drums := option_map maskLayer (drums g);
     harmony := harmony g;
     bass := bass g;
     melody := melody g |}.

Definition outcomeMap {A B : Type} (f : A -> B) (o : outcome A) : outcome B :=
  match o with
  | Returned a calls => Returned (f a) calls
  | Threw => Threw
  | Hangs => Hangs
  end.

(** Two runs end the same way, after as many [Math.random] calls, with
    results related by [R]. *)
Definition related {A : Type} (R : A -> A -> Prop) (o1 o2 : outcome A) : Prop :=
  match o1, o2 with
  | Returned a1 c1, Returned a2 c2 => R a1 a2 /\ c1 = c2
  | Threw, Threw => True
  | Hangs, Hangs => True
  | _, _ => False
  end.

(** Relations between the results of two runs: none at all, and equality
    once the noise is blanked. *)
Definition anything {A : Type} (_ _ : A) : Prop := True.

Definition sameMasked (l1 l2 : list voice) : Prop :=
  map maskVoice l1 = map maskVoice l2.

(** The first sample of the noise of the first snare hit. *)
Definition firstNoiseSample (o : outcome AudioGraph) : option Q :=
  match o with
  | Returned g _ =>
      match drums g with
      | Some l =>
          match nth_error (voices l) 1 with
          | Some v =>
              match source v with
              | BufferSourceNode buffer => nth_error buffer 0
              | OscillatorNode _ _ _ => None
              end
          | None => None
          end
      | None => None
      end
  | _ => None
  end.

(** A stand-in for the renderer that lets one sample of the graph
    through: a one-frame mono buffer holding the first noise sample of the
    first snare hit. *)
Definition noiseProbe (g : AudioGraph) : AudioBuffer :=
  {| numberOfChannels := 1; length := 1; sampleRate := 44100;
     getChannelData := fun _ _ =>
       match firstNoiseSample (Returned g 0%N) with
       | Some q => Fin q
       | None => ofZ 0
       end |}.

Definition returns {A : Type} (o : outcome A) : bool :=
  match o with
  | Returned _ _ => true
  | _ => false
  end.

(** Two random sources, both within [0, 1). *)
Definition rngZero : N -> Q := fun _ => 0.
Definition rngHalf : N -> Q := fun _ => 1 # 2.

End Synth.

(** ** Vocabulary for the further properties *)

(** *** Text *)

Module Text.
Local Open Scope string_scope.
(** [String(n)] for a natural number: its decimal digits. *)
Definition decimal (n : N) : string := NilEmpty.string_of_uint (N.to_uint n).

Definition notDigit (c : ascii) : bool := negb (isDigit c).
Definition isZeroChar (c : ascii) : bool := Ascii.eqb c "0".
End Text.

(** *** Buffers *)

Module Buffers.

Import Wav.

(** [tinyBuffer] with other values past its last frame and channel. *)
Definition paddedBuffer : AudioBuffer :=
  {| numberOfChannels := 2; length := 2; sampleRate := 44100;
     getChannelData := fun c i =>
       if ((c <? 2) && (i <? 2))%N then getChannelData tinyBuffer c i
       else Fin 1 |}.

End Buffers.

(** *** The schedule of the layers *)

Module Schedule.
Import Synth.
Local Open Scope list_scope.
Local Open Scope Q_scope.

(** [Math.random] keeps its promise: every draw is in [0, 1). *)
Definition unitInterval (rng : N -> Q) : Prop :=
  forall k, 0 <= rng k /\ rng k < 1.

(** The results of [n] rounds that each draw once and keep [g j r] for
    round [j] and draw [r]. *)
Fixpoint drawn {B : Type} (g : Z -> Q -> B) (rng : N -> Q) (n : nat)
  (i : Z) (calls : N) : list B :=
  match n with
  | O => []
  | S n' => g i (rng calls) :: drawn g rng n' (i + 1)%Z (calls + 1)%N
  end.

(** Sample [j] of the impulse response for the draw [r] (line 26). *)
Definition impulseSample (j : Z) (r : Q) : Q :=
  (r * 2 - 1) * (1 - inject_Z j / inject_Z (2 * contextSampleRate)) ^ 2.

Definition noiseSample (_ : Z) (r : Q) : Q := r * 2 - 1.

Definition impulseLength : nat := Z.to_nat (2 * contextSampleRate).
Definition noiseLength : nat :=
  Z.to_nat (Qfloor (inject_Z contextSampleRate * (2 # 10))).

(** The voice of a kick at [t] (lines 86-95) and of a snare hit at [t]
    with its noise (lines 100-113). *)
Definition kickVoice (t : Q) : voice :=
  {| source := OscillatorNode sine 0
       [setValueAtTime (Lit 150) t;
        exponentialRampToValueAtTime (Lit (1 # 100)) (t + (1 # 10))];
     voiceFilter := None;
     envelope :=
       [setValueAtTime (Lit 1) t;
        exponentialRampToValueAtTime (Lit (1 # 100)) (t + (1 # 10))];
     startTime := t;
     stopTime := t + (15 # 100) |}.

Definition snareVoice (buffer : list Q) (t : Q) : voice :=
  {| source := BufferSourceNode buffer;
     voiceFilter := Some (highpass, 1500);
     envelope :=
       [setValueAtTime (Lit (8 # 10)) t;
        exponentialRampToValueAtTime (Lit (1 # 100)) (t + (15 # 100))];
     startTime := t;
     stopTime := t + (15 # 100) |}.

(** Beat [i] carries a kick (line 85); otherwise it carries a snare. *)
Definition isKickBeat (lowerDesc : string) (i : Z) : bool :=
  (i mod 2 =? 0)%Z || includes lowerDesc "heartbeat".

Definition isNoise (v : voice) : bool :=
  match source v with
  | BufferSourceNode _ => true
  | OscillatorNode _ _ _ => false
  end.

Fixpoint Zseq (start : Z) (count : nat) : list Z :=
  match count with
  | O => []
  | S count' => start :: Zseq (start + 1)%Z count'
  end.

(** The hit of beat [i] when [calls] draws were made before it, and the
    draws it makes. *)
Definition drumHit (rng : N -> Q) (lowerDesc : string) (bd : Q) (i : Z)
  (calls : N) : voice :=
  if isKickBeat lowerDesc i then kickVoice (inject_Z i * bd)
  else snareVoice (drawn noiseSample rng noiseLength 0%Z calls)
                  (inject_Z i * bd).

Definition drumDraws (lowerDesc : string) (i : Z) : N :=
  if isKickBeat lowerDesc i then 0%N else 8820%N.

Fixpoint drumHits (rng : N -> Q) (lowerDesc : string) (bd : Q) (n : nat)
  (i : Z) (calls : N) : list voice :=
  match n with
  | O => []
  | S n' =>
      drumHit rng lowerDesc bd i calls
      :: drumHits rng lowerDesc bd n' (i + 1)%Z
           (calls + drumDraws lowerDesc i)%N
  end.

Fixpoint drumCalls (lowerDesc : string) (n : nat) (i : Z) (calls : N) : N :=
  match n with
  | O => calls
  | S n' => drumCalls lowerDesc n' (i + 1)%Z (calls + drumDraws lowerDesc i)%N
  end.

(** The number of rounds of a loop [for (i = 0; i < duration / step; i++)]. *)
Definition roundsOf (step : Q) : nat :=
  Z.to_nat (Qceiling (inject_Z duration / step)).

(** The voice of a melody note on [degree] at [t] (lines 193-217). *)
Definition melodyVoice (lowerDesc : string) (bd : Q) (degree : Z) (t : Q)
  : voice :=
  let long := includes lowerDesc "piano" || includes lowerDesc "bell" in
  let decayTime := t + (if long then bd * inject_Z 2 else bd / inject_Z 2) in
  {| source :=
       OscillatorNode (melodyOscType lowerDesc)
         (if includes lowerDesc "detuned" then (-25)%Z else 0%Z)
         [setValueAtTime (TimesPow2 baseFreq (inject_Z (degree + 12) / 12)) t];
     voiceFilter := None;
     envelope :=
       [setValueAtTime (Lit 0) t;
        linearRampToValueAtTime (Lit 1)
          (t + (if long then 1 # 100 else 5 # 100));
        exponentialRampToValueAtTime (Lit (1 # 1000)) decayTime];
     startTime := t;
     stopTime := decayTime |}.

(** The voice of the bass under chord [i] (lines 164-172). *)
Definition bassVoice (lowerDesc : string) (bd : Q) (chord : list Z) (i : Z)
  : list voice :=
  match chord with
  | rootNote :: _ =>
      [oscillatorVoice (bassOscType lowerDesc)
         (TimesPow2 (baseFreq / 2) (inject_Z (rootNote + 0) / 12))
         (inject_Z i * bd * inject_Z 4)
         (inject_Z i * bd * inject_Z 4 + bd * inject_Z 4) 0%Z]
  | [] => []
  end.

Definition present {A : Type} (o : option A) : bool :=
  match o with
  | Some _ => true
  | None => false
  end.

End Schedule.

(** ** The page (App.tsx lines 11-147, ApiKeyModal.tsx lines 11-16) *)

Module App.

Import Text.

Local Open Scope string_scope.

(** A [Set<string>], its elements in insertion order. *)
Definition StringSet : Type := list string.

Definition Set_has (s : StringSet) (x : string) : bool :=
  existsb (String.eqb x) s.

Definition Set_add (s : StringSet) (x : string) : StringSet :=
  if Set_has s x then s else (s ++ [x])%list.

Definition Set_delete (s : StringSet) (x : string) : StringSet :=
  filter (fun y => negb (String.eqb x y)) s.

(** The tracks of [types.ts], with the fields the page reads. *)
Record MusicRecommendation : Type := {
  id : string;
  trackName : string;
  mood : string;
  musicDescription : string;
  previewUrl : option string
}.

(** Lines 116-126: the updater handed to [setBookmarkedTracks]. *)
Definition toggleBookmark (id : string) (prev : StringSet) : StringSet :=
  if Set_has prev id then Set_delete prev id else Set_add prev id.

(** Lines 146-147. *)
Definition bookmarkedList (recommendations : list MusicRecommendation)
  (bookmarkedTracks : StringSet) : list MusicRecommendation :=
  filter (fun track => Set_has bookmarkedTracks (id track)) recommendations.

Definition recommendedList (recommendations : list MusicRecommendation)
  (bookmarkedTracks : StringSet) : list MusicRecommendation :=
  filter (fun track => negb (Set_has bookmarkedTracks (id track)))
         recommendations.

(** Line 95: the template literal, for a clock reading [now] and an array
    index; both are non-negative integers below 10^21, which print as
    their decimal digits. *)
Definition trackId (now index : N) : string :=
  decimal now ++ "-" ++ decimal index.

(** Lines 93-96: [results.map], which reads the clock once per track;
    [clock k] is what the [k]-th call of [Date.now] returns. *)
Fixpoint withIds (clock : N -> N) (results : list MusicRecommendation)
  (index reads : N) : list MusicRecommendation :=
  match results with
  | [] => []
  | track :: rest =>
      {| id := trackId (clock reads) index;
         trackName := trackName track;
         mood := mood track;
         musicDescription := musicDescription track;
         previewUrl := previewUrl track |}
      :: withIds clock rest (index + 1) (reads + 1)
  end.

(** [String.prototype.trim]. *)
Fixpoint trimStart (s : string) : string :=
  match s with
  | EmptyString => EmptyString
  | String c s' => if isSpace c then trimStart s' else s
  end.

Fixpoint trimEnd (s : string) : string :=
  match s with
  | EmptyString => EmptyString
  | String c s' =>
      match trimEnd s' with
      | EmptyString => if isSpace c then EmptyString else String c EmptyString
      | kept => String c kept
      end
  end.

Definition trim (s : string) : string := trimEnd (trimStart s).

(** A string in a condition: false when empty. *)
Definition truthy (s : string) : bool :=
  match s with
  | EmptyString => false
  | String _ _ => true
  end.

(** The stored item ['gemini-api-key'] and the [apiKey] state; the
    storage is taken to accept what is written to it. *)
Record KeyState : Type := {
  storedKey : option string;
  apiKey : option string
}.

(** Lines 63-66. *)
Definition handleSetApiKey (key : string) (_ : KeyState) : KeyState :=
  {| storedKey := Some key; apiKey := Some key |}.

(** Lines 68-71. *)
Definition resetApiKey (_ : KeyState) : KeyState :=
  {| storedKey := None; apiKey := None |}.

(** ApiKeyModal.tsx lines 11-16, with [onSetApiKey] bound as on line 150
    of the page. *)
Definition handleSubmit (localApiKey : string) (st : KeyState) : KeyState :=
  if truthy (trim localApiKey) then handleSetApiKey (trim localApiKey) st
  else st.

(** Line 149: the page shows the key form instead of itself. *)
Definition showsKeyForm (st : KeyState) : bool :=
  match apiKey st with
  | Some key => negb (truthy key)
  | None => true
  end.

(** The last character of a string. *)
Fixpoint lastChar (s : string) : option ascii :=
  match s with
  | EmptyString => None
  | String c EmptyString => Some c
  | String _ s' => lastChar s'
  end.

Definition firstChar (s : string) : option ascii :=
  match s with
  | EmptyString => None
  | String c _ => Some c
  end.

Definition notSpace (o : option ascii) : bool :=
  match o with
  | Some c => negb (isSpace c)
  | None => false
  end.

End App.

(** * Properties *)

(** ** Strings and the tempo pattern *)

Module JsStringFacts.

Local Open Scope string_scope.

Lemma append_assoc (a b c : string) : (a ++ b) ++ c = a ++ b ++ c.
Proof. induction a as [|x a IH]; simpl; [reflexivity | now rewrite IH]. Qed.

Lemma append_empty_r (a : string) : a ++ "" = a.
Proof. induction a as [|x a IH]; simpl; [reflexivity | now rewrite IH]. Qed.

Lemma append_cancel_l (a b c : string) : a ++ b = a ++ c -> b = c.
Proof.
  induction a as [|x a IH]; simpl; intros H; [exact H |].
  inversion H. now apply IH.
Qed.

Lemma startsWith_append (p r : string) : startsWith (p ++ r) p = true.
Proof.
  induction p as [|x p IH]; simpl; [reflexivity |].
  now rewrite Ascii.eqb_refl, IH.
Qed.

Lemma startsWith_split (s p : string) :
  startsWith s p = true -> exists r, s = p ++ r.
Proof.
  revert s. induction p as [|x p IH]; intros s H.
  - exists s. reflexivity.
  - destruct s as [|y s]; simpl in H; [discriminate |].
    apply andb_true_iff in H as [Hxy Hp].
    apply Ascii.eqb_eq in Hxy. subst y.
    destruct (IH _ Hp) as [r ->]. now exists r.
Qed.

(** [includes] is substring containment. *)
Lemma includes_Contains (s p : string) :
  includes s p = true <-> Contains s p.
Proof.
  split.
  - induction s as [|c s IH]; simpl; intros H.
    + rewrite orb_false_r in H. destruct (startsWith_split _ _ H) as [r Hr].
      exists "", r. exact Hr.
    + apply orb_true_iff in H as [H | H].
      * destruct (startsWith_split _ _ H) as [r Hr]. exists "", r. exact Hr.
      * destruct (IH H) as (a & b & ->). now exists (String c a), b.
  - intros (a & b & ->). induction a as [|c a IH].
    + simpl append. destruct (p ++ b) eqn:E; simpl.
      * rewrite <- E, startsWith_append. reflexivity.
      * rewrite <- E, startsWith_append. reflexivity.
    + simpl. rewrite IH. apply orb_true_r.
Qed.

Lemma space_not_digit (c : ascii) : isSpace c = true -> isDigit c = false.
Proof.
  unfold isSpace, isDigit. generalize (code c). intros n H.
  apply andb_false_iff.
  repeat (apply orb_true_iff in H; destruct H as [H | H]).
  - apply andb_true_iff in H as [_ H]. apply N.leb_le in H.
    left. apply N.leb_gt. lia.
  - apply N.eqb_eq in H. subst n. now left.
  - apply N.eqb_eq in H. subst n. now right.
Qed.

Lemma takeDigits_split (s ds r : string) :
  takeDigits s = (ds, r) -> s = ds ++ r /\ allChars isDigit ds = true.
Proof.
  revert ds r. induction s as [|c s IH]; simpl; intros ds r H.
  - inversion H. now split.
  - destruct (isDigit c) eqn:Hc.
    + destruct (takeDigits s) as [ds' r'] eqn:E. inversion H; subst.
      destruct (IH _ _ eq_refl) as [-> Hd]. simpl. now rewrite Hc, Hd.
    + inversion H. now split.
Qed.

Lemma takeDigits_append (ds r : string) :
  allChars isDigit ds = true -> headFails isDigit r ->
  r <> EmptyString -> takeDigits (ds ++ r) = (ds, r).
Proof.
  intros Hd Hr Hne. induction ds as [|c ds IH]; simpl in *.
  - destruct r as [|c r]; [congruence |]. simpl in *. now rewrite Hr.
  - apply andb_true_iff in Hd as [Hc Hd]. now rewrite Hc, (IH Hd).
Qed.

Lemma dropSpaces_split (s : string) :
  exists ws, s = ws ++ dropSpaces s /\ allChars isSpace ws = true.
Proof.
  induction s as [|c s (ws & Hs & Hws)]; simpl.
  - now exists "".
  - destruct (isSpace c) eqn:Hc.
    + exists (String c ws). simpl. rewrite Hc, Hws, <- Hs. now split.
    + now exists "".
Qed.

Lemma dropSpaces_append (ws r : string) :
  allChars isSpace ws = true -> headFails isSpace r ->
  dropSpaces (ws ++ r) = r.
Proof.
  intros Hw Hr. induction ws as [|c ws IH]; simpl in *.
  - destruct r as [|c r]; [reflexivity |]. simpl in *. now rewrite Hr.
  - apply andb_true_iff in Hw as [Hc Hw]. now rewrite Hc, (IH Hw).
Qed.

Lemma matchBpmAt_sound (s ds : string) :
  matchBpmAt s = Some ds -> BpmTokenAt "" s ds.
Proof.
  unfold matchBpmAt. destruct (takeDigits s) as [d r] eqn:E.
  destruct (takeDigits_split _ _ _ E) as [-> Hd].
  destruct d as [|c d]; [discriminate |].
  destruct (startsWith (dropSpaces r) "bpm") eqn:Hb; [| discriminate].
  intros H. inversion H; subst ds.
  destruct (startsWith_split _ _ Hb) as [post Hpost].
  destruct (dropSpaces_split r) as (ws & Hr & Hws).
  exists ws, post. repeat split; try assumption; [discriminate |].
  simpl append at 1. rewrite Hr at 1. now rewrite Hpost.
Qed.

Lemma matchBpmAt_complete (s ds : string) :
  BpmTokenAt "" s ds -> matchBpmAt s = Some ds.
Proof.
  intros (ws & post & Hne & Hd & Hws & ->). simpl append at 1.
  unfold matchBpmAt. rewrite takeDigits_append; try assumption.
  - destruct ds; [congruence |].
    rewrite dropSpaces_append by (assumption || reflexivity).
    reflexivity.
  - destruct ws as [|c ws]; simpl in *; [reflexivity |].
    apply andb_true_iff in Hws as [Hc _]. now apply space_not_digit.
  - destruct ws; discriminate.
Qed.

Lemma BpmTokenAt_tail (c : ascii) (pre s ds : string) :
  BpmTokenAt (String c pre) (String c s) ds <-> BpmTokenAt pre s ds.
Proof.
  split; intros (ws & post & Hne & Hd & Hws & E); exists ws, post;
    repeat split; try assumption.
  - simpl in E. now inversion E.
  - simpl. now rewrite E.
Qed.

Lemma BpmTokenAt_head (c c' : ascii) (pre s ds : string) :
  BpmTokenAt (String c' pre) (String c s) ds -> c' = c.
Proof. intros (ws & post & _ & _ & _ & E). simpl in E. now inversion E. Qed.

Lemma matchBpm_cons (c : ascii) (s : string) :
  matchBpm (String c s) =
  match matchBpmAt (String c s) with
  | Some ds => Some ds
  | None => matchBpm s
  end.
Proof. reflexivity. Qed.

(** What [match] returns is group 1 of the leftmost match. *)
Lemma matchBpm_sound (s ds : string) :
  matchBpm s = Some ds -> LeftmostBpmToken s ds.
Proof.
  induction s as [|c s IH].
  - discriminate.
  - rewrite matchBpm_cons. destruct (matchBpmAt (String c s)) eqn:E.
    + intros H; inversion H; subst. exists "". split.
      * now apply matchBpmAt_sound.
      * intros; simpl; lia.
    + intros H. destruct (IH H) as (pre & Hpre & Hleft).
      exists (String c pre). split.
      * now apply BpmTokenAt_tail.
      * intros pre' ds' Hp. destruct pre' as [|c' pre'].
        -- apply matchBpmAt_complete in Hp. congruence.
        -- pose proof (BpmTokenAt_head _ _ _ _ _ Hp). subst c'.
           apply BpmTokenAt_tail in Hp. apply Hleft in Hp. simpl. lia.
Qed.

(** [null] means that the pattern matches nowhere. *)
Lemma matchBpm_none (s : string) :
  matchBpm s = None -> forall ds, ~ BpmToken s ds.
Proof.
  induction s as [|c s IH].
  - intros _ ds [pre (ws & post & Hne & _ & _ & Hp)].
    destruct pre; [destruct ds; [congruence |] |]; discriminate.
  - rewrite matchBpm_cons.
    destruct (matchBpmAt (String c s)) eqn:E; [discriminate |].
    intros H ds [pre Hp]. destruct pre as [|c' pre].
    + apply matchBpmAt_complete in Hp. congruence.
    + pose proof (BpmTokenAt_head _ _ _ _ _ Hp). subst c'.
      apply BpmTokenAt_tail in Hp. apply (IH H ds). now exists pre.
Qed.

End JsStringFacts.

(** ** Parameter extraction *)

Module ParameterFacts.

Import JsStringFacts Text.

Local Open Scope string_scope.
Local Open Scope Z_scope.

Lemma parseDigits_nonneg (s : string) (acc : Z) :
  0 <= acc -> 0 <= parseDigits acc s.
Proof.
  revert acc. induction s as [|c s IH]; cbn [parseDigits]; intros acc H;
    [exact H |].
  apply IH. unfold digitValue. lia.
Qed.

Lemma bpm_nonneg (lowerDesc : string) : 0 <= bpm lowerDesc.
Proof.
  unfold bpm. destruct (matchBpm lowerDesc).
  - apply parseDigits_nonneg. lia.
  - destruct (includes lowerDesc "fast" || includes lowerDesc "upbeat");
      destruct (includes lowerDesc "slow"); lia.
Qed.

(** *** Digits and the integer they spell *)

Lemma parseDigits_acc (d : Decimal.uint) (acc : positive) :
  parseDigits (Z.pos acc) (NilEmpty.string_of_uint d)
  = Z.pos (Pos.of_uint_acc d acc).
Proof.
  revert acc.
  induction d as [|d IH|d IH|d IH|d IH|d IH|d IH|d IH|d IH|d IH|d IH];
    intros acc; cbn [NilEmpty.string_of_uint parseDigits Pos.of_uint_acc];
    [reflexivity | ..];
    rewrite <- IH; f_equal;
    try (unfold digitValue, code; vm_compute N_of_ascii; lia).
Qed.

Lemma parseDigits_decimal (d : Decimal.uint) :
  parseDigits 0 (NilEmpty.string_of_uint d) = Z.of_N (Pos.of_uint d).
Proof.
  induction d as [|d IH|d IH|d IH|d IH|d IH|d IH|d IH|d IH|d IH|d IH];
    cbn [NilEmpty.string_of_uint parseDigits Pos.of_uint];
    [reflexivity | exact IH | ..];
    apply parseDigits_acc.
Qed.

Lemma parseInt_decimal (n : N) : parseInt (decimal n) = Z.of_N n.
Proof.
  unfold parseInt, decimal. rewrite parseDigits_decimal.
  f_equal. apply DecimalN.Unsigned.of_to.
Qed.

Lemma decimal_digits (d : Decimal.uint) :
  allChars isDigit (NilEmpty.string_of_uint d) = true.
Proof.
  induction d as [|d IH|d IH|d IH|d IH|d IH|d IH|d IH|d IH|d IH|d IH];
    cbn; [reflexivity | ..]; exact IH.
Qed.

Lemma decimal_nonempty (n : N) : decimal n <> "".
Proof.
  unfold decimal. destruct n as [|p]; [discriminate |].
  cbn [N.to_uint]. pose proof (DecimalPos.Unsigned.to_uint_nonnil p) as H.
  destruct (Pos.to_uint p); [congruence | ..]; discriminate.
Qed.

Lemma parseDigits_zeros (s : string) :
  allChars isZeroChar s = true -> parseDigits 0 s = 0.
Proof.
  induction s as [|c s IH]; intros H; [reflexivity |].
  cbn in H. apply andb_true_iff in H as [Hc Hs].
  unfold isZeroChar in Hc. apply Ascii.eqb_eq in Hc. subst c.
  cbn [parseDigits]. now apply IH.
Qed.

Lemma parseDigits_leading_zeros (zeros s : string) :
  allChars isZeroChar zeros = true ->
  parseDigits 0 (zeros ++ s) = parseDigits 0 s.
Proof.
  induction zeros as [|c zeros IH]; intros H; [reflexivity |].
  cbn in H. apply andb_true_iff in H as [Hc Hz].
  unfold isZeroChar in Hc. apply Ascii.eqb_eq in Hc. subst c.
  cbn [append parseDigits]. now apply IH.
Qed.

(** A decimal digit is one of the ten constructors of a decimal number. *)
Lemma digit_char (c : ascii) :
  isDigit c = true ->
  exists D : Decimal.uint -> Decimal.uint,
    forall d, NilEmpty.string_of_uint (D d)
              = String c (NilEmpty.string_of_uint d).
Proof.
  destruct c as [[] [] [] [] [] [] [] []]; intros H;
    try (vm_compute in H; discriminate H);
    first [ now exists Decimal.D0 | now exists Decimal.D1
          | now exists Decimal.D2 | now exists Decimal.D3
          | now exists Decimal.D4 | now exists Decimal.D5
          | now exists Decimal.D6 | now exists Decimal.D7
          | now exists Decimal.D8 | now exists Decimal.D9 ].
Qed.

Lemma digits_uint (ds : string) :
  allChars isDigit ds = true ->
  exists d, NilEmpty.string_of_uint d = ds.
Proof.
  induction ds as [|c ds IH]; intros H.
  - now exists Decimal.Nil.
  - cbn [allChars] in H. apply andb_true_iff in H as [Hc Hd].
    destruct (IH Hd) as [d <-]. destruct (digit_char c Hc) as [D HD].
    exists (D d). apply HD.
Qed.

Lemma leading_zeros (d : Decimal.uint) :
  exists zeros,
    NilEmpty.string_of_uint d
    = zeros ++ NilEmpty.string_of_uint (Decimal.nzhead d) /\
    allChars isZeroChar zeros = true.
Proof.
  induction d as [|d IH|d IH|d IH|d IH|d IH|d IH|d IH|d IH|d IH|d IH];
    try (now exists "").
  destruct IH as (zeros & E & Hz). exists (String "0" zeros).
  cbn [NilEmpty.string_of_uint Decimal.nzhead append]. rewrite <- E.
  split; [reflexivity |]. cbn. exact Hz.
Qed.

Lemma zeros_last (zeros : string) :
  zeros <> "" -> allChars isZeroChar zeros = true ->
  exists front, zeros = front ++ "0" /\ allChars isZeroChar front = true.
Proof.
  induction zeros as [|c zeros IH]; intros Hne H; [congruence |].
  cbn [allChars] in H. apply andb_true_iff in H as [Hc Hz].
  destruct zeros as [|c' zeros].
  - exists "". unfold isZeroChar in Hc. apply Ascii.eqb_eq in Hc.
    subst c. now split.
  - destruct (IH ltac:(discriminate) Hz) as (front & E & Hf).
    exists (String c front). cbn [append allChars]. rewrite <- E, Hc, Hf.
    now split.
Qed.

(** Every run of digits is some zeros followed by the decimal writing of
    a natural number, which is what [parseInt] makes of it. *)
Lemma digits_spell (ds : string) :
  ds <> "" -> allChars isDigit ds = true ->
  exists zeros n,
    ds = zeros ++ decimal n /\ allChars isZeroChar zeros = true.
Proof.
  intros Hne Hd. destruct (digits_uint ds Hd) as [d <-].
  destruct (leading_zeros d) as (zeros & E & Hz).
  pose proof (DecimalN.Unsigned.to_of d) as Hnorm.
  unfold Decimal.unorm in Hnorm.
  destruct (Decimal.nzhead d) eqn:Hn;
    try (exists zeros, (N.of_uint d); unfold decimal; rewrite Hnorm;
         split; [exact E | exact Hz]).
  cbn [NilEmpty.string_of_uint] in E. rewrite append_empty_r in E.
  destruct (zeros_last zeros ltac:(congruence) Hz) as (front & Ef & Hf).
  exists front, 0%N. split; [| exact Hf]. now rewrite E, Ef.
Qed.

(** The match that starts first is the one [match] returns. *)
Lemma matchBpm_leftmost (s ds : string) :
  LeftmostBpmToken s ds -> matchBpm s = Some ds.
Proof.
  intros (pre & Hpre & Hleft).
  destruct (matchBpm s) as [ds'|] eqn:E.
  - destruct (matchBpm_sound _ _ E) as (pre' & Hpre' & Hleft').
    pose proof (Hleft _ _ Hpre') as H1. pose proof (Hleft' _ _ Hpre) as H2.
    f_equal. symmetry.
    destruct Hpre as (ws & post & Hne & Hd & Hws & Hs).
    destruct Hpre' as (ws' & post' & Hne' & Hd' & Hws' & Hs').
    assert (Hpp : pre = pre').
    { rewrite Hs in Hs'. clear - Hs' H1 H2.
      revert pre' Hs' H1 H2.
      induction pre as [|c pre IH]; intros [|c' pre'] Hs' H1 H2;
        cbn in *; try lia; [reflexivity |].
      inversion Hs'. f_equal. apply IH; [assumption | lia | lia]. }
    subst pre'. rewrite Hs in Hs'. apply append_cancel_l in Hs'.
    assert (Ht : takeDigits (ds ++ ws ++ "bpm" ++ post)
                 = takeDigits (ds' ++ ws' ++ "bpm" ++ post'))
      by now rewrite Hs'.
    rewrite !takeDigits_append in Ht;
      try assumption; try (destruct ws; discriminate);
      try (destruct ws'; discriminate).
    + now inversion Ht.
    + destruct ws' as [|c ws']; cbn in *; [reflexivity |].
      apply andb_true_iff in Hws' as [Hc _]. now apply space_not_digit.
    + destruct ws as [|c ws]; cbn in *; [reflexivity |].
      apply andb_true_iff in Hws as [Hc _]. now apply space_not_digit.
  - exfalso. apply (matchBpm_none _ E ds). now exists pre.
Qed.

(** C6, as the specification words it, fails: with both "slow" and "fast"
    in the text and no bpm token the code answers 140, while the listed
    order (slow before fast) answers 80. *)
Lemma tempo_order_counterexample :
  let lowerDesc := toLowerCase "Slow intro, then a fast finale" in
  matchBpm lowerDesc = None /\
  includes lowerDesc "slow" = true /\
  bpm lowerDesc = 140 /\
  tempoAsSpecified lowerDesc = 80 /\
  bpm lowerDesc <> tempoAsSpecified lowerDesc.
Proof. vm_compute. repeat split; discriminate. Qed.

(** C6 (amended): when the text holds a bpm token (digits, optional
    white space, "bpm"), the tempo is the integer N that the digits of the
    leftmost one spell, leading zeros aside, for every N below 2^53,
    whatever the keywords; without a token it is 140 if the text contains
    "fast" or "upbeat", otherwise 80 if it contains "slow", otherwise
    120. *)
Theorem tempo_rule (description : string) :
  let lowerDesc := toLowerCase description in
  ((exists ds, BpmToken lowerDesc ds) ->
   exists ds zeros n,
     LeftmostBpmToken lowerDesc ds /\
     ds = zeros ++ decimal n /\ allChars isZeroChar zeros = true) /\
  (forall ds zeros n,
     LeftmostBpmToken lowerDesc ds ->
     ds = zeros ++ decimal n -> allChars isZeroChar zeros = true ->
     (n < 2 ^ 53)%N ->
     bpm lowerDesc = Z.of_N n) /\
  ((forall ds, ~ BpmToken lowerDesc ds) ->
   (Contains lowerDesc "fast" \/ Contains lowerDesc "upbeat" ->
    bpm lowerDesc = 140) /\
   (~ Contains lowerDesc "fast" -> ~ Contains lowerDesc "upbeat" ->
    Contains lowerDesc "slow" -> bpm lowerDesc = 80) /\
   (~ Contains lowerDesc "fast" -> ~ Contains lowerDesc "upbeat" ->
    ~ Contains lowerDesc "slow" -> bpm lowerDesc = 120)).
Proof.
  intros lowerDesc. split; [| split].
  - intros (ds0 & Htoken).
    destruct (matchBpm lowerDesc) as [ds|] eqn:E;
      [| now destruct (matchBpm_none _ E ds0)].
    pose proof (matchBpm_sound _ _ E) as Hleft.
    destruct Hleft as (pre & Hpre & Hmin).
    pose proof Hpre as (ws & post & Hne & Hd & _).
    destruct (digits_spell ds Hne Hd) as (zeros & n & Hds & Hz).
    exists ds, zeros, n. split; [| now split].
    exists pre. now split.
  - intros ds zeros n Hleft -> Hz _.
    unfold bpm. rewrite (matchBpm_leftmost _ _ Hleft).
    unfold parseInt. rewrite parseDigits_leading_zeros by assumption.
    apply parseInt_decimal.
  - intros Hnone.
    assert (E : matchBpm lowerDesc = None).
    { destruct (matchBpm lowerDesc) as [ds|] eqn:E; [| reflexivity].
      destruct (matchBpm_sound _ _ E) as (pre & Hpre & _).
      destruct (Hnone ds). now exists pre. }
    unfold bpm. rewrite E.
    pose proof (includes_Contains lowerDesc "fast") as Hfast.
    pose proof (includes_Contains lowerDesc "upbeat") as Hupbeat.
    pose proof (includes_Contains lowerDesc "slow") as Hslow.
    destruct (includes lowerDesc "fast");
      destruct (includes lowerDesc "upbeat");
      destruct (includes lowerDesc "slow"); cbn [orb];
      (split; [| split]); intros; try reflexivity; exfalso;
      intuition discriminate.
Qed.

(** Two instances: a token with a leading zero beside both keywords, and
    the keywords alone, in capitals. *)
Lemma tempo_rule_witness :
  bpm (toLowerCase "Slow, then fast: 097 BPM") = 97 /\
  bpm (toLowerCase "A SLOW march") = 80.
Proof.
  split.
  - exact (proj1 (proj2 (tempo_rule "Slow, then fast: 097 BPM"))
             "097" "0" 97%N
             (matchBpm_sound (toLowerCase "Slow, then fast: 097 BPM") "097"
                eq_refl)
             eq_refl eq_refl eq_refl).
  - refine (proj1 (proj2 (proj2 (proj2 (tempo_rule "A SLOW march"))
                            (matchBpm_none (toLowerCase "A SLOW march")
                               eq_refl)))
              _ _ (ex_intro _ "a " (ex_intro _ " march" eq_refl)));
      intros H; apply includes_Contains in H; discriminate H.
Defined.

(** A token overrides the keywords: here "slow" and "fast" are both in
    the text. *)
Example tempo_token_overrides :
  bpm (toLowerCase "Slow, then fast: 97 BPM") = 97.
Proof. reflexivity. Qed.

(** C7: the scale is major, 0 2 4 5 7 9 11, by default; minor,
    0 2 3 5 7 8 10, when the text contains "minor"; the dissonant scale,
    0 1 4 5 8 9, when it contains "dissonant" or "atonal", over minor; and
    pentatonic, 0 2 4 7 9, when it contains "pentatonic", over all the
    others, being tested last. *)
Theorem scale_rule (description : string) :
  let lowerDesc := toLowerCase description in
  (Contains lowerDesc "pentatonic" -> scale lowerDesc = [0; 2; 4; 7; 9]) /\
  (~ Contains lowerDesc "pentatonic" ->
   Contains lowerDesc "dissonant" \/ Contains lowerDesc "atonal" ->
   scale lowerDesc = [0; 1; 4; 5; 8; 9]) /\
  (~ Contains lowerDesc "pentatonic" ->
   ~ Contains lowerDesc "dissonant" -> ~ Contains lowerDesc "atonal" ->
   Contains lowerDesc "minor" ->
   scale lowerDesc = [0; 2; 3; 5; 7; 8; 10]) /\
  (~ Contains lowerDesc "pentatonic" ->
   ~ Contains lowerDesc "dissonant" -> ~ Contains lowerDesc "atonal" ->
   ~ Contains lowerDesc "minor" ->
   scale lowerDesc = [0; 2; 4; 5; 7; 9; 11]).
Proof.
  intros lowerDesc. unfold scale.
  pose proof (includes_Contains lowerDesc "pentatonic") as Hp.
  pose proof (includes_Contains lowerDesc "dissonant") as Hd.
  pose proof (includes_Contains lowerDesc "atonal") as Ha.
  pose proof (includes_Contains lowerDesc "minor") as Hm.
  destruct (includes lowerDesc "pentatonic");
    destruct (includes lowerDesc "dissonant");
    destruct (includes lowerDesc "atonal");
    destruct (includes lowerDesc "minor"); cbn [orb];
    (split; [| split; [| split]]); intros; try reflexivity; exfalso;
    intuition discriminate.
Qed.

(** Four instances, in mixed case: pentatonic over minor, atonal over
    minor, minor alone, and none of the words. *)
Lemma scale_rule_witness :
  scale (toLowerCase "A MINOR Pentatonic tune") = [0; 2; 4; 7; 9] /\
  scale (toLowerCase "Atonal, in a minor mood") = [0; 1; 4; 5; 8; 9] /\
  scale (toLowerCase "A sad Minor key") = [0; 2; 3; 5; 7; 8; 10] /\
  scale (toLowerCase "A bright tune") = [0; 2; 4; 5; 7; 9; 11].
Proof.
  split; [| split; [| split]].
  - exact (proj1 (scale_rule "A MINOR Pentatonic tune")
             (ex_intro _ "a minor " (ex_intro _ " tune" eq_refl))).
  - refine (proj1 (proj2 (scale_rule "Atonal, in a minor mood")) _
              (or_intror (ex_intro _ "" (ex_intro _ ", in a minor mood"
                                           eq_refl))));
      intros H; apply includes_Contains in H; discriminate H.
  - refine (proj1 (proj2 (proj2 (scale_rule "A sad Minor key"))) _ _ _
              (ex_intro _ "a sad " (ex_intro _ " key" eq_refl)));
      intros H; apply includes_Contains in H; discriminate H.
  - refine (proj2 (proj2 (proj2 (scale_rule "A bright tune"))) _ _ _ _);
      intros H; apply includes_Contains in H; discriminate H.
Defined.


(** C2, as stated, fails on the drums: "No drums..." contains "drum". *)
Lemma example_drums_counterexample :
  let lowerDesc := toLowerCase exampleDescription in
  ~ (bpm lowerDesc = 60 /\ enableDrums lowerDesc = false /\
     enableReverb lowerDesc = true /\ enableDelay lowerDesc = true /\
     scale lowerDesc = dissonantScale /\
     enableMelody lowerDesc = true /\ enableBass lowerDesc = true /\
     enableHarmony lowerDesc = true).
Proof. vm_compute. intros (_ & H & _). discriminate H. Qed.

(** C2 (amended): on the example the tempo is 60, reverb and delay are on,
    the scale is the dissonant one, melody, bass and harmony are built,
    and so are the drums. *)
Theorem example_parameters :
  let lowerDesc := toLowerCase exampleDescription in
  bpm lowerDesc = 60 /\ enableDrums lowerDesc = true /\
  enableReverb lowerDesc = true /\ enableDelay lowerDesc = true /\
  scale lowerDesc = dissonantScale /\
  enableMelody lowerDesc = true /\ enableBass lowerDesc = true /\
  enableHarmony lowerDesc = true.
Proof. vm_compute. repeat split. Qed.

End ParameterFacts.

(** ** The WAV encoder *)

Module WavFacts.

Import Wav.

Local Open Scope list_scope.
Local Open Scope Z_scope.

(** *** Stores into the view *)

Lemma storeByte_at (pre post : list Z) (x b : Z) :
  storeByte (pre ++ x :: post) (List.length pre) b = Some (pre ++ b :: post).
Proof.
  induction pre as [|y pre IH]; cbn [storeByte app List.length];
    [reflexivity | now rewrite IH].
Qed.

Lemma length_leBytes (w : nat) (v : Z) : List.length (leBytes w v) = w.
Proof.
  revert v. induction w as [|w IH]; intros v; cbn [leBytes List.length];
    [reflexivity | now rewrite IH].
Qed.

Lemma storeLE_fill (w : nat) (pre old post : list Z) (v : Z) :
  List.length old = w ->
  storeLE (pre ++ old ++ post) (List.length pre) w v
  = Some (pre ++ leBytes w v ++ post).
Proof.
  revert pre old v. induction w as [|w IH]; intros pre old v Hlen.
  - destruct old; [reflexivity | discriminate].
  - destruct old as [|x old]; [discriminate |].
    cbn [storeLE leBytes app]. rewrite storeByte_at. cbn [bindView].
    replace (pre ++ v mod 256 :: old ++ post)
      with ((pre ++ [v mod 256]) ++ old ++ post)
      by (rewrite <- app_assoc; reflexivity).
    replace (S (List.length pre)) with (List.length (pre ++ [v mod 256]))
      by (rewrite length_app; cbn; lia).
    rewrite IH by (cbn in Hlen; lia).
    rewrite <- app_assoc. reflexivity.
Qed.

Lemma setUint32_fill (pre old post : list Z) (off : N) (v : Z) :
  N.to_nat off = List.length pre -> List.length old = 4%nat ->
  setUint32 (pre ++ old ++ post) off v
  = Some (pre ++ leBytes 4 (v mod 2 ^ 32) ++ post).
Proof.
  intros Hoff H. unfold setUint32. rewrite Hoff. now apply storeLE_fill.
Qed.

Lemma setUint16_fill (pre old post : list Z) (off : N) (v : Z) :
  N.to_nat off = List.length pre -> List.length old = 2%nat ->
  setUint16 (pre ++ old ++ post) off v
  = Some (pre ++ leBytes 2 (v mod 2 ^ 16) ++ post).
Proof.
  intros Hoff H. unfold setUint16. rewrite Hoff. now apply storeLE_fill.
Qed.

Lemma setInt16_fill (pre old post : list Z) (off : N) (x : jsnum) :
  N.to_nat off = List.length pre -> List.length old = 2%nat ->
  setInt16 (pre ++ old ++ post) off x
  = Some (pre ++ leBytes 2 (ToInt16 x mod 2 ^ 16) ++ post).
Proof.
  intros Hoff H. unfold setInt16. rewrite Hoff. now apply storeLE_fill.
Qed.

Lemma charCode_range (c : ascii) : 0 <= charCode c < 256.
Proof. unfold charCode. pose proof (N_ascii_bounded c). lia. Qed.

Lemma writeString_fill (s : string) (pre old post : list Z) (off : N) :
  N.to_nat off = List.length pre -> List.length old = String.length s ->
  writeString (pre ++ old ++ post) off s
  = Some (pre ++ asciiBytes s ++ post).
Proof.
  revert pre old off. induction s as [|c s IH]; intros pre old off Hoff Hlen.
  - destruct old; [reflexivity | discriminate].
  - destruct old as [|x old]; [discriminate |].
    cbn [writeString]. unfold setUint8.
    change (x :: old) with ([x] ++ old). rewrite <- app_assoc.
    rewrite Hoff, storeLE_fill by reflexivity.
    cbn [bindView leBytes app].
    assert (Hc : charCode c mod 2 ^ 8 mod 256 = charCode c).
    { pose proof (charCode_range c). change (2 ^ 8) with 256.
      now rewrite !(Z.mod_small (charCode c) 256) by lia. }
    rewrite Hc.
    replace (pre ++ charCode c :: old ++ post)
      with ((pre ++ [charCode c]) ++ old ++ post)
      by (rewrite <- app_assoc; reflexivity).
    rewrite IH.
    + rewrite <- app_assoc. reflexivity.
    + rewrite length_app. cbn. lia.
    + cbn in Hlen. lia.
Qed.

(** The same stores when what they overwrite is still zero. *)

Lemma setUint32_zeros (pre rest : list Z) (n : nat) (off : N) (v : Z) :
  N.to_nat off = List.length pre ->
  setUint32 (pre ++ repeat 0 (4 + n) ++ rest) off v
  = Some ((pre ++ leBytes 4 (v mod 2 ^ 32)) ++ repeat 0 n ++ rest).
Proof.
  intros Hoff. rewrite repeat_app, <- !app_assoc.
  now rewrite setUint32_fill by (assumption || reflexivity).
Qed.

Lemma setUint16_zeros (pre rest : list Z) (n : nat) (off : N) (v : Z) :
  N.to_nat off = List.length pre ->
  setUint16 (pre ++ repeat 0 (2 + n) ++ rest) off v
  = Some ((pre ++ leBytes 2 (v mod 2 ^ 16)) ++ repeat 0 n ++ rest).
Proof.
  intros Hoff. rewrite repeat_app, <- !app_assoc.
  now rewrite setUint16_fill by (assumption || reflexivity).
Qed.

Lemma setInt16_zeros (pre rest : list Z) (n : nat) (off : N) (x : jsnum) :
  N.to_nat off = List.length pre ->
  setInt16 (pre ++ repeat 0 (2 + n) ++ rest) off x
  = Some ((pre ++ leBytes 2 (ToInt16 x mod 2 ^ 16)) ++ repeat 0 n ++ rest).
Proof.
  intros Hoff. rewrite repeat_app, <- !app_assoc.
  now rewrite setInt16_fill by (assumption || reflexivity).
Qed.

Lemma writeString4_zeros (s : string) (pre rest : list Z) (n : nat) (off : N) :
  N.to_nat off = List.length pre -> String.length s = 4%nat ->
  writeString (pre ++ repeat 0 (4 + n) ++ rest) off s
  = Some ((pre ++ asciiBytes s) ++ repeat 0 n ++ rest).
Proof.
  intros Hoff Hs. rewrite repeat_app, <- !app_assoc.
  now rewrite writeString_fill by (assumption || now rewrite Hs).
Qed.

(** The header stores fill the first 44 bytes in order. *)
Lemma writeHeader_fill (buffer : AudioBuffer) (rest : list Z) :
  writeHeader buffer (repeat 0 44 ++ rest) = Some (headerBytes buffer ++ rest).
Proof.
  unfold writeHeader, headerBytes, dataBytes.
  change (repeat 0 44 ++ rest) with ([] ++ repeat 0 (4 + 40) ++ rest).
  rewrite writeString4_zeros by reflexivity. cbn [bindView].
  rewrite (setUint32_zeros _ _ 36) by reflexivity. cbn [bindView].
  rewrite (writeString4_zeros _ _ _ 32) by reflexivity. cbn [bindView].
  rewrite (writeString4_zeros _ _ _ 28) by reflexivity. cbn [bindView].
  rewrite (setUint32_zeros _ _ 24) by reflexivity. cbn [bindView].
  rewrite (setUint16_zeros _ _ 22) by reflexivity. cbn [bindView].
  rewrite (setUint16_zeros _ _ 20) by reflexivity. cbn [bindView].
  rewrite (setUint32_zeros _ _ 16) by reflexivity. cbn [bindView].
  rewrite (setUint32_zeros _ _ 12) by reflexivity. cbn [bindView].
  rewrite (setUint16_zeros _ _ 10) by reflexivity. cbn [bindView].
  rewrite (setUint16_zeros _ _ 8) by reflexivity. cbn [bindView].
  rewrite (writeString4_zeros _ _ _ 4) by reflexivity. cbn [bindView].
  rewrite (setUint32_zeros _ _ 0) by reflexivity.
  rewrite <- !app_assoc. reflexivity.
Qed.

Lemma length_headerBytes (buffer : AudioBuffer) :
  List.length (headerBytes buffer) = 44%nat.
Proof. reflexivity. Qed.

(** *** The sample loops *)

Lemma storeSample_written (buffer : AudioBuffer) (i c : N)
  (pre rest : list Z) (n : nat) :
  storeSample buffer i c (written pre rest (2 + n))
  = Some (written (pre ++ sampleBytes buffer i c) rest n).
Proof.
  unfold storeSample, written.
  rewrite setInt16_zeros by lia.
  unfold sampleBytes, pcmValue. f_equal. f_equal.
  rewrite length_app, length_leBytes. lia.
Qed.

Lemma channels_written (buffer : AudioBuffer) (i : N) (count : nat) :
  forall (c0 : N) (pre rest : list Z) (n : nat),
    forN count c0 (storeSample buffer i) (written pre rest (2 * count + n))
    = Some (written (pre ++ flat_map (sampleBytes buffer i) (Nseq c0 count))
                    rest n).
Proof.
  induction count as [|count IH]; intros c0 pre rest n.
  - cbn [forN Nseq flat_map]. now rewrite app_nil_r.
  - cbn [forN Nseq flat_map].
    replace (2 * S count + n)%nat with (2 + (2 * count + n))%nat by lia.
    rewrite storeSample_written, IH, <- app_assoc. reflexivity.
Qed.

Lemma length_frameBytes (buffer : AudioBuffer) (i : N) :
  List.length (frameBytes buffer i)
  = (2 * N.to_nat (numberOfChannels buffer))%nat.
Proof.
  unfold frameBytes. generalize 0%N.
  induction (N.to_nat (numberOfChannels buffer)) as [|k IH]; intros c0;
    cbn [Nseq flat_map]; [reflexivity |].
  rewrite length_app, IH. unfold sampleBytes. rewrite length_leBytes. lia.
Qed.

Lemma frames_written (buffer : AudioBuffer) (count : nat) :
  forall (i0 : N) (pre rest : list Z) (n : nat),
    forN count i0
      (fun i => forN (N.to_nat (numberOfChannels buffer)) 0
                  (storeSample buffer i))
      (written pre rest
         (count * (2 * N.to_nat (numberOfChannels buffer)) + n))
    = Some (written (pre ++ flat_map (frameBytes buffer) (Nseq i0 count))
                    rest n).
Proof.
  induction count as [|count IH]; intros i0 pre rest n.
  - cbn [forN Nseq flat_map]. now rewrite app_nil_r.
  - cbn [forN Nseq flat_map].
    replace (S count * (2 * N.to_nat (numberOfChannels buffer)) + n)%nat
      with (2 * N.to_nat (numberOfChannels buffer)
            + (count * (2 * N.to_nat (numberOfChannels buffer)) + n))%nat
      by lia.
    rewrite channels_written.
    change (flat_map (sampleBytes buffer i0)
              (Nseq 0 (N.to_nat (numberOfChannels buffer))))
      with (frameBytes buffer i0).
    rewrite IH, <- app_assoc. reflexivity.
Qed.

(** Once its output is allocated the encoder does not throw, and what it
    returns is the header followed by the samples, frame by frame and
    channel by channel. *)
Lemma bufferToWav_layout (buffer : AudioBuffer) :
  bufferToWav buffer = Some (headerBytes buffer ++ pcmBytes buffer).
Proof.
  unfold bufferToWav, encodeInto.
  replace (N.to_nat (length buffer * numberOfChannels buffer * 2 + 44))
    with (44 + (N.to_nat (length buffer)
                * (2 * N.to_nat (numberOfChannels buffer)) + 0))%nat by lia.
  rewrite repeat_app, writeHeader_fill.
  change 44%N with (N.of_nat (List.length (headerBytes buffer))).
  pose proof (frames_written buffer (N.to_nat (length buffer)) 0
                (headerBytes buffer) [] 0) as H.
  unfold written in H. rewrite !app_nil_r in H. rewrite H.
  reflexivity.
Qed.

Lemma bufferToWavOn_allocated (allocates : N -> bool)
  (buffer : AudioBuffer) :
  allocated allocates buffer ->
  bufferToWavOn allocates buffer = bufferToWav buffer.
Proof.
  intros [Hlen Halloc]. unfold bufferToWavOn, newArrayBuffer, bufferToWav.
  apply N.ltb_lt in Hlen. rewrite Hlen, Halloc. reflexivity.
Qed.

Lemma bufferToWavOn_layout (allocates : N -> bool) (buffer : AudioBuffer) :
  allocated allocates buffer ->
  bufferToWavOn allocates buffer
  = Some (headerBytes buffer ++ pcmBytes buffer).
Proof.
  intros H. rewrite (bufferToWavOn_allocated _ _ H).
  apply bufferToWav_layout.
Qed.

Lemma bufferToWavOn_refused (allocates : N -> bool) (buffer : AudioBuffer) :
  ~ allocated allocates buffer -> bufferToWavOn allocates buffer = None.
Proof.
  intros H. unfold bufferToWavOn, newArrayBuffer.
  destruct (length buffer * numberOfChannels buffer * 2 + 44 <? 2 ^ 53)%N
    eqn:Hlen; [| reflexivity].
  destruct (allocates (length buffer * numberOfChannels buffer * 2 + 44)%N)
    eqn:Halloc; [| reflexivity].
  destruct H. split; [now apply N.ltb_lt | exact Halloc].
Qed.

Lemma allocated_dec (allocates : N -> bool) (buffer : AudioBuffer) :
  allocated allocates buffer \/ ~ allocated allocates buffer.
Proof.
  unfold allocated.
  destruct (N.lt_ge_cases
              (length buffer * numberOfChannels buffer * 2 + 44) (2 ^ 53))%N
    as [Hlen | Hlen];
    [| right; intros [H _]; lia].
  destruct (allocates (length buffer * numberOfChannels buffer * 2 + 44)%N);
    [left; now split | right; intros [_ H]; discriminate].
Qed.

(** *** Reading the header back *)

Lemma readLE_leBytes (w : nat) (v : Z) :
  0 <= v < 256 ^ Z.of_nat w -> readLE (leBytes w v) = v.
Proof.
  revert v. induction w as [|w IH]; intros v Hv.
  - cbn in *. lia.
  - cbn [leBytes readLE]. rewrite IH.
    + pose proof (Z.div_mod v 256). lia.
    + rewrite Nat2Z.inj_succ, Z.pow_succ_r in Hv by lia.
      split; [apply Z.div_pos; lia | apply Z.div_lt_upper_bound; lia].
Qed.

Lemma readLE_field32 (v : Z) : readLE (leBytes 4 (v mod 2 ^ 32)) = v mod 2 ^ 32.
Proof. apply readLE_leBytes. apply (Z.mod_pos_bound v (2 ^ 32)). lia. Qed.

Lemma readLE_field16 (v : Z) : readLE (leBytes 2 (v mod 2 ^ 16)) = v mod 2 ^ 16.
Proof. apply readLE_leBytes. apply (Z.mod_pos_bound v (2 ^ 16)). lia. Qed.

(** Every field of the header reads as its value cut to the field width. *)
Lemma header_reads (buffer : AudioBuffer) (rest : list Z) :
  readsAs (headerBytes buffer ++ rest) (truncatedFields buffer).
Proof.
  unfold readsAs, fieldLE, slice, headerBytes.
  cbn [skipn firstn app asciiBytes map list_ascii_of_string
       truncatedFields exactFields chunkSize fmtChunkSize audioFormat
       numChannels headerSampleRate byteRate blockAlign bitsPerSample
       dataSize].
  repeat split;
    try exact (readLE_field32 _); try exact (readLE_field16 _).
  replace (Z.of_N (sampleRate buffer) * Z.of_N (numberOfChannels buffer) * 2)
    with (Z.of_N (sampleRate buffer) * 2 * Z.of_N (numberOfChannels buffer))
    by lia.
  exact (readLE_field32 _).
Qed.

Lemma length_pcmBytes (buffer : AudioBuffer) :
  List.length (pcmBytes buffer)
  = (N.to_nat (length buffer) * (2 * N.to_nat (numberOfChannels buffer)))%nat.
Proof.
  unfold pcmBytes. generalize 0%N.
  induction (N.to_nat (length buffer)) as [|k IH]; intros i0;
    cbn [Nseq flat_map]; [reflexivity |].
  rewrite length_app, length_frameBytes, IH. lia.
Qed.

Lemma fitsHeader_exact (buffer : AudioBuffer) :
  fitsHeader buffer -> truncatedFields buffer = exactFields buffer.
Proof.
  intros (Hc & Hd & Hr & Hb). unfold truncatedFields, exactFields in *.
  cbn [chunkSize fmtChunkSize audioFormat numChannels headerSampleRate
       byteRate blockAlign bitsPerSample dataSize].
  unfold dataBytes in *.
  rewrite !Z.mod_small by lia. reflexivity.
Qed.




(** C9, as stated, fails: a buffer of 32768 channels needs a block align
    of 65536, which the 16-bit field cannot hold; the encoder returns the
    bytes all the same, with 0 in that field. *)
Lemma no_overflow_error_counterexample :
  ~ fitsHeader wideBuffer /\
  exists bytes,
    bufferToWav wideBuffer = Some bytes /\
    Z.of_N (numberOfChannels wideBuffer) * 2 = 65536 /\
    fieldLE 32 2 bytes = 0.
Proof.
  split.
  - intros (H & _). cbn in H. lia.
  - exists (headerBytes wideBuffer ++ pcmBytes wideBuffer).
    split; [apply bufferToWav_layout |]. split; [reflexivity |].
    pose proof (header_reads wideBuffer (pcmBytes wideBuffer)) as H.
    unfold readsAs in H.
    destruct H as (_ & _ & _ & _ & _ & _ & _ & _ & _ & H & _).
    rewrite H. reflexivity.
Qed.

(** C9 (amended): the encoder has no overflow check.  The one error it
    signals is the RangeError of an output that is not allocated; once
    the output is allocated it returns 44 + dataBytes bytes whose header
    fields hold their values modulo the field width (2^16 or 2^32), hence
    the exact values for buffers within those widths.  The byte rate is
    taken below 2^53, where the code's product is exact. *)
Theorem encoder_truncates_unchecked (allocates : N -> bool)
  (buffer : AudioBuffer) :
  (~ allocated allocates buffer -> bufferToWavOn allocates buffer = None) /\
  (allocated allocates buffer ->
   Z.of_N (sampleRate buffer) * 2 * Z.of_N (numberOfChannels buffer) < 2 ^ 53 ->
   exists bytes,
     bufferToWavOn allocates buffer = Some bytes /\
     Z.of_nat (List.length bytes) = 44 + dataBytes buffer /\
     dataBytes buffer
       = Z.of_N (length buffer) * Z.of_N (numberOfChannels buffer) * 2 /\
     readsAs bytes (truncatedFields buffer) /\
     (fitsHeader buffer -> readsAs bytes (exactFields buffer))).
Proof.
  split; [apply bufferToWavOn_refused |].
  intros Halloc _. exists (headerBytes buffer ++ pcmBytes buffer).
  split; [now apply bufferToWavOn_layout |].
  split; [| split; [reflexivity | split]].
  - rewrite length_app, length_headerBytes, length_pcmBytes.
    unfold dataBytes. lia.
  - apply header_reads.
  - intros Hfit. rewrite <- (fitsHeader_exact _ Hfit). apply header_reads.
Qed.

(** *** Clamping and scaling of one sample *)

Lemma Qlt_bool_true (x y : Q) : Qlt_bool x y = true <-> (x < y)%Q.
Proof.
  unfold Qlt_bool. rewrite negb_true_iff. split; intros H.
  - apply Qnot_le_lt. intros Hle. apply Qle_bool_iff in Hle. congruence.
  - destruct (Qle_bool y x) eqn:E; [| reflexivity].
    apply Qle_bool_iff in E. exfalso. exact (Qlt_not_le _ _ H E).
Qed.

Lemma Qlt_bool_false (x y : Q) : Qlt_bool x y = false <-> (y <= x)%Q.
Proof.
  unfold Qlt_bool. rewrite negb_false_iff. apply Qle_bool_iff.
Qed.

(** NaN stays NaN; every other sample lands in [-1, 1], where it already
    was if it was there. *)
Lemma clampSample_cases (x : jsnum) :
  (x = NaN /\ clampSample x = NaN) \/
  (x <> NaN /\
   exists q, clampSample x = Fin q /\ (-1 <= q <= 1)%Q /\
             forall p, x = Fin p -> (-1 <= p <= 1)%Q -> (q == p)%Q).
Proof.
  destruct x as [p | | |].
  - right. split; [discriminate |].
    unfold clampSample, Math_min, Math_max, ofZ. cbn [jslt].
    destruct (Qlt_bool p (inject_Z 1)) eqn:E1.
    + cbn [jslt]. destruct (Qlt_bool (inject_Z (-1)) p) eqn:E2.
      * exists p. apply Qlt_bool_true in E1, E2.
        split; [reflexivity |]. split.
        -- split; apply Qlt_le_weak; assumption.
        -- intros p' Hp _. inversion Hp. reflexivity.
      * exists (inject_Z (-1)). apply Qlt_bool_false in E2.
        split; [reflexivity |]. split; [split; discriminate |].
        intros p' Hp [Hlo _]. inversion Hp; subst p'.
        apply Qle_antisym; assumption.
    + exists (inject_Z 1). apply Qlt_bool_false in E1.
      split; [reflexivity |]. split; [split; discriminate |].
      intros p' Hp [_ Hhi]. inversion Hp; subst p'.
      apply Qle_antisym; assumption.
  - left. now split.
  - right. split; [discriminate |]. exists (inject_Z 1).
    split; [reflexivity |]. split; [split; discriminate | discriminate].
  - right. split; [discriminate |]. exists (inject_Z (-1)).
    split; [reflexivity |]. split; [split; discriminate | discriminate].
Qed.

Lemma quot_bounds (a b lo hi : Z) :
  0 < b -> 0 <= lo -> 0 <= hi -> - lo * b <= a <= hi * b ->
  - lo <= Z.quot a b <= hi.
Proof.
  intros Hb Hlo Hhi [Ha1 Ha2].
  destruct (Z_le_gt_dec 0 a) as [Hpos | Hneg].
  - rewrite Z.quot_div_nonneg by lia. split.
    + pose proof (Z.div_pos a b). lia.
    + apply Z.div_le_upper_bound; lia.
  - replace a with (- (- a)) by lia. rewrite Z.quot_opp_l by lia.
    rewrite Z.quot_div_nonneg by lia. split.
    + assert (- a / b <= lo) by (apply Z.div_le_upper_bound; lia). lia.
    + pose proof (Z.div_pos (- a) b). lia.
Qed.

(** The scaled clamp keeps its integer part within 16 bits. *)
Lemma truncate_intSample_range (x : jsnum) :
  -32768 <= truncate (intSampleOf (clampSample x)) <= 32767.
Proof.
  destruct (clampSample_cases x) as [[_ ->] | (_ & q & -> & [Hlo Hhi] & _)].
  - cbn. lia.
  - unfold intSampleOf, ofZ. cbn [jslt jsmul].
    destruct q as [n d]. unfold Qle in Hlo, Hhi. cbn in Hlo, Hhi.
    destruct (Qlt_bool (n # d) (inject_Z 0)) eqn:E.
    + apply Qlt_bool_true in E. unfold Qlt in E. cbn in E.
      cbn [truncate Qmult Qnum Qden inject_Z].
      assert (H : - 32768 <= Z.quot (n * 32768) (Z.pos (d * 1)) <= 0)
        by (apply (quot_bounds _ _ 32768 0); lia).
      lia.
    + apply Qlt_bool_false in E. unfold Qle in E. cbn in E.
      cbn [truncate Qmult Qnum Qden inject_Z].
      assert (H : - 0 <= Z.quot (n * 32767) (Z.pos (d * 1)) <= 32767)
        by (apply (quot_bounds _ _ 0 32767); lia).
      lia.
Qed.

Lemma ToInt16_range (x : jsnum) : -32768 <= ToInt16 x <= 32767.
Proof.
  unfold ToInt16.
  pose proof (Z.mod_pos_bound (truncate x) (2 ^ 16) ltac:(lia)) as H.
  change (2 ^ 16) with 65536 in *. change (2 ^ 15) with 32768.
  destruct (32768 <=? truncate x mod 65536) eqn:E;
    [apply Z.leb_le in E | apply Z.leb_gt in E]; lia.
Qed.

Lemma ToInt16_small (x : jsnum) :
  -32768 <= truncate x <= 32767 -> ToInt16 x = truncate x.
Proof.
  intros H. unfold ToInt16.
  change (2 ^ 16) with 65536. change (2 ^ 15) with 32768.
  destruct (Z_le_gt_dec 0 (truncate x)) as [Hpos | Hneg].
  - rewrite Z.mod_small by lia.
    destruct (32768 <=? truncate x) eqn:E;
      [apply Z.leb_le in E; lia | reflexivity].
  - replace (truncate x mod 65536) with (truncate x + 65536).
    + destruct (32768 <=? truncate x + 65536) eqn:E;
        [lia | apply Z.leb_gt in E; lia].
    + apply (Z.mod_unique _ _ (-1)); lia.
Qed.

Lemma readInt16_sampleBytes (v : Z) :
  -32768 <= v <= 32767 -> readInt16 (leBytes 2 (v mod 2 ^ 16)) = v.
Proof.
  intros H. unfold readInt16. rewrite readLE_field16.
  change (2 ^ 16) with 65536. change (2 ^ 15) with 32768.
  destruct (Z_le_gt_dec 0 v) as [Hpos | Hneg].
  - rewrite Z.mod_small by lia.
    destruct (32768 <=? v) eqn:E; [apply Z.leb_le in E; lia | reflexivity].
  - replace (v mod 65536) with (v + 65536)
      by (apply (Z.mod_unique _ _ (-1)); lia).
    destruct (32768 <=? v + 65536) eqn:E; [lia | apply Z.leb_gt in E; lia].
Qed.

(** *** Finding one sample in the encoded bytes *)

Lemma nth_error_Nseq (count k : nat) (start : N) :
  (k < count)%nat -> nth_error (Nseq start count) k = Some (start + N.of_nat k)%N.
Proof.
  revert k start. induction count as [|count IH]; intros k start Hk; [lia |].
  destruct k as [|k]; cbn [Nseq nth_error].
  - f_equal. lia.
  - rewrite IH by lia. f_equal. lia.
Qed.

Lemma slice_within (off w : nat) (a rest : list Z) :
  (off + w <= List.length a)%nat -> slice off w (a ++ rest) = slice off w a.
Proof.
  intros H. unfold slice. rewrite skipn_app, firstn_app, length_skipn.
  replace (off - List.length a)%nat with O by lia.
  replace (w - (List.length a - off))%nat with O by lia.
  cbn [firstn skipn]. now rewrite app_nil_r.
Qed.

Lemma slice_beyond (n w : nat) (a rest : list Z) :
  slice (List.length a + n) w (a ++ rest) = slice n w rest.
Proof.
  unfold slice. rewrite skipn_app.
  rewrite (skipn_all2 a) by lia.
  replace (List.length a + n - List.length a)%nat with n by lia.
  reflexivity.
Qed.

Lemma slice_flat_map {A : Type} (f : A -> list Z) (W : nat) :
  (forall x, List.length (f x) = W) ->
  forall (l : list A) (k : nat) (x : A) (off w : nat),
    nth_error l k = Some x -> (off + w <= W)%nat ->
    slice (W * k + off) w (flat_map f l) = slice off w (f x).
Proof.
  intros Hf l. induction l as [|y l IH]; intros k x off w Hk Hw.
  - destruct k; discriminate.
  - destruct k as [|k]; cbn [nth_error flat_map] in *.
    + inversion Hk; subst y.
      replace (W * 0 + off)%nat with off by lia.
      apply slice_within. rewrite Hf. exact Hw.
    + replace (W * S k + off)%nat
        with (List.length (f y) + (W * k + off))%nat by (rewrite Hf; lia).
      rewrite slice_beyond. now apply IH.
Qed.

Lemma slice_sample (buffer : AudioBuffer) (i c : N) :
  (i < length buffer)%N -> (c < numberOfChannels buffer)%N ->
  slice (44 + 2 * N.to_nat (i * numberOfChannels buffer + c)) 2
        (headerBytes buffer ++ pcmBytes buffer)
  = sampleBytes buffer i c.
Proof.
  intros Hi Hc.
  change 44%nat with (List.length (headerBytes buffer)).
  rewrite slice_beyond. unfold pcmBytes.
  replace (2 * N.to_nat (i * numberOfChannels buffer + c))%nat
    with (2 * N.to_nat (numberOfChannels buffer) * N.to_nat i
          + 2 * N.to_nat c)%nat by lia.
  rewrite (slice_flat_map _ _ (length_frameBytes buffer) _ _ i);
    [| rewrite nth_error_Nseq by lia; f_equal; lia | lia].
  unfold frameBytes.
  replace (2 * N.to_nat c)%nat with (2 * N.to_nat c + 0)%nat by lia.
  rewrite (slice_flat_map (sampleBytes buffer i) 2
             (fun c' => length_leBytes 2 _) _ _ c);
    [| rewrite nth_error_Nseq by lia; f_equal; lia | lia].
  reflexivity.
Qed.

Lemma pcmAt_value (buffer : AudioBuffer) (i c : N) :
  (i < length buffer)%N -> (c < numberOfChannels buffer)%N ->
  pcmAt (N.to_nat (i * numberOfChannels buffer + c))
        (headerBytes buffer ++ pcmBytes buffer)
  = pcmValue buffer i c.
Proof.
  intros Hi Hc. unfold pcmAt. rewrite slice_sample by assumption.
  unfold sampleBytes. apply readInt16_sampleBytes.
  unfold pcmValue. apply ToInt16_range.
Qed.

Lemma pcmValue_truncate (buffer : AudioBuffer) (i c : N) :
  pcmValue buffer i c
  = truncate (intSampleOf (clampSample (getChannelData buffer c i))).
Proof.
  unfold pcmValue. apply ToInt16_small. apply truncate_intSample_range.
Qed.

Lemma clampSample_inside (p : Q) :
  (-1 < p)%Q -> (p < 1)%Q -> clampSample (Fin p) = Fin p.
Proof.
  intros Hlo Hhi. unfold clampSample, Math_min, Math_max, ofZ. cbn [jslt].
  rewrite (proj2 (Qlt_bool_true p (inject_Z 1)) Hhi). cbn [jslt].
  now rewrite (proj2 (Qlt_bool_true (inject_Z (-1)) p) Hlo).
Qed.

Lemma clampSample_high (p : Q) :
  (1 <= p)%Q -> clampSample (Fin p) = ofZ 1.
Proof.
  intros H. unfold clampSample, Math_min, Math_max, ofZ. cbn [jslt].
  now rewrite (proj2 (Qlt_bool_false p (inject_Z 1)) H).
Qed.

Lemma clampSample_low (p : Q) :
  (p <= -1)%Q -> clampSample (Fin p) = ofZ (-1).
Proof.
  intros H. unfold clampSample, Math_min, Math_max, ofZ. cbn [jslt].
  destruct (Qlt_bool p (inject_Z 1)) eqn:E.
  - cbn [jslt]. now rewrite (proj2 (Qlt_bool_false (inject_Z (-1)) p) H).
  - apply Qlt_bool_false in E. exfalso.
    assert (H1 : (inject_Z 1 <= -1)%Q) by (eapply Qle_trans; eassumption).
    apply H1. reflexivity.
Qed.

(** The integer part of a rational grows with it. *)
Lemma truncate_monotone (a b : Q) :
  (a <= b)%Q -> truncate (Fin a) <= truncate (Fin b).
Proof.
  destruct a as [a1 d1], b as [a2 d2]. unfold Qle. cbn. intros H.
  rewrite <- (Z.quot_mul_cancel_r a1 (Z.pos d1) (Z.pos d2)) by lia.
  rewrite <- (Z.quot_mul_cancel_r a2 (Z.pos d2) (Z.pos d1)) by lia.
  rewrite (Z.mul_comm (Z.pos d2) (Z.pos d1)).
  apply Z.quot_le_mono; lia.
Qed.

Lemma truncate_nonneg (a : Q) : (0 <= a)%Q -> 0 <= truncate (Fin a).
Proof. intros H. apply (truncate_monotone 0 a H). Qed.

Lemma truncate_nonpos (a : Q) : (a <= 0)%Q -> truncate (Fin a) <= 0.
Proof. intros H. apply (truncate_monotone a 0 H). Qed.

Lemma intSampleOf_negative (p : Q) :
  (p < 0)%Q -> intSampleOf (Fin p) = Fin (p * inject_Z 32768).
Proof.
  intros H. unfold intSampleOf, ofZ. cbn [jslt jsmul].
  now rewrite (proj2 (Qlt_bool_true p (inject_Z 0)) H).
Qed.

Lemma intSampleOf_nonneg (p : Q) :
  (0 <= p)%Q -> intSampleOf (Fin p) = Fin (p * inject_Z 32767).
Proof.
  intros H. unfold intSampleOf, ofZ. cbn [jslt jsmul].
  now rewrite (proj2 (Qlt_bool_false p (inject_Z 0)) H).
Qed.

(** The conversion of one sample, clamp included, is monotone. *)
Lemma conversion_monotone (p q : Q) :
  (p <= q)%Q ->
  truncate (intSampleOf (clampSample (Fin p)))
  <= truncate (intSampleOf (clampSample (Fin q))).
Proof.
  intros Hpq.
  pose proof (truncate_intSample_range (Fin p)) as Rp.
  pose proof (truncate_intSample_range (Fin q)) as Rq.
  destruct (Qlt_le_dec q 1) as [Hq1 | Hq1];
    [| rewrite (clampSample_high q Hq1); cbn; cbn in Rp; lia].
  destruct (Qlt_le_dec (-1) p) as [Hp1 | Hp1];
    [| rewrite (clampSample_low p Hp1); cbn; cbn in Rq; lia].
  assert (Hp2 : (p < 1)%Q) by (eapply Qle_lt_trans; eassumption).
  assert (Hq2 : (-1 < q)%Q) by (eapply Qlt_le_trans; eassumption).
  rewrite !clampSample_inside by assumption.
  destruct (Qlt_le_dec p 0) as [Hp0 | Hp0], (Qlt_le_dec q 0) as [Hq0 | Hq0].
  - rewrite !intSampleOf_negative by assumption.
    apply truncate_monotone. apply Qmult_le_compat_r; [assumption | discriminate].
  - rewrite intSampleOf_negative, intSampleOf_nonneg by assumption.
    apply Z.le_trans with (m := 0).
    + apply truncate_nonpos.
      setoid_replace 0%Q with (0 * inject_Z 32768)%Q by reflexivity.
      apply Qmult_le_compat_r; [now apply Qlt_le_weak | discriminate].
    + apply truncate_nonneg. apply Qmult_le_0_compat; [assumption | discriminate].
  - exfalso. apply (Qlt_irrefl 0).
    eapply Qle_lt_trans; [exact Hp0 |]. eapply Qle_lt_trans; eassumption.
  - rewrite !intSampleOf_nonneg by assumption.
    apply truncate_monotone. apply Qmult_le_compat_r; [assumption | discriminate].
Qed.

(** The integer part of a number lies between it and zero, less than one
    away from it. *)
Lemma truncate_nonneg_bracket (y : Q) :
  (0 <= y)%Q ->
  (inject_Z (truncate (Fin y)) <= y)%Q /\
  (y < inject_Z (truncate (Fin y)) + 1)%Q.
Proof.
  destruct y as [n d]. unfold Qle, Qlt, Qplus, inject_Z.
  cbn [truncate Qnum Qden]. intros H.
  assert (Hn : 0 <= n) by lia.
  pose proof (Z.quot_rem' n (Z.pos d)) as E.
  pose proof (Z.rem_bound_pos n (Z.pos d) Hn ltac:(lia)) as R.
  split; nia.
Qed.

Lemma truncate_nonpos_bracket (y : Q) :
  (y <= 0)%Q ->
  (inject_Z (truncate (Fin y)) - 1 < y)%Q /\
  (y <= inject_Z (truncate (Fin y)))%Q.
Proof.
  destruct y as [n d]. unfold Qle, Qlt, Qminus, Qplus, Qopp, inject_Z.
  cbn [truncate Qnum Qden]. intros H.
  assert (Hn : n <= 0) by lia.
  pose proof (Z.quot_rem' n (Z.pos d)) as E.
  pose proof (Z.rem_bound_pos_neg n (Z.pos d) ltac:(lia) Hn) as R.
  split; nia.
Qed.

(** An integer is pinned by the unit interval it closes. *)
Lemma floor_pinned (v k : Z) (y : Q) :
  (y == inject_Z k)%Q ->
  (inject_Z v <= y)%Q -> (y < inject_Z v + 1)%Q -> v = k.
Proof.
  intros ->. unfold Qle, Qlt, Qplus, inject_Z. cbn [Qnum Qden]. lia.
Qed.

Lemma ceiling_pinned (v k : Z) (y : Q) :
  (y == inject_Z k)%Q ->
  (inject_Z v - 1 < y)%Q -> (y <= inject_Z v)%Q -> v = k.
Proof.
  intros ->. unfold Qle, Qlt, Qminus, Qplus, Qopp, inject_Z.
  cbn [Qnum Qden]. lia.
Qed.

(** C5: on every engine that allocates the output, each sample is
    clamped before conversion: a sample above 1, or +Infinity, is
    converted as 1, a sample below -1, or -Infinity, as -1, a sample
    within [-1, 1] as itself (NaN, which no clamp can move, stays NaN and
    is stored as 0).  The clamped sample is multiplied by 32768 when
    negative and by 32767 otherwise, and the 16-bit value found at its
    place in the encoded bytes is the integer part of that product,
    within [-32768, 32767]. *)
Theorem samples_clamped_scaled (allocates : N -> bool)
  (buffer : AudioBuffer) (i c : N) :
  allocated allocates buffer ->
  (i < length buffer)%N -> (c < numberOfChannels buffer)%N ->
  let x := getChannelData buffer c i in
  let sample := clampSample x in
  let intSample := intSampleOf sample in
  exists bytes,
    bufferToWavOn allocates buffer = Some bytes /\
    let v := pcmAt (N.to_nat (i * numberOfChannels buffer + c)) bytes in
    ((forall p, x = Fin p -> (1 < p)%Q -> sample = Fin 1) /\
     (forall p, x = Fin p -> (p < -1)%Q -> sample = Fin (-1)) /\
     (forall p, x = Fin p -> (-1 <= p <= 1)%Q ->
                exists q, sample = Fin q /\ (q == p)%Q) /\
     (x = PosInf -> sample = Fin 1) /\
     (x = NegInf -> sample = Fin (-1)) /\
     (x = NaN -> sample = NaN)) /\
    ((forall q, sample = Fin q -> (0 <= q)%Q ->
                intSample = Fin (q * 32767)) /\
     (forall q, sample = Fin q -> (q < 0)%Q ->
                intSample = Fin (q * 32768)) /\
     (sample = NaN -> intSample = NaN)) /\
    ((forall y, intSample = Fin y -> (0 <= y)%Q ->
                (inject_Z v <= y)%Q /\ (y < inject_Z v + 1)%Q) /\
     (forall y, intSample = Fin y -> (y <= 0)%Q ->
                (inject_Z v - 1 < y)%Q /\ (y <= inject_Z v)%Q) /\
     (intSample = NaN -> v = 0)) /\
    -32768 <= v <= 32767.
Proof.
  intros Halloc Hi Hc x sample intSample.
  exists (headerBytes buffer ++ pcmBytes buffer).
  split; [now apply bufferToWavOn_layout |]. cbv zeta.
  rewrite pcmAt_value, pcmValue_truncate by assumption.
  fold x. fold sample. fold intSample.
  split; [| split; [| split]].
  - subst sample. split; [| split; [| split; [| split; [| split]]]].
    + intros p -> Hp. apply clampSample_high. now apply Qlt_le_weak.
    + intros p -> Hp. apply clampSample_low. now apply Qlt_le_weak.
    + intros p -> [Hlo Hhi].
      destruct (clampSample_cases (Fin p))
        as [[Hn _] | (_ & q & Hq & _ & Hsame)]; [discriminate |].
      exists q. split; [exact Hq |]. apply Hsame; [reflexivity | now split].
    + now intros ->.
    + now intros ->.
    + now intros ->.
  - subst intSample. split; [| split].
    + intros q -> Hq. now apply intSampleOf_nonneg.
    + intros q -> Hq. now apply intSampleOf_negative.
    + now intros ->.
  - split; [| split].
    + intros y -> Hy. now apply truncate_nonneg_bracket.
    + intros y -> Hy. now apply truncate_nonpos_bracket.
    + now intros ->.
  - apply truncate_intSample_range.
Qed.

Lemma samples_clamped_scaled_witness :
  exists quiet loud,
    bufferToWavOn unbounded tinyBuffer = Some quiet /\
    pcmAt 1 quiet = -32768 /\
    bufferToWavOn unbounded loudBuffer = Some loud /\
    pcmAt 0 loud = 32767 /\ pcmAt 1 loud = -8192.
Proof.
  destruct (samples_clamped_scaled unbounded tinyBuffer 0 1
              (conj eq_refl eq_refl) eq_refl eq_refl)
    as (quiet & Hquiet & (_ & Hlow & _) & (_ & Hneg & _) & (_ & Hceil & _) & _).
  destruct (samples_clamped_scaled unbounded loudBuffer 0 0
              (conj eq_refl eq_refl) eq_refl eq_refl)
    as (loud & Hloud & (Hhigh & _) & (Hpos & _) & (Hfloor & _) & _).
  destruct (samples_clamped_scaled unbounded loudBuffer 0 1
              (conj eq_refl eq_refl) eq_refl eq_refl)
    as (loud' & Hloud' & (_ & _ & Hin & _) & (_ & Hneg' & _)
        & (_ & Hceil' & _) & _).
  rewrite Hloud in Hloud'. inversion Hloud'; subst loud'.
  exists quiet, loud.
  split; [exact Hquiet |]. split; [| split; [exact Hloud | split]].
  - specialize (Hlow (- (3 # 2))%Q eq_refl eq_refl).
    specialize (Hneg (-1)%Q Hlow eq_refl).
    destruct (Hceil _ Hneg ltac:(discriminate)) as [H1 H2].
    exact (ceiling_pinned _ (-32768) (-1 * 32768)%Q eq_refl H1 H2).
  - specialize (Hhigh (3 # 2)%Q eq_refl eq_refl).
    specialize (Hpos 1%Q Hhigh ltac:(discriminate)).
    destruct (Hfloor _ Hpos ltac:(discriminate)) as [H1 H2].
    exact (floor_pinned _ 32767 (1 * 32767)%Q eq_refl H1 H2).
  - destruct (Hin (- (1 # 4))%Q eq_refl ltac:(split; discriminate))
      as (q & Hq & Hqp).
    inversion Hq; subst q.
    specialize (Hneg' _ Hq eq_refl).
    destruct (Hceil' _ Hneg' ltac:(discriminate)) as [H1 H2].
    exact (ceiling_pinned _ (-8192) (- (1 # 4) * 32768)%Q eq_refl H1 H2).
Defined.

End WavFacts.

(** ** The audio graph *)

Module SynthFacts.

Import Synth.
Import ParameterFacts.

Local Open Scope list_scope.
Local Open Scope Z_scope.

(** *** Loops whose rounds all return *)

Lemma forEach_returns {A B : Type} (body : A -> Z -> M (list B))
  (f : A -> Z -> list B) (calls : N) (l : list A) :
  forall i : Z,
    (forall x j, i <= j -> body x j calls = Returned (f x j) calls) ->
    forEach l i body calls = Returned (flatIndexed f l i) calls.
Proof.
  induction l as [|x l IH]; intros i H; cbn [forEach flatIndexed].
  - reflexivity.
  - unfold bind. rewrite H by lia.
    rewrite IH by (intros; apply H; lia). reflexivity.
Qed.

Lemma atTime_nonneg (q : Q) (calls : N) :
  (0 <= q)%Q -> atTime (Fin q) calls = Returned q calls.
Proof.
  intros H. unfold atTime.
  now rewrite (proj2 (WavFacts.Qlt_bool_false q 0) H).
Qed.

Lemma scale_head (lowerDesc : string) :
  exists rest, scale lowerDesc = 0 :: rest.
Proof.
  unfold scale.
  destruct (includes lowerDesc "pentatonic");
    destruct (includes lowerDesc "dissonant" || includes lowerDesc "atonal");
    destruct (includes lowerDesc "minor"); eexists; reflexivity.
Qed.

Lemma scale_first (lowerDesc : string) :
  nth_error (scale lowerDesc) 0 = Some 0.
Proof. destruct (scale_head lowerDesc) as [rest ->]. reflexivity. Qed.

(** The beat lasts [60 / bpm] seconds unless the tempo is zero. *)
Lemma beatDuration_finite (tempo : Z) :
  0 < tempo ->
  jsdiv (ofZ 60) (ofZ tempo) = Fin (inject_Z 60 / inject_Z tempo)
  /\ (0 <= inject_Z 60 / inject_Z tempo)%Q.
Proof.
  intros H. unfold jsdiv, ofZ. split.
  - destruct (Qeq_bool (inject_Z tempo) 0) eqn:E; [| reflexivity].
    apply Qeq_bool_eq in E. unfold Qeq in E. cbn in E. lia.
  - destruct tempo as [|p|p]; try lia. discriminate.
Qed.

Lemma chord_time_nonneg (i : Z) (bd : Q) :
  0 <= i -> (0 <= bd)%Q -> (0 <= inject_Z i * bd * inject_Z 4)%Q.
Proof.
  intros Hi Hbd. repeat apply Qmult_le_0_compat; try assumption.
  - unfold Qle. cbn. lia.
  - discriminate.
Qed.

Lemma chord_stop_nonneg (t bd : Q) :
  (0 <= t)%Q -> (0 <= bd)%Q -> (0 <= t + bd * inject_Z 4)%Q.
Proof.
  intros Ht Hbd. apply Qle_trans with (y := (t + 0)%Q).
  - now rewrite Qplus_0_r.
  - apply Qplus_le_r. apply Qmult_le_0_compat; [assumption | discriminate].
Qed.

(** *** The harmony layer *)

Lemma harmonyNote_returns (lowerDesc : string) (bd t : Q) (scale : list Z)
  (s0 noteOffset : Z) (calls : N) :
  nth_error scale 0 = Some s0 -> (0 <= t)%Q -> (0 <= bd)%Q ->
  harmonyNote lowerDesc (Fin bd) scale (Fin t) noteOffset calls
  = Returned
      (map (oscillatorVoice (harmonyOscType lowerDesc)
              (TimesPow2 baseFreq (inject_Z (noteOffset + s0) / 12))
              t (t + bd * inject_Z 4))
           (detunesPerNote lowerDesc))
      calls.
Proof.
  intros Hs Ht Hbd.
  unfold harmonyNote, detunesPerNote, detuneAmount, noteFrequency.
  rewrite Hs.
  destruct (includes lowerDesc "string");
    cbn [forEach Z.eqb Z.opp negb andb jsadd jsmul ofZ];
    unfold bind, ret;
    rewrite ?atTime_nonneg by (assumption || now apply chord_stop_nonneg);
    reflexivity.
Qed.

Lemma createHarmony_returns (lowerDesc : string) (bd : Q) (scale : list Z)
  (s0 : Z) (chords : list (list Z)) (calls : N) :
  nth_error scale 0 = Some s0 -> (0 <= bd)%Q ->
  createHarmony lowerDesc (Fin bd) scale chords calls
  = Returned
      {| layerGain := 4 # 10;
         layerFilter := Some (lowpass, 800%Q);
         voices :=
           flatIndexed
             (fun chord i =>
                flatIndexed
                  (fun noteOffset _ =>
                     map (oscillatorVoice (harmonyOscType lowerDesc)
                            (TimesPow2 baseFreq
                               (inject_Z (noteOffset + s0) / 12))
                            (inject_Z i * bd * inject_Z 4)
                            (inject_Z i * bd * inject_Z 4 + bd * inject_Z 4))
                         (detunesPerNote lowerDesc))
                  chord 0)
             chords 0 |}
      calls.
Proof.
  intros Hs Hbd. unfold createHarmony, bind.
  erewrite forEach_returns; [reflexivity |].
  intros chord i Hi. cbn [jsmul ofZ].
  apply forEach_returns. intros noteOffset j _.
  apply harmonyNote_returns; try assumption.
  now apply chord_time_nonneg.
Qed.

(** C3, as stated, fails both ways: without "string" a chord note gets
    three oscillators, all at detune 0, where the claim has one; with
    "string" it gets two, at -5 and +5, where the claim has three. *)
Lemma harmony_oscillators_counterexample :
  let plain := toLowerCase "Warm pad" in
  let strings := toLowerCase "String pad" in
  (exists vs,
      harmonyNote plain (jsdiv (ofZ 60) (ofZ (bpm plain))) (scale plain)
        (ofZ 0) 0 0%N = Returned vs 0%N /\
      map voiceDetune vs = [Some 0; Some 0; Some 0] /\
      detunesPerNoteAsSpecified plain = [0]) /\
  (exists vs,
      harmonyNote strings (jsdiv (ofZ 60) (ofZ (bpm strings))) (scale strings)
        (ofZ 0) 0 0%N = Returned vs 0%N /\
      map voiceDetune vs = [Some (-5); Some 5] /\
      detunesPerNoteAsSpecified strings = [-5; 0; 5]).
Proof.
  split; eexists; (split; [vm_compute; reflexivity |]); split; reflexivity.
Qed.

(** C3 (amended): when the harmony layer is built (the tempo is not
    zero), its voices are, chord note after chord note, three oscillators
    in unison (detune 0, 0, 0) when the description does not contain
    "string", and two oscillators detuned by -5 and +5 cents when it does;
    all of them play the frequency of the note. *)
Theorem harmony_oscillators_per_note (description : string) (calls : N) :
  let lowerDesc := toLowerCase description in
  bpm lowerDesc <> 0 ->
  exists groups : list (list voice),
    createHarmony lowerDesc (jsdiv (ofZ 60) (ofZ (bpm lowerDesc)))
      (scale lowerDesc) (chordProgression lowerDesc) calls
    = Returned {| layerGain := 4 # 10;
                  layerFilter := Some (lowpass, 800%Q);
                  voices := List.concat groups |} calls /\
    Forall2
      (fun group noteOffset =>
         exists start stop,
           group
           = map (oscillatorVoice (harmonyOscType lowerDesc)
                    (TimesPow2 baseFreq (inject_Z (noteOffset + 0) / 12))
                    start stop)
                 (if includes lowerDesc "string" then [-5; 5] else [0; 0; 0]))
      groups (List.concat (chordProgression lowerDesc)).
Proof.
  intros lowerDesc Hbpm.
  destruct (beatDuration_finite (bpm lowerDesc)) as [Hbd Hpos];
    [pose proof (bpm_nonneg lowerDesc); lia |].
  rewrite Hbd.
  rewrite (createHarmony_returns _ _ _ 0) by (apply scale_first || assumption).
  set (bd := (inject_Z 60 / inject_Z (bpm lowerDesc))%Q).
  set (G := fun i noteOffset =>
              map (oscillatorVoice (harmonyOscType lowerDesc)
                     (TimesPow2 baseFreq (inject_Z (noteOffset + 0) / 12))
                     (inject_Z i * bd * inject_Z 4)
                     (inject_Z i * bd * inject_Z 4 + bd * inject_Z 4))
                  (detunesPerNote lowerDesc)).
  exists (flatIndexed (fun chord i => map (G i) chord)
            (chordProgression lowerDesc) 0).
  unfold chordProgression, detunesPerNote in *. subst G.
  destruct (isMinor lowerDesc); destruct (includes lowerDesc "string");
    (split;
     [ reflexivity
     | cbn [flatIndexed map app List.concat Z.add Pos.add Pos.succ];
       repeat (constructor; [do 2 eexists; reflexivity |]);
       constructor ]).
Qed.

(** With a tempo of zero the beat lasts forever, the first chord starts
    at 0 * Infinity = NaN, and [setValueAtTime] throws. *)
Example harmony_throws_at_tempo_zero :
  let lowerDesc := toLowerCase "A pad at 0 bpm" in
  bpm lowerDesc = 0 /\
  createHarmony lowerDesc (jsdiv (ofZ 60) (ofZ (bpm lowerDesc)))
    (scale lowerDesc) (chordProgression lowerDesc) 0%N = Threw.
Proof. split; reflexivity. Qed.

Lemma harmony_oscillators_per_note_witness :
  bpm (toLowerCase "String pad") <> 0 /\
  exists groups : list (list voice),
    createHarmony (toLowerCase "String pad")
      (jsdiv (ofZ 60) (ofZ (bpm (toLowerCase "String pad"))))
      (scale (toLowerCase "String pad"))
      (chordProgression (toLowerCase "String pad")) 0%N
    = Returned {| layerGain := 4 # 10;
                  layerFilter := Some (lowpass, 800%Q);
                  voices := List.concat groups |} 0%N /\
    List.length groups = 12%nat /\
    Forall (fun group => map voiceDetune group = [Some (-5); Some 5]) groups.
Proof.
  assert (H : bpm (toLowerCase "String pad") <> 0) by discriminate.
  split; [exact H |].
  destruct (harmony_oscillators_per_note "String pad" 0%N H)
    as (groups & Hret & Hgroups).
  exists groups. split; [exact Hret |].
  change (chordProgression (toLowerCase "String pad"))
    with majorProgression in Hgroups.
  split.
  - apply Forall2_length in Hgroups. exact Hgroups.
  - clear Hret. induction Hgroups as [|g n gs ns (t & stop & ->) _ IH];
      constructor; [reflexivity | exact IH].
Defined.

(** *** The scale and the chord layers *)

(** C10, as stated, fails: these two descriptions parse to the same
    chord progression, waveforms, detune, layers and effects and to
    different scales, yet their harmony and bass layers differ, for their
    tempos do: the chords of the first are three seconds long, those of
    the second two. *)
Lemma chord_layers_tempo_counterexample :
  let l1 := toLowerCase "Slow pad over a bass" in
  let l2 := toLowerCase "Pentatonic pad over a bass" in
  chordProgression l1 = chordProgression l2 /\
  harmonyOscType l1 = harmonyOscType l2 /\
  detuneAmount l1 = detuneAmount l2 /\
  bassOscType l1 = bassOscType l2 /\
  melodyOscType l1 = melodyOscType l2 /\
  enableDrums l1 = enableDrums l2 /\
  enableHarmony l1 = enableHarmony l2 /\
  enableBass l1 = enableBass l2 /\
  enableMelody l1 = enableMelody l2 /\
  enableReverb l1 = enableReverb l2 /\
  enableDelay l1 = enableDelay l2 /\
  scale l1 <> scale l2 /\
  bpm l1 = 80 /\ bpm l2 = 120 /\
  createHarmony l1 (jsdiv (ofZ 60) (ofZ (bpm l1))) (scale l1)
    (chordProgression l1) 0%N
  <> createHarmony l2 (jsdiv (ofZ 60) (ofZ (bpm l2))) (scale l2)
       (chordProgression l2) 0%N /\
  createBass l1 (jsdiv (ofZ 60) (ofZ (bpm l1))) (scale l1)
    (chordProgression l1) 0%N
  <> createBass l2 (jsdiv (ofZ 60) (ofZ (bpm l2))) (scale l2)
       (chordProgression l2) 0%N.
Proof.
  vm_compute.
  repeat (split; [first [reflexivity | discriminate] |]).
  discriminate.
Qed.

(** C10 (amended): every parsed scale starts with 0, and the harmony and
    bass layers are the same for two descriptions that agree on the
    tempo, the chord progression, the waveforms and the detune, whatever
    their scales are. *)
Theorem scale_leaves_chord_layers (d1 d2 : string) :
  let l1 := toLowerCase d1 in
  let l2 := toLowerCase d2 in
  bpm l1 = bpm l2 ->
  chordProgression l1 = chordProgression l2 ->
  harmonyOscType l1 = harmonyOscType l2 ->
  detuneAmount l1 = detuneAmount l2 ->
  bassOscType l1 = bassOscType l2 ->
  (exists rest1 rest2, scale l1 = 0 :: rest1 /\ scale l2 = 0 :: rest2) /\
  createHarmony l1 (jsdiv (ofZ 60) (ofZ (bpm l1))) (scale l1)
    (chordProgression l1)
  = createHarmony l2 (jsdiv (ofZ 60) (ofZ (bpm l2))) (scale l2)
      (chordProgression l2) /\
  createBass l1 (jsdiv (ofZ 60) (ofZ (bpm l1))) (scale l1)
    (chordProgression l1)
  = createBass l2 (jsdiv (ofZ 60) (ofZ (bpm l2))) (scale l2)
      (chordProgression l2).
Proof.
  intros l1 l2 Hbpm Hcp Hosc Hdet Hbass. split; [| split].
  - destruct (scale_head l1) as [r1 H1], (scale_head l2) as [r2 H2].
    now exists r1, r2.
  - unfold createHarmony, harmonyNote, noteFrequency.
    rewrite !scale_first, Hbpm, Hcp, Hosc, Hdet. reflexivity.
  - unfold createBass, noteFrequency.
    rewrite !scale_first, Hbpm, Hcp, Hbass. reflexivity.
Qed.

Lemma scale_leaves_chord_layers_witness :
  let l1 := toLowerCase "Warm pad over a bass" in
  let l2 := toLowerCase "Pentatonic warm pad over a bass" in
  scale l1 <> scale l2 /\
  createHarmony l1 (jsdiv (ofZ 60) (ofZ (bpm l1))) (scale l1)
    (chordProgression l1)
  = createHarmony l2 (jsdiv (ofZ 60) (ofZ (bpm l2))) (scale l2)
      (chordProgression l2) /\
  createBass l1 (jsdiv (ofZ 60) (ofZ (bpm l1))) (scale l1)
    (chordProgression l1)
  = createBass l2 (jsdiv (ofZ 60) (ofZ (bpm l2))) (scale l2)
      (chordProgression l2).
Proof.
  split; [discriminate |].
  exact (proj2 (scale_leaves_chord_layers
                  "Warm pad over a bass" "Pentatonic warm pad over a bass"
                  eq_refl eq_refl eq_refl eq_refl eq_refl)).
Defined.

(** The melody does read the scale: the same draws pick another note. *)
Example melody_reads_scale :
  melodyStep rngHalf "" (Fin (1 # 2)) majorScale 0 0%N
  <> melodyStep rngHalf "" (Fin (1 # 2)) pentatonicScale 0 0%N.
Proof. vm_compute. discriminate. Qed.

(** *** Two renders of one description *)

Lemma related_bind {A B : Type} (R : A -> A -> Prop) (S : B -> B -> Prop)
  (m1 m2 : M A) (k1 k2 : A -> M B) (calls : N) :
  related R (m1 calls) (m2 calls) ->
  (forall a1 a2 c, R a1 a2 -> related S (k1 a1 c) (k2 a2 c)) ->
  related S (bind m1 k1 calls) (bind m2 k2 calls).
Proof.
  unfold bind. intros Hm Hk.
  destruct (m1 calls) as [a1 c1| |], (m2 calls) as [a2 c2| |];
    cbn in Hm; try contradiction; try exact I.
  destruct Hm as [Ha <-]. now apply Hk.
Qed.

Lemma related_refl {A : Type} (R : A -> A -> Prop) (o : outcome A) :
  (forall a, R a a) -> related R o o.
Proof. intros H. destruct o; cbn; auto. Qed.

Lemma related_eq {A : Type} (o1 o2 : outcome A) : related eq o1 o2 -> o1 = o2.
Proof.
  destruct o1, o2; cbn; try contradiction; try reflexivity.
  now intros [-> ->].
Qed.

Lemma related_outcomeMap {A B : Type} (f : A -> B) (o1 o2 : outcome A) :
  related (fun a1 a2 => f a1 = f a2) o1 o2 -> outcomeMap f o1 = outcomeMap f o2.
Proof.
  destruct o1, o2; cbn; try contradiction; try reflexivity.
  now intros [-> ->].
Qed.

Lemma related_forCount {B : Type} (R : list B -> list B -> Prop)
  (body1 body2 : Z -> M (list B)) :
  R [] [] ->
  (forall a1 a2 b1 b2, R a1 a2 -> R b1 b2 -> R (a1 ++ b1) (a2 ++ b2)) ->
  (forall i c, related R (body1 i c) (body2 i c)) ->
  forall count i c,
    related R (forCount count i body1 c) (forCount count i body2 c).
Proof.
  intros Hnil Happ Hbody. induction count as [|count IH]; intros i c.
  - cbn. now split.
  - cbn [forCount]. eapply related_bind; [apply Hbody |].
    intros a1 a2 c' Ha. eapply related_bind; [apply IH |].
    intros b1 b2 c'' Hb. cbn. split; [now apply Happ | reflexivity].
Qed.

Lemma related_forLt {B : Type} (R : list B -> list B -> Prop)
  (body1 body2 : Z -> M (list B)) (bound : jsnum) (calls : N) :
  R [] [] ->
  (forall a1 a2 b1 b2, R a1 a2 -> R b1 b2 -> R (a1 ++ b1) (a2 ++ b2)) ->
  (forall i c, related R (body1 i c) (body2 i c)) ->
  related R (forLt bound body1 calls) (forLt bound body2 calls).
Proof.
  intros Hnil Happ Hbody. unfold forLt.
  destruct (rounds bound); [now apply related_forCount | exact I].
Qed.

(** However the draws fall, the noise of a snare hit and the impulse
    response take the same number of them. *)
Lemma noiseBuffer_related (rng1 rng2 : N -> Q) (calls : N) :
  related anything (noiseBuffer rng1 calls) (noiseBuffer rng2 calls).
Proof.
  unfold noiseBuffer. apply related_forCount; [exact I | intros; exact I |].
  intros i c. cbn. now split.
Qed.

Lemma createImpulse_related (rng1 rng2 : N -> Q) (calls : N) :
  related anything (createImpulse rng1 calls) (createImpulse rng2 calls).
Proof.
  unfold createImpulse. apply related_forCount; [exact I | intros; exact I |].
  intros i c. eapply related_bind with (R := anything).
  - unfold impulseChannel. apply related_forCount; [exact I | intros; exact I |].
    intros j c'. cbn. now split.
  - intros a1 a2 c' _. cbn. now split.
Qed.

Lemma sameMasked_app (a1 a2 b1 b2 : list voice) :
  sameMasked a1 a2 -> sameMasked b1 b2 -> sameMasked (a1 ++ b1) (a2 ++ b2).
Proof. unfold sameMasked. intros Ha Hb. now rewrite !map_app, Ha, Hb. Qed.

Lemma eq_app {A : Type} (a1 a2 b1 b2 : list A) :
  a1 = a2 -> b1 = b2 -> a1 ++ b1 = a2 ++ b2.
Proof. now intros -> ->. Qed.

(** The drums of two renders agree but for the noise samples. *)
Lemma createDrums_masked (rng1 rng2 : N -> Q) (lowerDesc : string)
  (beatDuration : jsnum) (calls : N) :
  related (fun l1 l2 => maskLayer l1 = maskLayer l2)
    (createDrums rng1 lowerDesc beatDuration calls)
    (createDrums rng2 lowerDesc beatDuration calls).
Proof.
  unfold createDrums.
  eapply related_bind with (R := sameMasked).
  - apply related_forLt; [reflexivity | apply sameMasked_app |].
    intros i c. eapply related_bind with (R := eq).
    + apply related_refl. reflexivity.
    + intros k1 k2 c1 <-. eapply related_bind with (R := sameMasked).
      * destruct (negb (i mod 2 =? 0) && negb (includes lowerDesc "heartbeat")).
        -- unfold snare. eapply related_bind; [apply noiseBuffer_related |].
           intros b1 b2 c2 _. eapply related_bind with (R := eq).
           ++ apply related_refl. reflexivity.
           ++ intros t1 t2 c3 <-. cbn. now split.
        -- cbn. now split.
      * intros s1 s2 c2 Hs. cbn. split; [| reflexivity].
        now apply sameMasked_app.
  - intros v1 v2 c Hv. cbn. split; [| reflexivity].
    unfold maskLayer. cbn. now rewrite Hv.
Qed.

(** With "heartbeat" in the text no snare is scheduled, and the drums are
    the same whatever the draws. *)
Lemma createDrums_heartbeat (rng1 rng2 : N -> Q) (lowerDesc : string)
  (beatDuration : jsnum) (calls : N) :
  includes lowerDesc "heartbeat" = true ->
  related eq
    (createDrums rng1 lowerDesc beatDuration calls)
    (createDrums rng2 lowerDesc beatDuration calls).
Proof.
  intros Hh. unfold createDrums. rewrite Hh.
  eapply related_bind with (R := eq).
  - apply related_forLt; [reflexivity | apply eq_app |].
    intros i c. rewrite orb_true_r, andb_false_r.
    apply related_refl. reflexivity.
  - intros v1 v2 c <-. cbn. now split.
Qed.

Lemma buildGraph_related (rng1 rng2 : N -> Q) (description : string)
  (Rd : option layer -> option layer -> Prop)
  (Rg : AudioGraph -> AudioGraph -> Prop) (calls : N) :
  let lowerDesc := toLowerCase description in
  let beatDuration := jsdiv (ofZ 60) (ofZ (bpm lowerDesc)) in
  enableMelody lowerDesc = false ->
  (forall c,
      related Rd
        (whenEnabled (enableDrums lowerDesc)
           (createDrums rng1 lowerDesc beatDuration) c)
        (whenEnabled (enableDrums lowerDesc)
           (createDrums rng2 lowerDesc beatDuration) c)) ->
  (forall imp1 imp2 d1 d2 h b m,
      Rd d1 d2 ->
      Rg {| reverb := if enableReverb lowerDesc then Some imp1 else None;
            delay := enableDelay lowerDesc;
            drums := d1; harmony := h; bass := b; melody := m |}
         {| reverb := if enableReverb lowerDesc then Some imp2 else None;
            delay := enableDelay lowerDesc;
            drums := d2; harmony := h; bass := b; melody := m |}) ->
  related Rg (buildGraph rng1 description calls)
             (buildGraph rng2 description calls).
Proof.
  intros lowerDesc beatDuration Hmel Hdrums Hgraph.
  unfold buildGraph. fold lowerDesc. cbv zeta. fold beatDuration.
  rewrite Hmel.
  eapply related_bind; [apply createImpulse_related |].
  intros imp1 imp2 c0 _.
  eapply related_bind; [apply Hdrums |].
  intros d1 d2 c1 Hd.
  eapply related_bind with (R := eq); [apply related_refl; reflexivity |].
  intros h h' c2 <-.
  eapply related_bind with (R := eq); [apply related_refl; reflexivity |].
  intros b b' c3 <-.
  cbn [whenEnabled].
  eapply related_bind with (R := eq); [apply related_refl; reflexivity |].
  intros m m' c4 <-. cbn. split; [now apply Hgraph | reflexivity].
Qed.

(** C1, as stated, fails: with drums, harmony and bass on and the melody
    off, two renders under two random sources give the first snare hit two
    different noise buffers (its first sample is -1 under draws of 0, and
    0 under draws of 1/2), so the graphs handed to the renderer differ,
    and so do the encoded bytes as soon as the renderer lets that sample
    through. *)
Lemma snare_noise_counterexample :
  let lowerDesc := toLowerCase "Drum pad bass" in
  (enableMelody lowerDesc = false /\ enableDrums lowerDesc = true /\
   enableHarmony lowerDesc = true /\ enableBass lowerDesc = true) /\
  firstNoiseSample (buildGraph rngZero "Drum pad bass" 0%N)
  = Some (-1 # 1)%Q /\
  firstNoiseSample (buildGraph rngHalf "Drum pad bass" 0%N)
  = Some (0 # 2)%Q /\
  buildGraph rngZero "Drum pad bass" 0%N
  <> buildGraph rngHalf "Drum pad bass" 0%N /\
  generateAudioPreview rngZero noiseProbe "Drum pad bass" 0%N
  <> generateAudioPreview rngHalf noiseProbe "Drum pad bass" 0%N.
Proof.
  intros lowerDesc.
  assert (H0 : firstNoiseSample (buildGraph rngZero "Drum pad bass" 0%N)
               = Some (-1 # 1)%Q) by (vm_compute; reflexivity).
  assert (H1 : firstNoiseSample (buildGraph rngHalf "Drum pad bass" 0%N)
               = Some (0 # 2)%Q) by (vm_compute; reflexivity).
  split; [repeat split |]. split; [exact H0 |]. split; [exact H1 |].
  split.
  - intros H. rewrite H in H0. rewrite H0 in H1. discriminate H1.
  - intros H. apply (f_equal (outcomeMap (Wav.pcmAt 0))) in H.
    vm_compute in H. discriminate H.
Qed.

(** C1 (amended): for every description in which the melody layer is
    disabled, two renders build the same graph up to the samples drawn
    from [Math.random] for the snare noise and for the impulse response of
    the reverb; harmony, bass and kicks are the same.  When moreover no
    snare is scheduled (no drums, or "heartbeat" in the text) and the
    reverb is not connected, the two graphs are equal, and so are the
    encoded outputs. *)
Theorem renders_differ_in_noise_only (render : AudioGraph -> Wav.AudioBuffer)
  (rng1 rng2 : N -> Q) (description : string) (calls : N) :
  let lowerDesc := toLowerCase description in
  enableMelody lowerDesc = false ->
  outcomeMap maskNoise (buildGraph rng1 description calls)
  = outcomeMap maskNoise (buildGraph rng2 description calls) /\
  (enableReverb lowerDesc = false ->
   enableDrums lowerDesc = false \/ includes lowerDesc "heartbeat" = true ->
   buildGraph rng1 description calls = buildGraph rng2 description calls /\
   generateAudioPreview rng1 render description calls
   = generateAudioPreview rng2 render description calls).
Proof.
  intros lowerDesc Hmel. split.
  - apply related_outcomeMap.
    apply (buildGraph_related rng1 rng2 description
             (fun d1 d2 => option_map maskLayer d1 = option_map maskLayer d2));
      [exact Hmel | |].
    + intros c. unfold whenEnabled. fold lowerDesc.
      destruct (enableDrums lowerDesc); [| cbn; now split].
      eapply related_bind; [apply createDrums_masked |].
      intros l1 l2 c' Hl. cbn. split; [now rewrite Hl | reflexivity].
    + intros imp1 imp2 d1 d2 h b m Hd. unfold maskNoise. cbn.
      rewrite Hd. now destruct (enableReverb (toLowerCase description)).
  - intros Hrev Hsnare.
    assert (Hg : buildGraph rng1 description calls
                 = buildGraph rng2 description calls).
    { apply related_eq.
      apply (buildGraph_related rng1 rng2 description eq);
        [exact Hmel | |].
      - intros c. unfold whenEnabled. fold lowerDesc.
        destruct (enableDrums lowerDesc) eqn:Hd; [| cbn; now split].
        destruct Hsnare as [Hoff | Hheart]; [discriminate |].
        eapply related_bind; [now apply createDrums_heartbeat |].
        intros l1 l2 c' <-. cbn. now split.
      - intros imp1 imp2 d1 d2 h b m <-. fold lowerDesc.
        now rewrite Hrev. }
    split; [exact Hg |].
    unfold generateAudioPreview, bind. rewrite Hg. reflexivity.
Qed.

Lemma renders_differ_in_noise_only_witness :
  enableMelody (toLowerCase "Heartbeat under a pad and bass") = false /\
  enableDrums (toLowerCase "Heartbeat under a pad and bass") = true /\
  returns (buildGraph rngZero "Heartbeat under a pad and bass" 0%N) = true /\
  buildGraph rngZero "Heartbeat under a pad and bass" 0%N
  = buildGraph rngHalf "Heartbeat under a pad and bass" 0%N.
Proof.
  split; [reflexivity |]. split; [reflexivity |].
  split; [vm_compute; reflexivity |].
  exact (proj1 (proj2 (renders_differ_in_noise_only
                         (fun _ => Wav.silence 2 441000)
                         rngZero rngHalf
                         "Heartbeat under a pad and bass" 0%N eq_refl)
                      eq_refl (or_intror eq_refl))).
Defined.

End SynthFacts.

(** * Further properties *)

(** ** The description, read further *)

Module ParameterMore.

Import JsStringFacts ParameterFacts Text.

Local Open Scope string_scope.
Local Open Scope Z_scope.

(** *** Keywords are found whatever their case *)

Lemma toLowerCase_append (a b : string) :
  toLowerCase (a ++ b) = toLowerCase a ++ toLowerCase b.
Proof. induction a as [|c a IH]; cbn; [reflexivity | now rewrite IH]. Qed.

Lemma toLowerCase_split (d x y : string) :
  toLowerCase d = x ++ y ->
  exists d1 d2, d = d1 ++ d2 /\ toLowerCase d1 = x /\ toLowerCase d2 = y.
Proof.
  revert d. induction x as [|c x IH]; intros d H.
  - exists "", d. now repeat split.
  - destruct d as [|c' d]; [discriminate |]. cbn in H. inversion H as [[Hc Hd]].
    destruct (IH _ Hd) as (d1 & d2 & -> & H1 & H2).
    exists (String c' d1), d2. cbn. now rewrite H1.
Qed.

(** X1: a keyword is found in the lowered description exactly when the
    description holds, somewhere and in whatever case, a run of characters
    whose lower case is the keyword. *)
Theorem keywords_match_any_case (description keyword : string) :
  includes (toLowerCase description) keyword = true <->
  exists before found after,
    description = before ++ found ++ after /\ toLowerCase found = keyword.
Proof.
  rewrite includes_Contains. split.
  - intros (a & b & H).
    destruct (toLowerCase_split _ _ _ H) as (d1 & d23 & -> & _ & H23).
    destruct (toLowerCase_split _ _ _ H23) as (d2 & d3 & -> & H2 & _).
    now exists d1, d2, d3.
  - intros (before & found & after & -> & <-).
    exists (toLowerCase before), (toLowerCase after).
    now rewrite !toLowerCase_append.
Qed.

(** *** Keywords inside keywords *)

Lemma includes_trans (s p q : string) :
  includes s p = true -> includes p q = true -> includes s q = true.
Proof.
  rewrite !includes_Contains. intros (a & b & ->) (a' & b' & ->).
  exists (a ++ a'), (b' ++ b). now rewrite !append_assoc.
Qed.

(** X2: "heartbeat" and "upbeat" both hold "beat", so the heartbeat test
    of the drum gate adds nothing to it, and a description that is only
    "upbeat" gets drums; without a bpm token it also gets tempo 140. *)
Theorem beat_inside_other_keywords (lowerDesc : string) :
  enableDrums lowerDesc
  = (includes lowerDesc "drum" || includes lowerDesc "beat"
     || includes lowerDesc "percussion") /\
  (includes lowerDesc "heartbeat" = true -> enableDrums lowerDesc = true) /\
  (includes lowerDesc "upbeat" = true ->
   enableDrums lowerDesc = true /\
   (matchBpm lowerDesc = None -> bpm lowerDesc = 140)).
Proof.
  assert (Hh : includes lowerDesc "heartbeat" = true ->
               includes lowerDesc "beat" = true)
    by (intros H; now apply (includes_trans _ _ _ H)).
  assert (Hu : includes lowerDesc "upbeat" = true ->
               includes lowerDesc "beat" = true)
    by (intros H; now apply (includes_trans _ _ _ H)).
  unfold enableDrums. split; [| split].
  - destruct (includes lowerDesc "heartbeat"); [| now rewrite orb_false_r].
    rewrite (Hh eq_refl). now rewrite !orb_true_r.
  - intros H. rewrite H. now rewrite !orb_true_r.
  - intros H. split.
    + rewrite (Hu H). now rewrite orb_true_r.
    + intros Hm. unfold bpm. rewrite Hm, H. now rewrite orb_true_r.
Qed.

(** *** A written tempo is read back *)

Lemma matchBpm_at_head (s ds : string) :
  matchBpmAt s = Some ds -> matchBpm s = Some ds.
Proof.
  intros H. destruct s as [|c s]; [discriminate |].
  now rewrite matchBpm_cons, H.
Qed.

Lemma matchBpm_skip (pre rest : string) :
  allChars notDigit pre = true -> matchBpm (pre ++ rest) = matchBpm rest.
Proof.
  induction pre as [|c pre IH]; intros H; [reflexivity |].
  cbn in H. apply andb_true_iff in H as [Hc Hpre].
  cbn [append]. rewrite matchBpm_cons.
  unfold matchBpmAt. cbn [takeDigits].
  unfold notDigit in Hc. apply negb_true_iff in Hc. rewrite Hc.
  now apply IH.
Qed.

(** X3: a tempo written as the digits of [n], any white space and "bpm",
    after a text that holds no digit, is the tempo read: [n] itself, for
    the integers a number holds exactly. *)
Theorem written_tempo_is_read_back (pre ws post : string) (n : N) :
  (n < 2 ^ 53)%N ->
  allChars notDigit pre = true ->
  allChars isSpace ws = true ->
  bpm (pre ++ decimal n ++ ws ++ "bpm" ++ post) = Z.of_N n.
Proof.
  intros _ Hpre Hws. unfold bpm. rewrite matchBpm_skip by assumption.
  rewrite (matchBpm_at_head _ (decimal n)); [apply parseInt_decimal |].
  apply matchBpmAt_complete. exists ws, post.
  repeat split; try assumption.
  - apply decimal_nonempty.
  - apply decimal_digits.
Qed.

Lemma written_tempo_is_read_back_witness :
  bpm (toLowerCase "A frantic 160 BPM chase") = 160.
Proof.
  exact (written_tempo_is_read_back "a frantic " " " " chase" 160
           eq_refl eq_refl eq_refl).
Defined.

(** *** Where a tempo of zero comes from *)

Lemma digit_zero (c : ascii) :
  isDigit c = true -> digitValue c = 0 -> isZeroChar c = true.
Proof.
  unfold isDigit, digitValue, isZeroChar, code. intros Hd Hv.
  apply andb_true_iff in Hd as [Hlo _]. apply N.leb_le in Hlo.
  assert (H : N_of_ascii c = 48%N) by lia.
  rewrite <- (ascii_N_embedding c), H. reflexivity.
Qed.

Lemma parseDigits_zero (s : string) (acc : Z) :
  0 <= acc -> allChars isDigit s = true -> parseDigits acc s = 0 ->
  acc = 0 /\ allChars isZeroChar s = true.
Proof.
  revert acc. induction s as [|c s IH]; intros acc Hacc Hd Hp.
  - now split.
  - cbn in Hd. apply andb_true_iff in Hd as [Hc Hs].
    cbn [parseDigits] in Hp.
    assert (Hv : 0 <= digitValue c) by (unfold digitValue; lia).
    assert (Hn : 0 <= 10 * acc + digitValue c) by lia.
    destruct (IH _ Hn Hs Hp) as [H0 Hz].
    assert (acc = 0) by lia. assert (digitValue c = 0) by lia.
    split; [assumption |]. cbn. now rewrite (digit_zero c Hc), Hz.
Qed.

(** X4: the tempo is zero exactly when the description holds a bpm token
    whose digits are all zeros; no keyword and no default gives zero. *)
Theorem tempo_zero_needs_a_zero_token (lowerDesc : string) :
  bpm lowerDesc = 0 <->
  exists ds, matchBpm lowerDesc = Some ds /\ allChars isZeroChar ds = true.
Proof.
  unfold bpm. split.
  - destruct (matchBpm lowerDesc) as [ds|] eqn:E.
    + intros H. exists ds. split; [reflexivity |].
      destruct (matchBpm_sound _ _ E) as (pre & (ws & post & _ & Hd & _) & _).
      now apply (parseDigits_zero ds 0).
    + destruct (includes lowerDesc "fast" || includes lowerDesc "upbeat");
        destruct (includes lowerDesc "slow"); discriminate.
  - intros (ds & -> & Hz). now apply parseDigits_zeros.
Qed.

End ParameterMore.

(** ** The encoder, read further *)

Module WavMore.

Import Wav WavFacts.

Local Open Scope list_scope.
Local Open Scope Z_scope.

(** *** Octets *)

Lemma leBytes_octets (w : nat) (v : Z) :
  Forall (fun b => 0 <= b < 256) (leBytes w v).
Proof.
  revert v. induction w as [|w IH]; intros v; cbn [leBytes]; constructor.
  - apply Z.mod_pos_bound. lia.
  - apply IH.
Qed.

Lemma asciiBytes_octets (s : string) :
  Forall (fun b => 0 <= b < 256) (asciiBytes s).
Proof.
  unfold asciiBytes. induction s as [|c s IH]; cbn; constructor.
  - apply charCode_range.
  - exact IH.
Qed.

Lemma Forall_flat_map {A B : Type} (P : B -> Prop) (f : A -> list B)
  (l : list A) :
  (forall x, In x l -> Forall P (f x)) -> Forall P (flat_map f l).
Proof.
  induction l as [|x l IH]; intros H; cbn; [constructor |].
  apply Forall_app. split; [apply H; now left | apply IH].
  intros y Hy. apply H. now right.
Qed.

(** X12: the encoder returns exactly when its output is allocated, and
    every element of what it returns is an octet. *)
Theorem encoded_bytes_are_octets (allocates : N -> bool)
  (buffer : AudioBuffer) :
  match bufferToWavOn allocates buffer with
  | Some bytes =>
      allocated allocates buffer /\ Forall (fun b => 0 <= b < 256) bytes
  | None => ~ allocated allocates buffer
  end.
Proof.
  destruct (allocated_dec allocates buffer) as [Halloc | Halloc].
  - rewrite (bufferToWavOn_layout _ _ Halloc). split; [exact Halloc |].
    apply Forall_app. split.
    + unfold headerBytes.
      repeat (apply Forall_app; split);
        try apply asciiBytes_octets; apply leBytes_octets.
    + unfold pcmBytes, frameBytes, sampleBytes.
      apply Forall_flat_map. intros i _.
      apply Forall_flat_map. intros c _. apply leBytes_octets.
  - now rewrite (bufferToWavOn_refused _ _ Halloc).
Qed.

(** *** Only the samples inside the buffer are read *)

Lemma In_Nseq (count : nat) (start x : N) :
  In x (Nseq start count) -> (start <= x < start + N.of_nat count)%N.
Proof.
  revert start. induction count as [|count IH]; intros start H;
    cbn [Nseq] in H; [contradiction |].
  destruct H as [<- | H]; [lia |]. apply IH in H. lia.
Qed.

Lemma flat_map_ext_in {A B : Type} (f g : A -> list B) (l : list A) :
  (forall x, In x l -> f x = g x) -> flat_map f l = flat_map g l.
Proof.
  induction l as [|x l IH]; intros H; cbn; [reflexivity |].
  rewrite (H x) by now left. rewrite IH; [reflexivity |].
  intros y Hy. apply H. now right.
Qed.

(** X13: the file depends on the shape of the buffer and on the samples
    inside it only: buffers that agree on these encode to the same
    bytes. *)
Theorem encoder_reads_in_range_only (b1 b2 : AudioBuffer) :
  numberOfChannels b1 = numberOfChannels b2 ->
  length b1 = length b2 ->
  sampleRate b1 = sampleRate b2 ->
  (forall c i, (c < numberOfChannels b1)%N -> (i < length b1)%N ->
               getChannelData b1 c i = getChannelData b2 c i) ->
  bufferToWav b1 = bufferToWav b2.
Proof.
  intros Hc Hl Hr Hs. rewrite !bufferToWav_layout. f_equal. f_equal.
  - unfold headerBytes, dataBytes. now rewrite Hc, Hl, Hr.
  - unfold pcmBytes. rewrite <- Hl. apply flat_map_ext_in. intros i Hi.
    unfold frameBytes. rewrite <- Hc. apply flat_map_ext_in. intros c Hcin.
    apply In_Nseq in Hi, Hcin.
    unfold sampleBytes, pcmValue. rewrite Hs by lia. reflexivity.
Qed.

Lemma encoder_reads_in_range_only_witness :
  bufferToWav tinyBuffer = bufferToWav Buffers.paddedBuffer.
Proof.
  apply encoder_reads_in_range_only; try reflexivity.
  intros c i Hc Hi. cbn [numberOfChannels length tinyBuffer] in Hc, Hi.
  apply N.ltb_lt in Hc, Hi.
  cbn [getChannelData Buffers.paddedBuffer]. rewrite Hc, Hi. reflexivity.
Defined.

(** *** The order and the ends of the conversion *)

(** X14: the conversion keeps the order of the samples: of two samples
    of a buffer, the one that is not smaller is stored as a value that is
    not smaller. *)
Theorem louder_sample_larger_value (buffer : AudioBuffer) (i c i' c' : N)
  (p q : Q) :
  (i < length buffer)%N -> (c < numberOfChannels buffer)%N ->
  (i' < length buffer)%N -> (c' < numberOfChannels buffer)%N ->
  getChannelData buffer c i = Fin p ->
  getChannelData buffer c' i' = Fin q ->
  (p <= q)%Q ->
  exists bytes,
    bufferToWav buffer = Some bytes /\
    pcmAt (N.to_nat (i * numberOfChannels buffer + c)) bytes
    <= pcmAt (N.to_nat (i' * numberOfChannels buffer + c')) bytes.
Proof.
  intros Hi Hc Hi' Hc' Hp Hq Hpq.
  exists (headerBytes buffer ++ pcmBytes buffer).
  split; [apply bufferToWav_layout |].
  rewrite !pcmAt_value, !pcmValue_truncate by assumption.
  rewrite Hp, Hq. now apply conversion_monotone.
Qed.

Lemma louder_sample_larger_value_witness :
  exists bytes,
    bufferToWav tinyBuffer = Some bytes /\
    pcmAt 1 bytes <= pcmAt 0 bytes.
Proof.
  apply (louder_sample_larger_value tinyBuffer 0 1 0 0 (- (3 # 2)) (1 # 2));
    try reflexivity.
  discriminate.
Defined.

(** X15: a sample of 1 or more, or +Infinity, is stored as 32767; a
    sample of -1 or less, or -Infinity, as -32768; NaN as 0; and no
    sample changes sign on the way. *)
Theorem over_range_samples_saturate (buffer : AudioBuffer) (i c : N) :
  (i < length buffer)%N -> (c < numberOfChannels buffer)%N ->
  exists bytes,
    bufferToWav buffer = Some bytes /\
    let x := getChannelData buffer c i in
    let v := pcmAt (N.to_nat (i * numberOfChannels buffer + c)) bytes in
    (forall p, x = Fin p -> (1 <= p)%Q -> v = 32767) /\
    (forall p, x = Fin p -> (p <= -1)%Q -> v = -32768) /\
    (x = PosInf -> v = 32767) /\
    (x = NegInf -> v = -32768) /\
    (x = NaN -> v = 0) /\
    (forall p, x = Fin p -> (0 <= p)%Q -> 0 <= v) /\
    (forall p, x = Fin p -> (p <= 0)%Q -> v <= 0).
Proof.
  intros Hi Hc. exists (headerBytes buffer ++ pcmBytes buffer).
  split; [apply bufferToWav_layout |]. cbv zeta.
  rewrite pcmAt_value, pcmValue_truncate by assumption.
  repeat split.
  - intros p -> Hp. now rewrite clampSample_high.
  - intros p -> Hp. now rewrite clampSample_low.
  - now intros ->.
  - now intros ->.
  - now intros ->.
  - intros p -> Hp.
    apply Z.le_trans
      with (m := truncate (intSampleOf (clampSample (Fin 0)))); [cbn; lia |].
    now apply conversion_monotone.
  - intros p -> Hp.
    apply Z.le_trans
      with (m := truncate (intSampleOf (clampSample (Fin 0)))); [| cbn; lia].
    now apply conversion_monotone.
Qed.

Lemma over_range_samples_saturate_witness :
  exists bytes,
    bufferToWav tinyBuffer = Some bytes /\
    pcmAt 1 bytes = -32768 /\ pcmAt 3 bytes = 0.
Proof.
  destruct (over_range_samples_saturate tinyBuffer 0 1 eq_refl eq_refl)
    as (bytes & Hb & _ & Hlow & _).
  destruct (over_range_samples_saturate tinyBuffer 1 1 eq_refl eq_refl)
    as (bytes' & Hb' & _ & _ & _ & _ & Hnan & _).
  rewrite Hb in Hb'. inversion Hb'; subst bytes'.
  exists bytes. split; [exact Hb |]. split.
  - apply (Hlow (- (3 # 2))%Q); [reflexivity | discriminate].
  - apply Hnan. reflexivity.
Defined.

(** *** Silence *)

Lemma flat_map_zeros {A : Type} (f : A -> list Z) (l : list A) :
  (forall x, In x l -> Forall (fun b => b = 0) (f x)) ->
  Forall (fun b => b = 0) (flat_map f l).
Proof. apply Forall_flat_map. Qed.

(** X16: a buffer whose samples are all zero encodes to a header
    followed by zero bytes only. *)
Theorem silence_encodes_to_zeros (buffer : AudioBuffer) :
  (forall c i, (c < numberOfChannels buffer)%N -> (i < length buffer)%N ->
               exists q, getChannelData buffer c i = Fin q /\ (q == 0)%Q) ->
  exists bytes,
    bufferToWav buffer = Some bytes /\
    Forall (fun b => b = 0) (skipn 44 bytes).
Proof.
  intros Hzero. exists (headerBytes buffer ++ pcmBytes buffer).
  split; [apply bufferToWav_layout |].
  change 44%nat with (List.length (headerBytes buffer)).
  rewrite skipn_app, skipn_all, Nat.sub_diag. cbn [app skipn].
  unfold pcmBytes, frameBytes.
  apply Forall_flat_map. intros i Hi. apply Forall_flat_map. intros c Hcin.
  apply In_Nseq in Hi, Hcin.
  destruct (Hzero c i) as (q & Hq & Hq0); [lia | lia |].
  unfold sampleBytes. rewrite pcmValue_truncate, Hq.
  assert (Ht : truncate (intSampleOf (clampSample (Fin q))) = 0).
  { apply Z.le_antisymm.
    - apply Z.le_trans
        with (m := truncate (intSampleOf (clampSample (Fin 0)))); [| cbn; lia].
      apply conversion_monotone. now rewrite Hq0.
    - apply Z.le_trans
        with (m := truncate (intSampleOf (clampSample (Fin 0)))); [cbn; lia |].
      apply conversion_monotone. now rewrite Hq0. }
  rewrite Ht. repeat constructor.
Qed.

Lemma silence_encodes_to_zeros_witness :
  exists bytes,
    bufferToWav (silence 2 441000) = Some bytes /\
    Forall (fun b => b = 0) (skipn 44 bytes).
Proof.
  apply silence_encodes_to_zeros. intros c i _ _.
  exists 0%Q. split; reflexivity.
Defined.

End WavMore.

(** ** The layers and the graph *)

Module SynthMore.

Import Synth SynthFacts Schedule ParameterFacts.

Local Open Scope list_scope.
Local Open Scope Z_scope.

(** *** Buffers filled from [Math.random] *)

Lemma forCount_drawn {B : Type} (g : Z -> Q -> B) (rng : N -> Q) (n : nat) :
  forall (i : Z) (calls : N),
    forCount n i (fun j => bind (Math_random rng) (fun r => ret [g j r])) calls
    = Returned (drawn g rng n i calls) (calls + N.of_nat n)%N.
Proof.
  induction n as [|n IH]; intros i calls.
  - cbn [forCount drawn N.of_nat]. unfold ret. now rewrite N.add_0_r.
  - cbn [forCount drawn]. unfold bind, Math_random, ret.
    unfold bind, Math_random, ret in IH. rewrite IH. cbn [app].
    f_equal. lia.
Qed.

Lemma length_drawn {B : Type} (g : Z -> Q -> B) (rng : N -> Q) (n : nat) :
  forall i calls, List.length (drawn g rng n i calls) = n.
Proof. induction n as [|n IH]; intros; cbn; [reflexivity | now rewrite IH]. Qed.

Lemma impulseChannel_drawn (rng : N -> Q) (calls : N) :
  impulseChannel rng calls
  = Returned (drawn impulseSample rng impulseLength 0 calls)
             (calls + 88200)%N.
Proof.
  unfold impulseChannel.
  rewrite (forCount_drawn impulseSample). reflexivity.
Qed.

Lemma noiseBuffer_drawn (rng : N -> Q) (calls : N) :
  noiseBuffer rng calls
  = Returned (drawn noiseSample rng noiseLength 0 calls) (calls + 8820)%N.
Proof.
  unfold noiseBuffer.
  rewrite (forCount_drawn noiseSample). reflexivity.
Qed.

(** X5: whatever is drawn, the impulse response is two channels of 88200
    samples and costs 176400 draws, and the noise of a snare hit is 8820
    samples and costs 8820 draws. *)
Theorem random_buffers_sizes (rng : N -> Q) (calls : N) :
  (exists left right,
      createImpulse rng calls = Returned [left; right] (calls + 176400)%N /\
      N.of_nat (List.length left) = 88200%N /\
      N.of_nat (List.length right) = 88200%N) /\
  (exists buffer,
      noiseBuffer rng calls = Returned buffer (calls + 8820)%N /\
      N.of_nat (List.length buffer) = 8820%N).
Proof.
  split.
  - exists (drawn impulseSample rng impulseLength 0 calls),
           (drawn impulseSample rng impulseLength 0 (calls + 88200)%N).
    rewrite !length_drawn. split; [| split; reflexivity].
    unfold createImpulse. cbn [forCount]. unfold bind.
    rewrite impulseChannel_drawn. unfold ret. cbv beta iota.
    rewrite impulseChannel_drawn. cbn [app]. f_equal. lia.
  - exists (drawn noiseSample rng noiseLength 0 calls).
    rewrite length_drawn. split; [apply noiseBuffer_drawn | reflexivity].
Qed.

(** *** The drum pattern *)

Lemma kick_returns (t : Q) (calls : N) :
  (0 <= t)%Q -> kick (Fin t) calls = Returned [kickVoice t] calls.
Proof. intros H. unfold kick, bind. now rewrite atTime_nonneg. Qed.

Lemma snare_returns (rng : N -> Q) (t : Q) (calls : N) :
  (0 <= t)%Q ->
  snare rng (Fin t) calls
  = Returned [snareVoice (drawn noiseSample rng noiseLength 0 calls) t]
             (calls + 8820)%N.
Proof.
  intros H. unfold snare, bind. rewrite noiseBuffer_drawn.
  now rewrite atTime_nonneg.
Qed.

Lemma beat_time_nonneg (i : Z) (bd : Q) :
  0 <= i -> (0 <= bd)%Q -> (0 <= inject_Z i * bd)%Q.
Proof.
  intros Hi Hbd. apply Qmult_le_0_compat; [| assumption].
  unfold Qle. cbn. lia.
Qed.

Lemma drum_round (rng : N -> Q) (lowerDesc : string) (bd : Q) (i : Z)
  (calls : N) :
  0 <= i -> (0 <= bd)%Q ->
  bind (if (i mod 2 =? 0) || includes lowerDesc "heartbeat"
        then kick (jsmul (ofZ i) (Fin bd)) else ret [])
       (fun k =>
          bind (if negb (i mod 2 =? 0) && negb (includes lowerDesc "heartbeat")
                then snare rng (jsmul (ofZ i) (Fin bd)) else ret [])
               (fun s => ret (k ++ s))) calls
  = Returned [drumHit rng lowerDesc bd i calls]
             (calls + drumDraws lowerDesc i)%N.
Proof.
  intros Hi Hbd. pose proof (beat_time_nonneg i bd Hi Hbd) as Ht.
  unfold drumHit, drumDraws, isKickBeat. rewrite <- negb_orb.
  cbn [jsmul ofZ].
  destruct ((i mod 2 =? 0) || includes lowerDesc "heartbeat");
    cbn [negb]; unfold bind.
  - rewrite kick_returns by assumption. unfold ret. cbn [app].
    now rewrite N.add_0_r.
  - unfold ret at 1. rewrite snare_returns by assumption. reflexivity.
Qed.

Lemma forCount_drums (rng : N -> Q) (lowerDesc : string) (bd : Q) (n : nat) :
  (0 <= bd)%Q ->
  forall (i : Z) (calls : N),
    0 <= i ->
    forCount n i
      (fun i =>
         bind (if (i mod 2 =? 0) || includes lowerDesc "heartbeat"
               then kick (jsmul (ofZ i) (Fin bd)) else ret [])
              (fun k =>
                 bind (if negb (i mod 2 =? 0)
                          && negb (includes lowerDesc "heartbeat")
                       then snare rng (jsmul (ofZ i) (Fin bd)) else ret [])
                      (fun s => ret (k ++ s)))) calls
    = Returned (drumHits rng lowerDesc bd n i calls)
               (drumCalls lowerDesc n i calls).
Proof.
  intros Hbd. induction n as [|n IH]; intros i calls Hi.
  - reflexivity.
  - cbn [forCount drumHits drumCalls]. unfold bind at 1.
    rewrite drum_round by assumption.
    unfold bind at 1. rewrite IH by lia. reflexivity.
Qed.

Lemma length_drumHits (rng : N -> Q) (lowerDesc : string) (bd : Q) (n : nat) :
  forall i calls, List.length (drumHits rng lowerDesc bd n i calls) = n.
Proof. induction n as [|n IH]; intros; cbn; [reflexivity | now rewrite IH]. Qed.

Lemma drumCalls_count (rng : N -> Q) (lowerDesc : string) (bd : Q) (n : nat) :
  forall i calls calls',
    drumCalls lowerDesc n i calls
    = (calls
       + 8820 * N.of_nat
                  (List.length
                     (filter isNoise (drumHits rng lowerDesc bd n i calls'))))%N.
Proof.
  induction n as [|n IH]; intros i calls calls'.
  - cbn. lia.
  - cbn [drumCalls drumHits filter].
    rewrite (IH _ _ (calls' + drumDraws lowerDesc i)%N).
    unfold drumHit, drumDraws.
    destruct (isKickBeat lowerDesc i); cbn [isNoise source kickVoice snareVoice];
      cbn [List.length];
      set (k := List.length (filter isNoise _)); clearbody k; lia.
Qed.

Lemma drumHits_pattern (rng : N -> Q) (lowerDesc : string) (bd : Q) (n : nat) :
  forall i calls,
    (forall j, i <= j < i + Z.of_nat n -> (inject_Z j * bd < 10)%Q) ->
    Forall2
      (fun v j =>
         (inject_Z j * bd < 10)%Q /\
         maskVoice v
         = if isKickBeat lowerDesc j then kickVoice (inject_Z j * bd)
           else snareVoice [] (inject_Z j * bd))
      (drumHits rng lowerDesc bd n i calls) (Zseq i n).
Proof.
  induction n as [|n IH]; intros i calls H; cbn [drumHits Zseq]; constructor.
  - split; [apply H; lia |]. unfold drumHit.
    now destruct (isKickBeat lowerDesc i).
  - apply IH. intros j Hj. apply H. lia.
Qed.

(** Round [j] of a loop bounded by [duration / step] starts before the
    end of the clip. *)
Lemma round_before_end (step : Q) (j : Z) :
  (0 < step)%Q -> j < Z.of_nat (roundsOf step) -> (inject_Z j * step < 10)%Q.
Proof.
  intros Hs Hj. unfold roundsOf, duration in Hj.
  set (x := (inject_Z 10 / step)%Q) in *.
  assert (Hx0 : (0 < x)%Q).
  { subst x. apply Qlt_shift_div_l; [assumption |]. now rewrite Qmult_0_l. }
  assert (Hc : 0 < Qceiling x).
  { rewrite Zlt_Qlt. eapply Qlt_le_trans; [exact Hx0 | apply Qle_ceiling]. }
  rewrite Z2Nat.id in Hj by lia.
  assert (Hx : (inject_Z j < x)%Q).
  { apply Qle_lt_trans with (y := inject_Z (Qceiling x - 1)).
    - rewrite <- Zle_Qle. lia.
    - apply Qceiling_lt. }
  apply (Qmult_lt_compat_r _ _ step Hs) in Hx.
  setoid_replace (x * step)%Q with 10%Q in Hx; [exact Hx |].
  subst x. field. intros H0. rewrite H0 in Hs. discriminate.
Qed.

Lemma tempo_rounds (tempo : Z) :
  0 < tempo ->
  roundsOf (inject_Z 60 / inject_Z tempo) = Z.to_nat (Qceiling (tempo # 6)).
Proof.
  intros H. unfold roundsOf, duration. f_equal. apply Qceiling_comp.
  destruct tempo as [|p|p]; try lia.
  unfold Qeq, Qdiv, Qmult, Qinv, inject_Z. cbn [Qnum Qden]. cbn. lia.
Qed.

Lemma beatDuration_positive (tempo : Z) :
  0 < tempo -> (0 < inject_Z 60 / inject_Z tempo)%Q.
Proof.
  intros H. destruct tempo as [|p|p]; try lia. reflexivity.
Qed.

Lemma rounds_of_beat (step : Q) :
  (0 < step)%Q ->
  (inject_Z duration / step <= inject_Z (2 ^ 53))%Q ->
  rounds (jsdiv (ofZ duration) (Fin step)) = Some (roundsOf step).
Proof.
  intros H Hb. unfold jsdiv, ofZ.
  destruct (Qeq_bool step 0) eqn:E.
  - apply Qeq_bool_eq in E. rewrite E in H. discriminate.
  - cbn [rounds].
    destruct (Qlt_bool (inject_Z (2 ^ 53)) (inject_Z duration / step)) eqn:L;
      [| reflexivity].
    apply WavFacts.Qlt_bool_true in L. exfalso. exact (Qlt_not_le _ _ L Hb).
Qed.

(** Below 2^53 beats a minute both loops end. *)
Lemma beat_loop_ends (tempo : Z) :
  0 < tempo < 2 ^ 53 ->
  (inject_Z duration / (inject_Z 60 / inject_Z tempo)
   <= inject_Z (2 ^ 53))%Q.
Proof.
  intros H. destruct tempo as [|p|p]; try lia.
  unfold Qle, Qdiv, Qmult, Qinv, inject_Z, duration. cbn [Qnum Qden].
  change (2 ^ 53) with 9007199254740992 in *. cbn. lia.
Qed.

Lemma half_beat_loop_ends (tempo : Z) :
  0 < tempo < 2 ^ 53 ->
  (inject_Z duration / (inject_Z 60 / inject_Z tempo / inject_Z 2)
   <= inject_Z (2 ^ 53))%Q.
Proof.
  intros H. destruct tempo as [|p|p]; try lia.
  unfold Qle, Qdiv, Qmult, Qinv, inject_Z, duration. cbn [Qnum Qden].
  change (2 ^ 53) with 9007199254740992 in *. cbn. lia.
Qed.

(** X6: at a tempo below 2^32 that is not a multiple of six, or that
    divides 120 (the default among them), the drum layer holds one hit
    per beat that starts before the ten seconds are over, ceil(tempo / 6)
    of them: hit [j] starts at [j] beats and is a kick when [j] is even or
    the description says "heartbeat", a snare otherwise; the draws made
    are 8820 for every snare.  At these tempos the quotient of the loop
    bound is the same in binary64. *)
Theorem drum_pattern (rng : N -> Q) (lowerDesc : string) (tempo : Z)
  (calls : N) :
  0 < tempo < 2 ^ 32 ->
  tempo mod 6 <> 0 \/ 120 mod tempo = 0 ->
  let bd := (inject_Z 60 / inject_Z tempo)%Q in
  exists vs calls',
    createDrums rng lowerDesc (jsdiv (ofZ 60) (ofZ tempo)) calls
    = Returned {| layerGain := 8 # 10; layerFilter := None; voices := vs |}
               calls' /\
    List.length vs = Z.to_nat (Qceiling (tempo # 6)) /\
    Forall2
      (fun v j =>
         (inject_Z j * bd < 10)%Q /\
         maskVoice v
         = if isKickBeat lowerDesc j then kickVoice (inject_Z j * bd)
           else snareVoice [] (inject_Z j * bd))
      vs (Zseq 0 (List.length vs)) /\
    calls'
    = (calls + 8820 * N.of_nat (List.length (filter isNoise vs)))%N.
Proof.
  intros Hrange _ bd.
  assert (Htempo : 0 < tempo) by lia.
  destruct (beatDuration_finite tempo Htempo) as [Hbd Hnonneg].
  pose proof (beatDuration_positive tempo Htempo) as Hpos.
  pose proof (beat_loop_ends tempo ltac:(lia)) as Hends.
  fold bd in Hbd, Hnonneg, Hpos, Hends. rewrite Hbd.
  exists (drumHits rng lowerDesc bd (roundsOf bd) 0 calls),
         (drumCalls lowerDesc (roundsOf bd) 0 calls).
  split; [| split; [| split]].
  - unfold createDrums, bind, forLt. rewrite rounds_of_beat by assumption.
    rewrite (forCount_drums rng lowerDesc bd) by (assumption || lia).
    reflexivity.
  - rewrite length_drumHits. now apply tempo_rounds.
  - rewrite length_drumHits. apply drumHits_pattern.
    intros j Hj. apply round_before_end; [assumption | lia].
  - apply drumCalls_count.
Qed.

Lemma drum_pattern_witness :
  exists vs calls',
    createDrums rngHalf "drum" (jsdiv (ofZ 60) (ofZ 120)) 0%N
    = Returned {| layerGain := 8 # 10; layerFilter := None; voices := vs |}
               calls' /\
    List.length vs = 20%nat /\
    calls' = (8820 * N.of_nat (List.length (filter isNoise vs)))%N.
Proof.
  destruct (drum_pattern rngHalf "drum" 120 0%N
              (conj eq_refl eq_refl) (or_intror eq_refl))
    as (vs & calls' & H & Hlen & _ & Hcalls).
  exists vs, calls'. split; [exact H |]. split; [exact Hlen | exact Hcalls].
Defined.

(** *** The bass line *)

Lemma forEach_returns_in {A B : Type} (body : A -> Z -> M (list B))
  (f : A -> Z -> list B) (calls : N) (l : list A) :
  forall i : Z,
    (forall x j, In x l -> i <= j -> body x j calls = Returned (f x j) calls) ->
    forEach l i body calls = Returned (flatIndexed f l i) calls.
Proof.
  induction l as [|x l IH]; intros i H; cbn [forEach flatIndexed].
  - reflexivity.
  - unfold bind. rewrite H by (now left || lia).
    rewrite IH by (intros y j Hy Hj; apply H; [now right | lia]).
    reflexivity.
Qed.

Lemma createBass_returns (lowerDesc : string) (bd : Q) (scale : list Z)
  (chords : list (list Z)) (calls : N) :
  nth_error scale 0 = Some 0 -> (0 <= bd)%Q ->
  Forall (fun chord => chord <> []) chords ->
  createBass lowerDesc (Fin bd) scale chords calls
  = Returned
      {| layerGain := 7 # 10;
         layerFilter := Some (lowpass, 400%Q);
         voices := flatIndexed (bassVoice lowerDesc bd) chords 0 |}
      calls.
Proof.
  intros Hs Hbd Hne. unfold createBass, bind.
  erewrite forEach_returns_in; [reflexivity |].
  intros chord i Hin Hi. rewrite Forall_forall in Hne.
  destruct chord as [|root rest]; [now destruct (Hne _ Hin) |].
  cbn [nth_error jsmul jsadd ofZ bassVoice]. unfold noteFrequency, bind.
  rewrite Hs.
  rewrite !atTime_nonneg
    by (apply chord_time_nonneg || apply chord_stop_nonneg;
        try apply chord_time_nonneg; assumption).
  reflexivity.
Qed.

(** X7: at a tempo other than zero the bass layer makes no draw and
    holds four notes, one per chord of the progression, each on the root
    of its chord an octave below the base and four beats long. *)
Theorem bass_follows_roots (description : string) (calls : N) :
  let lowerDesc := toLowerCase description in
  let bd := (inject_Z 60 / inject_Z (bpm lowerDesc))%Q in
  bpm lowerDesc <> 0 ->
  createBass lowerDesc (jsdiv (ofZ 60) (ofZ (bpm lowerDesc)))
    (scale lowerDesc) (chordProgression lowerDesc) calls
  = Returned
      {| layerGain := 7 # 10;
         layerFilter := Some (lowpass, 400%Q);
         voices :=
           flatIndexed (bassVoice lowerDesc bd) (chordProgression lowerDesc) 0 |}
      calls /\
  List.length
    (flatIndexed (bassVoice lowerDesc bd) (chordProgression lowerDesc) 0)
  = 4%nat.
Proof.
  intros lowerDesc bd Hbpm.
  destruct (beatDuration_finite (bpm lowerDesc)) as [Hbd Hpos];
    [pose proof (bpm_nonneg lowerDesc); lia |].
  split.
  - rewrite Hbd. apply createBass_returns;
      [apply scale_first | assumption |].
    unfold chordProgression. destruct (isMinor lowerDesc);
      repeat constructor; discriminate.
  - unfold chordProgression. now destruct (isMinor lowerDesc).
Qed.

Lemma bass_follows_roots_witness :
  exists v0 v1 v2 v3,
    createBass "bass" (jsdiv (ofZ 60) (ofZ (bpm "bass")))
      (scale "bass") (chordProgression "bass") 0%N
    = Returned
        {| layerGain := 7 # 10;
           layerFilter := Some (lowpass, 400%Q);
           voices := [v0; v1; v2; v3] |} 0%N.
Proof.
  do 4 eexists.
  exact (proj1 (bass_follows_roots "bass" 0%N ltac:(discriminate))).
Defined.

(** *** The melody *)

Lemma scaleAt_pick (scale : list Z) (pick : Q) :
  scale <> [] -> (0 <= pick)%Q -> (pick < 1)%Q ->
  exists degree,
    scaleAt scale (Qfloor (pick * inject_Z (Z.of_nat (List.length scale))))
    = Some degree /\ In degree scale.
Proof.
  intros Hne H0 H1.
  set (L := Z.of_nat (List.length scale)).
  assert (HL : 0 < L) by (subst L; destruct scale; [congruence | cbn; lia]).
  assert (HLq : (0 < inject_Z L)%Q)
    by (change 0%Q with (inject_Z 0); rewrite <- Zlt_Qlt; exact HL).
  set (x := (pick * inject_Z L)%Q).
  assert (Hlo : 0 <= Qfloor x).
  { change 0 with (Qfloor 0). apply Qfloor_resp_le.
    apply Qmult_le_0_compat; [assumption | now apply Qlt_le_weak]. }
  assert (Hhi : Qfloor x < L).
  { rewrite Zlt_Qlt. eapply Qle_lt_trans; [apply Qfloor_le |].
    subst x. setoid_replace (inject_Z L) with (1 * inject_Z L)%Q at 2 by ring.
    now apply Qmult_lt_compat_r. }
  unfold scaleAt. destruct (Qfloor x <? 0) eqn:E; [apply Z.ltb_lt in E; lia |].
  destruct (nth_error scale (Z.to_nat (Qfloor x))) as [degree|] eqn:En.
  - exists degree. split; [reflexivity |]. eapply nth_error_In; eassumption.
  - apply nth_error_None in En. subst L. lia.
Qed.

Lemma half_beat_nonneg (i : Z) (bd : Q) :
  0 <= i -> (0 <= bd)%Q -> (0 <= inject_Z i * (bd / inject_Z 2))%Q.
Proof.
  intros Hi Hbd. apply beat_time_nonneg; [assumption |].
  apply Qle_shift_div_l; [reflexivity |]. now rewrite Qmult_0_l.
Qed.

(** One half-beat: one draw and no note when the gate is at most 0.3, two
    draws and a note on a degree of the scale otherwise. *)
Lemma melodyStep_cases (rng : N -> Q) (lowerDesc : string) (bd : Q)
  (scale : list Z) (i : Z) (calls : N) :
  unitInterval rng -> scale <> [] -> 0 <= i -> (0 <= bd)%Q ->
  melodyStep rng lowerDesc (Fin bd) scale i calls = Returned [] (calls + 1)%N
  \/ exists degree,
       In degree scale /\
       melodyStep rng lowerDesc (Fin bd) scale i calls
       = Returned [melodyVoice lowerDesc bd degree
                     (inject_Z i * (bd / inject_Z 2))]
                  (calls + 1 + 1)%N.
Proof.
  intros Hrng Hne Hi Hbd.
  pose proof (half_beat_nonneg i bd Hi Hbd) as Ht.
  unfold melodyStep, bind, Math_random.
  destruct (Qlt_bool (3 # 10) (rng calls)); [right | left; reflexivity].
  destruct (Hrng (calls + 1)%N) as [H0 H1].
  destruct (scaleAt_pick scale _ Hne H0 H1) as (degree & Hd & Hin).
  exists degree. split; [exact Hin |]. rewrite Hd.
  change (jsdiv (Fin bd) (ofZ 2)) with (Fin (bd / inject_Z 2)).
  cbn [jsmul ofZ]. rewrite atTime_nonneg by assumption.
  unfold melodyVoice.
  destruct (includes lowerDesc "piano" || includes lowerDesc "bell");
    cbn [jsadd jsmul]; rewrite atTime_nonneg; try reflexivity.
  - apply Qle_trans with (y := (inject_Z i * (bd / inject_Z 2) + 0)%Q);
      [now rewrite Qplus_0_r |].
    apply Qplus_le_r. apply Qmult_le_0_compat; [assumption | discriminate].
  - apply Qle_trans with (y := (inject_Z i * (bd / inject_Z 2) + 0)%Q);
      [now rewrite Qplus_0_r |].
    apply Qplus_le_r. apply Qle_shift_div_l; [reflexivity |].
    now rewrite Qmult_0_l.
Qed.

(** The rounds [i], [i + 1], ... of the loop: the notes come from rounds
    of their own, in the order of the rounds. *)
Lemma forCount_melody (rng : N -> Q) (lowerDesc : string) (bd : Q)
  (scale : list Z) :
  unitInterval rng -> scale <> [] -> (0 <= bd)%Q ->
  forall (n : nat) (i : Z) (calls : N),
    0 <= i ->
    exists vs js,
      forCount n i (melodyStep rng lowerDesc (Fin bd) scale) calls
      = Returned vs (calls + N.of_nat n + N.of_nat (List.length vs))%N /\
      StronglySorted Z.lt js /\
      Forall (fun j => i <= j < i + Z.of_nat n) js /\
      Forall2
        (fun v j =>
           exists degree,
             In degree scale /\
             v = melodyVoice lowerDesc bd degree
                   (inject_Z j * (bd / inject_Z 2)))
        vs js.
Proof.
  intros Hrng Hne Hbd. induction n as [|n IH]; intros i calls Hi.
  - exists [], []. cbn [forCount ret List.length N.of_nat]. unfold ret.
    split; [f_equal; lia |]. split; [constructor |].
    split; constructor.
  - cbn [forCount]. unfold bind at 1.
    destruct (melodyStep_cases rng lowerDesc bd scale i calls Hrng Hne Hi Hbd)
      as [Hstep | (degree & Hin & Hstep)]; rewrite Hstep; unfold bind at 1.
    + destruct (IH (i + 1) (calls + 1)%N ltac:(lia))
        as (vs & js & Hvs & Hsorted & Hrange & Hall).
      rewrite Hvs. exists vs, js. unfold ret. cbn [app].
      split; [f_equal; lia |]. split; [exact Hsorted |].
      split; [| exact Hall].
      eapply Forall_impl; [| exact Hrange]. intros j Hj. cbv beta in *. lia.
    + destruct (IH (i + 1) (calls + 1 + 1)%N ltac:(lia))
        as (vs & js & Hvs & Hsorted & Hrange & Hall).
      rewrite Hvs.
      exists (melodyVoice lowerDesc bd degree (inject_Z i * (bd / inject_Z 2))
              :: vs), (i :: js).
      unfold ret. cbn [app List.length].
      split; [f_equal; lia |]. split; [| split].
      * constructor; [exact Hsorted |].
        eapply Forall_impl; [| exact Hrange]. intros j Hj. cbv beta in *. lia.
      * constructor; [lia |].
        eapply Forall_impl; [| exact Hrange]. intros j Hj. cbv beta in *. lia.
      * constructor; [| exact Hall]. exists degree. now split.
Qed.

Lemma half_tempo_rounds (tempo : Z) :
  0 < tempo ->
  roundsOf (inject_Z 60 / inject_Z tempo / inject_Z 2)
  = Z.to_nat (Qceiling (tempo # 3)).
Proof.
  intros H. unfold roundsOf, duration. f_equal. apply Qceiling_comp.
  destruct tempo as [|p|p]; try lia.
  unfold Qeq, Qdiv, Qmult, Qinv, inject_Z. cbn [Qnum Qden]. cbn. lia.
Qed.

(** X8: with draws in [0, 1), a scale that is not empty and a tempo below
    2^32 that is not a multiple of three, or that divides 120 (the default
    among them), the melody layer is built without an error.  Its notes
    come from half-beats of their own, at most one a half-beat and in the
    order of the half-beats: each is a degree of the scale an octave up
    and starts on its half-beat, before the ten seconds are over.  The
    half-beats are ceil(tempo / 3), and the draws made are one per
    half-beat plus one per note.  At these tempos the quotient of the loop
    bound is the same in binary64. *)
Theorem melody_notes_are_scale_degrees (rng : N -> Q) (lowerDesc : string)
  (tempo : Z) (scale : list Z) (calls : N) :
  unitInterval rng -> scale <> [] ->
  0 < tempo < 2 ^ 32 ->
  tempo mod 3 <> 0 \/ 120 mod tempo = 0 ->
  let bd := (inject_Z 60 / inject_Z tempo)%Q in
  let halfBeats := Z.to_nat (Qceiling (tempo # 3)) in
  exists vs js,
    createMelody rng lowerDesc (jsdiv (ofZ 60) (ofZ tempo)) scale calls
    = Returned {| layerGain := 6 # 10; layerFilter := None; voices := vs |}
               (calls + N.of_nat halfBeats + N.of_nat (List.length vs))%N /\
    StronglySorted Z.lt js /\
    Forall2
      (fun v j =>
         0 <= j < Z.of_nat halfBeats /\
         (inject_Z j * (bd / inject_Z 2) < 10)%Q /\
         exists degree,
           In degree scale /\
           v = melodyVoice lowerDesc bd degree
                 (inject_Z j * (bd / inject_Z 2)))
      vs js.
Proof.
  intros Hrng Hne Hrange _ bd halfBeats.
  assert (Htempo : 0 < tempo) by lia.
  destruct (beatDuration_finite tempo Htempo) as [Hbd Hnonneg].
  pose proof (beatDuration_positive tempo Htempo) as Hpos.
  pose proof (half_beat_loop_ends tempo ltac:(lia)) as Hends.
  pose proof (half_tempo_rounds tempo Htempo) as Hcount.
  fold bd in Hbd, Hnonneg, Hpos, Hends, Hcount. fold halfBeats in Hcount.
  rewrite Hbd.
  assert (Hhalf : (0 < bd / inject_Z 2)%Q).
  { apply Qlt_shift_div_l; [reflexivity |]. now rewrite Qmult_0_l. }
  destruct (forCount_melody rng lowerDesc bd scale Hrng Hne Hnonneg
              halfBeats 0 calls ltac:(lia))
    as (vs & js & Hvs & Hsorted & Hjs & Hall).
  exists vs, js. split; [| split; [exact Hsorted |]].
  - unfold createMelody, bind, forLt.
    change (jsdiv (Fin bd) (ofZ 2)) with (Fin (bd / inject_Z 2)).
    rewrite rounds_of_beat by assumption. rewrite Hcount. now rewrite Hvs.
  - clear Hvs Hsorted. induction Hall as [|v j vs js Hv Hall IH];
      constructor.
    + inversion Hjs as [|? ? Hj Hrest]; subst.
      split; [lia |]. split; [| exact Hv].
      apply round_before_end; [assumption | rewrite Hcount; lia].
    + apply IH. now inversion Hjs.
Qed.

Lemma melody_notes_are_scale_degrees_witness :
  exists vs js,
    createMelody rngHalf "melody" (jsdiv (ofZ 60) (ofZ 120)) pentatonicScale 0%N
    = Returned {| layerGain := 6 # 10; layerFilter := None; voices := vs |}
               (40 + N.of_nat (List.length vs))%N /\
    StronglySorted Z.lt js.
Proof.
  assert (Hrng : unitInterval rngHalf)
    by (intros k; split; discriminate || reflexivity).
  destruct (melody_notes_are_scale_degrees rngHalf "melody" 120
              pentatonicScale 0%N Hrng ltac:(discriminate)
              (conj eq_refl eq_refl) (or_intror eq_refl))
    as (vs & js & H & Hs & _).
  exists vs, js. exact (conj H Hs).
Defined.

(** *** The whole graph *)

Lemma createImpulse_drawn (rng : N -> Q) (calls : N) :
  createImpulse rng calls
  = Returned [drawn impulseSample rng impulseLength 0 calls;
              drawn impulseSample rng impulseLength 0 (calls + 88200)%N]
             (calls + 176400)%N.
Proof.
  unfold createImpulse. cbn [forCount]. unfold bind.
  rewrite impulseChannel_drawn. unfold ret. cbv beta iota.
  rewrite impulseChannel_drawn. cbn [app]. f_equal. lia.
Qed.

Lemma createDrums_returns (rng : N -> Q) (lowerDesc : string) (bd : Q)
  (calls : N) :
  (0 < bd)%Q -> (inject_Z duration / bd <= inject_Z (2 ^ 53))%Q ->
  createDrums rng lowerDesc (Fin bd) calls
  = Returned {| layerGain := 8 # 10; layerFilter := None;
                voices := drumHits rng lowerDesc bd (roundsOf bd) 0 calls |}
             (drumCalls lowerDesc (roundsOf bd) 0 calls).
Proof.
  intros Hpos Hends. unfold createDrums, bind, forLt.
  rewrite rounds_of_beat by assumption.
  rewrite (forCount_drums rng lowerDesc bd)
    by (try apply Qlt_le_weak; assumption || lia).
  reflexivity.
Qed.

Lemma createMelody_returns (rng : N -> Q) (lowerDesc : string) (bd : Q)
  (scale : list Z) (calls : N) :
  unitInterval rng -> scale <> [] -> (0 < bd)%Q ->
  (inject_Z duration / (bd / inject_Z 2) <= inject_Z (2 ^ 53))%Q ->
  exists l calls',
    createMelody rng lowerDesc (Fin bd) scale calls = Returned l calls'.
Proof.
  intros Hrng Hne Hpos Hends.
  assert (Hhalf : (0 < bd / inject_Z 2)%Q).
  { apply Qlt_shift_div_l; [reflexivity |]. now rewrite Qmult_0_l. }
  destruct (forCount_melody rng lowerDesc bd scale Hrng Hne
              (Qlt_le_weak _ _ Hpos) (roundsOf (bd / inject_Z 2)) 0 calls
              ltac:(lia)) as (vs & js & Hvs & _).
  unfold createMelody, bind, forLt.
  change (jsdiv (Fin bd) (ofZ 2)) with (Fin (bd / inject_Z 2)).
  rewrite rounds_of_beat by assumption. rewrite Hvs.
  eexists _, _. reflexivity.
Qed.

Lemma whenEnabled_returns (enabled : bool) (create : M layer) (calls : N) :
  (exists l calls', create calls = Returned l calls') ->
  exists o calls',
    whenEnabled enabled create calls = Returned o calls' /\
    present o = enabled.
Proof.
  intros (l & calls' & H). unfold whenEnabled, bind.
  destruct enabled.
  - rewrite H. eexists _, _. split; reflexivity.
  - eexists _, _. split; reflexivity.
Qed.

Lemma scale_nonempty (lowerDesc : string) : scale lowerDesc <> [].
Proof. destruct (scale_head lowerDesc) as [rest ->]. discriminate. Qed.

Lemma chords_nonempty (lowerDesc : string) :
  Forall (fun chord => chord <> []) (chordProgression lowerDesc).
Proof.
  unfold chordProgression. destruct (isMinor lowerDesc);
    repeat constructor; discriminate.
Qed.

(** X9: with draws in [0, 1) and a tempo other than zero and below 2^53,
    the graph is built without an error and without an endless loop, and
    it holds exactly the layers and effects whose keywords the
    description names. *)
Theorem graph_is_built (rng : N -> Q) (description : string) (calls : N) :
  unitInterval rng ->
  0 < bpm (toLowerCase description) < 2 ^ 53 ->
  exists graph calls',
    buildGraph rng description calls = Returned graph calls' /\
    present (reverb graph) = enableReverb (toLowerCase description) /\
    delay graph = enableDelay (toLowerCase description) /\
    present (drums graph) = enableDrums (toLowerCase description) /\
    present (harmony graph) = enableHarmony (toLowerCase description) /\
    present (bass graph) = enableBass (toLowerCase description) /\
    present (melody graph) = enableMelody (toLowerCase description).
Proof.
  intros Hrng Hrange.
  set (lowerDesc := toLowerCase description) in *.
  assert (Htempo : 0 < bpm lowerDesc) by lia.
  destruct (beatDuration_finite _ Htempo) as [Hbd Hnonneg].
  pose proof (beatDuration_positive _ Htempo) as Hpos.
  pose proof (beat_loop_ends _ Hrange) as Hbeats.
  pose proof (half_beat_loop_ends _ Hrange) as Hhalves.
  set (bd := (inject_Z 60 / inject_Z (bpm lowerDesc))%Q) in *.
  set (c0 := (calls + 176400)%N).
  destruct (whenEnabled_returns (enableDrums lowerDesc)
              (createDrums rng lowerDesc (Fin bd)) c0)
    as (d & c1 & Hd & Pd).
  { eexists _, _. now apply createDrums_returns. }
  destruct (whenEnabled_returns (enableHarmony lowerDesc)
              (createHarmony lowerDesc (Fin bd) (scale lowerDesc)
                 (chordProgression lowerDesc)) c1)
    as (h & c2 & Hh & Ph).
  { eexists _, _. apply createHarmony_returns with (s0 := 0);
      [apply scale_first | assumption]. }
  destruct (whenEnabled_returns (enableBass lowerDesc)
              (createBass lowerDesc (Fin bd) (scale lowerDesc)
                 (chordProgression lowerDesc)) c2)
    as (b & c3 & Hb & Pb).
  { eexists _, _. apply createBass_returns;
      [apply scale_first | assumption | apply chords_nonempty]. }
  destruct (whenEnabled_returns (enableMelody lowerDesc)
              (createMelody rng lowerDesc (Fin bd) (scale lowerDesc)) c3)
    as (m & c4 & Hm & Pm).
  { apply createMelody_returns;
      [assumption | apply scale_nonempty | assumption | assumption]. }
  eexists _, c4. split.
  - unfold buildGraph, bind. rewrite createImpulse_drawn.
    fold lowerDesc. rewrite Hbd. fold c0.
    rewrite Hd, Hh, Hb, Hm. reflexivity.
  - cbn [reverb delay drums harmony bass melody].
    split; [destruct (enableReverb lowerDesc); reflexivity |].
    split; [reflexivity |].
    split; [exact Pd |]. split; [exact Ph |].
    split; [exact Pb | exact Pm].
Qed.

Lemma graph_is_built_witness :
  exists graph calls',
    buildGraph rngHalf "Soft pad chords with a bass drone and a piano melody"
      0%N = Returned graph calls' /\
    present (harmony graph) = true /\ present (drums graph) = false.
Proof.
  assert (Hrng : unitInterval rngHalf)
    by (intros k; split; discriminate || reflexivity).
  destruct (graph_is_built rngHalf
              "Soft pad chords with a bass drone and a piano melody" 0%N
              Hrng (conj eq_refl eq_refl))
    as (graph & calls' & Hg & _ & _ & Hd & Hh & _).
  exists graph, calls'. exact (conj Hg (conj Hh Hd)).
Defined.

(** At tempo zero the beat lasts forever. *)
Lemma beatDuration_at_zero : jsdiv (ofZ 60) (ofZ 0) = PosInf.
Proof. reflexivity. Qed.

Lemma createDrums_endless_beat (rng : N -> Q) (lowerDesc : string) (calls : N) :
  createDrums rng lowerDesc PosInf calls
  = Returned {| layerGain := 8 # 10; layerFilter := None; voices := [] |} calls.
Proof. reflexivity. Qed.

Lemma createMelody_endless_beat (rng : N -> Q) (lowerDesc : string)
  (scale : list Z) (calls : N) :
  createMelody rng lowerDesc PosInf scale calls
  = Returned {| layerGain := 6 # 10; layerFilter := None; voices := [] |} calls.
Proof. reflexivity. Qed.

Lemma createHarmony_endless_beat (lowerDesc : string) (calls : N) :
  createHarmony lowerDesc PosInf (scale lowerDesc) (chordProgression lowerDesc)
    calls = Threw.
Proof.
  destruct (scale_head lowerDesc) as [rest Hs].
  unfold createHarmony, chordProgression, bind.
  destruct (isMinor lowerDesc); cbn [forEach]; unfold bind;
    unfold harmonyNote, noteFrequency, detuneAmount; rewrite Hs;
    destruct (includes lowerDesc "string"); reflexivity.
Qed.

Lemma createBass_endless_beat (lowerDesc : string) (calls : N) :
  createBass lowerDesc PosInf (scale lowerDesc) (chordProgression lowerDesc)
    calls = Threw.
Proof.
  destruct (scale_head lowerDesc) as [rest Hs].
  unfold createBass, chordProgression, bind.
  destruct (isMinor lowerDesc); cbn [forEach]; unfold bind;
    unfold noteFrequency; rewrite Hs; reflexivity.
Qed.

(** X10: at tempo zero the beat lasts forever: with a harmony or a bass
    layer to build, the first chord is scheduled at a time that is not a
    number and the call throws; without them the drum and melody layers
    are built empty. *)
Theorem tempo_zero_outcome (rng : N -> Q)
  (render : AudioGraph -> Wav.AudioBuffer) (description : string) (calls : N) :
  bpm (toLowerCase description) = 0 ->
  (enableHarmony (toLowerCase description)
   || enableBass (toLowerCase description) = true ->
   buildGraph rng description calls = Threw /\
   generateAudioPreview rng render description calls = Threw) /\
  (enableHarmony (toLowerCase description)
   || enableBass (toLowerCase description) = false ->
   exists impulse,
     buildGraph rng description calls
     = Returned
         {| reverb := if enableReverb (toLowerCase description)
                      then Some impulse else None;
            delay := enableDelay (toLowerCase description);
            drums := if enableDrums (toLowerCase description)
                     then Some {| layerGain := 8 # 10; layerFilter := None;
                                  voices := [] |}
                     else None;
            harmony := None;
            bass := None;
            melody := if enableMelody (toLowerCase description)
                      then Some {| layerGain := 6 # 10; layerFilter := None;
                                   voices := [] |}
                      else None |}
         (calls + 176400)%N).
Proof.
  intros Hbpm. set (lowerDesc := toLowerCase description) in *.
  assert (Hdrums : forall c,
    whenEnabled (enableDrums lowerDesc) (createDrums rng lowerDesc PosInf) c
    = Returned (if enableDrums lowerDesc
                then Some {| layerGain := 8 # 10; layerFilter := None;
                             voices := [] |}
                else None) c).
  { intros c. unfold whenEnabled, bind.
    destruct (enableDrums lowerDesc); [| reflexivity].
    rewrite createDrums_endless_beat. reflexivity. }
  assert (Hmelody : forall c,
    whenEnabled (enableMelody lowerDesc)
      (createMelody rng lowerDesc PosInf (scale lowerDesc)) c
    = Returned (if enableMelody lowerDesc
                then Some {| layerGain := 6 # 10; layerFilter := None;
                             voices := [] |}
                else None) c).
  { intros c. unfold whenEnabled, bind.
    destruct (enableMelody lowerDesc); [| reflexivity].
    rewrite createMelody_endless_beat. reflexivity. }
  assert (Hgraph : forall P : outcome AudioGraph -> Prop,
    P (bind (whenEnabled (enableHarmony lowerDesc)
               (createHarmony lowerDesc PosInf (scale lowerDesc)
                  (chordProgression lowerDesc)))
         (fun h =>
            bind (whenEnabled (enableBass lowerDesc)
                    (createBass lowerDesc PosInf (scale lowerDesc)
                       (chordProgression lowerDesc)))
              (fun b =>
                 bind (whenEnabled (enableMelody lowerDesc)
                         (createMelody rng lowerDesc PosInf (scale lowerDesc)))
                   (fun m =>
                      ret {| reverb :=
                               if enableReverb lowerDesc
                               then Some
                                 [drawn impulseSample rng impulseLength 0 calls;
                                  drawn impulseSample rng impulseLength 0
                                    (calls + 88200)%N]
                               else None;
                             delay := enableDelay lowerDesc;
                             drums := if enableDrums lowerDesc
                                      then Some {| layerGain := 8 # 10;
                                                   layerFilter := None;
                                                   voices := [] |}
                                      else None;
                             harmony := h; bass := b; melody := m |})))
         (calls + 176400)%N) ->
    P (buildGraph rng description calls)).
  { intros P H. unfold buildGraph. unfold bind at 1.
    rewrite createImpulse_drawn. fold lowerDesc. rewrite Hbpm.
    rewrite beatDuration_at_zero. unfold bind at 1. rewrite Hdrums.
    exact H. }
  split.
  - intros Hon.
    assert (Hthrew : buildGraph rng description calls = Threw).
    { apply Hgraph. unfold bind at 1. unfold whenEnabled at 1.
      destruct (enableHarmony lowerDesc).
      - unfold bind at 1. now rewrite createHarmony_endless_beat.
      - cbn [orb] in Hon. rewrite Hon. unfold ret at 1.
        unfold bind at 1. unfold whenEnabled at 1. unfold bind at 1.
        now rewrite createBass_endless_beat. }
    split; [exact Hthrew |].
    unfold generateAudioPreview, bind. now rewrite Hthrew.
  - intros Hoff. apply orb_false_iff in Hoff as [Hh Hb].
    eexists. apply Hgraph. rewrite Hh, Hb.
    unfold bind at 1. unfold whenEnabled at 1. unfold ret at 1.
    unfold bind at 1. unfold whenEnabled at 1. unfold ret at 1.
    unfold bind at 1. rewrite Hmelody. reflexivity.
Qed.

Lemma tempo_zero_outcome_witness :
  buildGraph rngHalf "A pad at 0 bpm" 0%N = Threw /\
  generateAudioPreview rngHalf (fun _ => Wav.silence 2 441000)
    "A pad at 0 bpm" 0%N = Threw.
Proof.
  exact (proj1 (tempo_zero_outcome rngHalf (fun _ => Wav.silence 2 441000)
                  "A pad at 0 bpm" 0%N eq_refl) eq_refl).
Defined.

(** X11: a description that names no instrument gives a graph without
    a layer, whatever the draws and the tempo; only the 176400 draws of
    the impulse response are made. *)
Theorem no_instrument_no_voice (rng : N -> Q) (description : string)
  (calls : N) :
  enableDrums (toLowerCase description) = false ->
  enableHarmony (toLowerCase description) = false ->
  enableBass (toLowerCase description) = false ->
  enableMelody (toLowerCase description) = false ->
  exists impulse,
    buildGraph rng description calls
    = Returned
        {| reverb := if enableReverb (toLowerCase description)
                     then Some impulse else None;
           delay := enableDelay (toLowerCase description);
           drums := None; harmony := None; bass := None; melody := None |}
        (calls + 176400)%N.
Proof.
  intros Hd Hh Hb Hm. eexists. unfold buildGraph. unfold bind at 1.
  rewrite createImpulse_drawn. rewrite Hd, Hh, Hb, Hm. reflexivity.
Qed.

Lemma no_instrument_no_voice_witness :
  exists impulse,
    buildGraph rngHalf "A quiet night with reverb" 0%N
    = Returned
        {| reverb := Some impulse; delay := false;
           drums := None; harmony := None; bass := None; melody := None |}
        176400%N.
Proof.
  exact (no_instrument_no_voice rngHalf "A quiet night with reverb" 0%N
           eq_refl eq_refl eq_refl eq_refl).
Defined.

(** *** The progression is played once *)

Lemma Forall_flatIndexed {A B : Type} (P : B -> Prop) (f : A -> Z -> list B)
  (l : list A) :
  forall i,
    (forall x j, In x l -> i <= j < i + Z.of_nat (List.length l) ->
                 Forall P (f x j)) ->
    Forall P (flatIndexed f l i).
Proof.
  induction l as [|x l IH]; intros i H; cbn [flatIndexed]; [constructor |].
  apply Forall_app. split.
  - apply H; [now left | cbn [List.length]; lia].
  - apply IH. intros y j Hy Hj. apply H; [now right | cbn [List.length]; lia].
Qed.

Lemma chord_window (bd : Q) (j : Z) :
  (0 <= bd)%Q -> 0 <= j < 4 ->
  (inject_Z j * bd * inject_Z 4 + bd * inject_Z 4 <= inject_Z 16 * bd)%Q.
Proof.
  intros Hbd Hj.
  setoid_replace (inject_Z j * bd * inject_Z 4 + bd * inject_Z 4)%Q
    with (inject_Z (4 * (j + 1)) * bd)%Q
    by (rewrite inject_Z_mult, inject_Z_plus; ring).
  apply Qmult_le_compat_r; [| assumption].
  rewrite <- Zle_Qle. lia.
Qed.

Lemma length_chordProgression (lowerDesc : string) :
  List.length (chordProgression lowerDesc) = 4%nat.
Proof. unfold chordProgression. now destruct (isMinor lowerDesc). Qed.

Lemma sixteen_beats (tempo : Z) :
  96 < tempo -> (inject_Z 16 * (inject_Z 60 / inject_Z tempo) < 10)%Q.
Proof.
  intros H. destruct tempo as [|p|p]; try lia.
  unfold Qlt, Qdiv, Qmult, Qinv, inject_Z. cbn [Qnum Qden]. lia.
Qed.

Lemma twelve_beats (tempo : Z) :
  0 < tempo <= 72 ->
  (10 <= inject_Z 3 * (inject_Z 60 / inject_Z tempo) * inject_Z 4)%Q.
Proof.
  intros H. destruct tempo as [|p|p]; try lia.
  unfold Qle, Qdiv, Qmult, Qinv, inject_Z. cbn [Qnum Qden]. lia.
Qed.

(** X21: at a positive tempo the harmony and bass layers play the four
    chords once, without a loop: every voice stops within sixteen beats,
    so above 96 beats per minute both layers are silent before the ten
    seconds are over, and at 72 or fewer the fourth bass note starts at or
    after the end of the clip. *)
Theorem progression_played_once (lowerDesc : string) (tempo : Z) (calls : N) :
  0 < tempo ->
  let bd := (inject_Z 60 / inject_Z tempo)%Q in
  exists h b,
    createHarmony lowerDesc (jsdiv (ofZ 60) (ofZ tempo)) (scale lowerDesc)
      (chordProgression lowerDesc) calls = Returned h calls /\
    createBass lowerDesc (jsdiv (ofZ 60) (ofZ tempo)) (scale lowerDesc)
      (chordProgression lowerDesc) calls = Returned b calls /\
    Forall (fun v => (stopTime v <= inject_Z 16 * bd)%Q)
           (voices h ++ voices b) /\
    (96 < tempo ->
     Forall (fun v => (stopTime v < 10)%Q) (voices h ++ voices b)) /\
    (tempo <= 72 ->
     exists v, In v (voices b) /\ (10 <= startTime v)%Q).
Proof.
  intros Htempo bd.
  destruct (beatDuration_finite tempo Htempo) as [Hbd Hnonneg].
  fold bd in Hbd, Hnonneg. rewrite Hbd.
  rewrite (createHarmony_returns lowerDesc bd (scale lowerDesc) 0)
    by (apply scale_first || assumption).
  rewrite createBass_returns
    by (apply scale_first || assumption || apply chords_nonempty).
  eexists _, _. split; [reflexivity |]. split; [reflexivity |].
  cbn [voices].
  assert (Hall :
    Forall (fun v => (stopTime v <= inject_Z 16 * bd)%Q)
      (flatIndexed
         (fun chord i =>
            flatIndexed
              (fun noteOffset _ =>
                 map (oscillatorVoice (harmonyOscType lowerDesc)
                        (TimesPow2 baseFreq (inject_Z (noteOffset + 0) / 12))
                        (inject_Z i * bd * inject_Z 4)
                        (inject_Z i * bd * inject_Z 4 + bd * inject_Z 4))
                     (detunesPerNote lowerDesc))
              chord 0)
         (chordProgression lowerDesc) 0
       ++ flatIndexed (bassVoice lowerDesc bd) (chordProgression lowerDesc) 0)).
  { apply Forall_app. split; apply Forall_flatIndexed;
      intros chord j _ Hj; rewrite length_chordProgression in Hj.
    - apply Forall_flatIndexed. intros noteOffset k _ _.
      apply Forall_forall. intros v Hv. apply in_map_iff in Hv as (d & <- & _).
      cbn [stopTime oscillatorVoice]. apply chord_window; [assumption | lia].
    - unfold bassVoice. destruct chord as [|root rest]; constructor;
        [| constructor].
      cbn [stopTime oscillatorVoice]. apply chord_window; [assumption | lia]. }
  split; [exact Hall |]. split.
  - intros Hfast. eapply Forall_impl; [| exact Hall].
    intros v Hv. eapply Qle_lt_trans; [exact Hv |]. now apply sixteen_beats.
  - intros Hslow. unfold chordProgression.
    destruct (isMinor lowerDesc); cbn [flatIndexed bassVoice app Z.add];
      (eexists; split; [do 3 right; left; reflexivity |]);
      cbn [startTime oscillatorVoice]; apply twelve_beats; lia.
Qed.

Lemma progression_played_once_witness :
  exists h b,
    createHarmony "pad" (jsdiv (ofZ 60) (ofZ 120)) (scale "pad")
      (chordProgression "pad") 0%N = Returned h 0%N /\
    createBass "pad" (jsdiv (ofZ 60) (ofZ 120)) (scale "pad")
      (chordProgression "pad") 0%N = Returned b 0%N /\
    Forall (fun v => (stopTime v < 10)%Q) (voices h ++ voices b).
Proof.
  destruct (progression_played_once "pad" 120 0%N eq_refl)
    as (h & b & Hh & Hb & _ & Hfast & _).
  exists h, b. exact (conj Hh (conj Hb (Hfast eq_refl))).
Defined.

End SynthMore.

(** ** The page *)

Module AppFacts.

Import JsStringFacts Text ParameterFacts ParameterMore App.

Local Open Scope string_scope.
Local Open Scope list_scope.

(** *** Bookmarks *)

Lemma Set_has_In (s : StringSet) (x : string) :
  Set_has s x = true <-> In x s.
Proof.
  unfold Set_has. rewrite existsb_exists. split.
  - intros (y & Hy & E). apply String.eqb_eq in E. now subst.
  - intros H. exists x. split; [assumption | apply String.eqb_refl].
Qed.

Lemma Set_has_delete (s : StringSet) (x y : string) :
  Set_has (Set_delete s x) y = negb (String.eqb y x) && Set_has s y.
Proof.
  unfold Set_has, Set_delete. induction s as [|z s IH]; cbn [filter existsb].
  - now rewrite andb_false_r.
  - destruct (String.eqb x z) eqn:Exz; cbn [negb existsb]; rewrite IH.
    + apply String.eqb_eq in Exz. subst z.
      destruct (String.eqb y x); reflexivity.
    + destruct (String.eqb y z) eqn:Eyz; [| reflexivity].
      apply String.eqb_eq in Eyz. subst z.
      rewrite String.eqb_sym, Exz. reflexivity.
Qed.

Lemma Set_has_add (s : StringSet) (x y : string) :
  Set_has (Set_add s x) y = String.eqb y x || Set_has s y.
Proof.
  unfold Set_add. destruct (Set_has s x) eqn:E.
  - destruct (String.eqb y x) eqn:Eyx; [| reflexivity].
    apply String.eqb_eq in Eyx. subst y. now rewrite E.
  - unfold Set_has. rewrite existsb_app. cbn [existsb].
    rewrite orb_false_r. apply orb_comm.
Qed.

Lemma NoDup_filter {A : Type} (p : A -> bool) (l : list A) :
  NoDup l -> NoDup (filter p l).
Proof.
  induction 1 as [|x l Hx Hl IH]; cbn [filter]; [constructor |].
  destruct (p x); [| assumption]. constructor; [| assumption].
  rewrite filter_In. tauto.
Qed.

Lemma toggleBookmark_has (id : string) (prev : StringSet) (other : string) :
  Set_has (toggleBookmark id prev) other
  = if String.eqb other id then negb (Set_has prev id) else Set_has prev other.
Proof.
  unfold toggleBookmark. destruct (Set_has prev id) eqn:E.
  - rewrite Set_has_delete. destruct (String.eqb other id); reflexivity.
  - rewrite Set_has_add. destruct (String.eqb other id); reflexivity.
Qed.

(** X17: toggling an id flips whether it is bookmarked, leaves every
    other id as it was, and keeps the set free of duplicates. *)
Theorem toggleBookmark_flips_one (id : string) (prev : StringSet) :
  (forall other,
     Set_has (toggleBookmark id prev) other
     = if String.eqb other id then negb (Set_has prev id)
       else Set_has prev other) /\
  (NoDup prev -> NoDup (toggleBookmark id prev)).
Proof.
  split.
  - intros other. apply toggleBookmark_has.
  - intros Hnd. unfold toggleBookmark.
    destruct (Set_has prev id) eqn:E.
    + now apply NoDup_filter.
    + unfold Set_add. rewrite E. apply NoDup_app; [assumption | | ].
      * constructor; [intros [] | constructor].
      * intros x Hx [<- | []]. apply Set_has_In in Hx. congruence.
Qed.

Lemma lists_partition (recommendations : list MusicRecommendation)
  (p : MusicRecommendation -> bool) :
  Permutation (filter p recommendations
               ++ filter (fun track => negb (p track)) recommendations)
              recommendations.
Proof.
  induction recommendations as [|track rest IH]; cbn [filter]; [constructor |].
  destruct (p track); cbn [negb app].
  - now constructor.
  - symmetry. apply Permutation_cons_app. now symmetry.
Qed.

(** X18: the two lists of the page share the tracks out, each track
    being shown in exactly one of them; toggling the bookmark of an id
    moves the tracks with that id to the other list and leaves every
    other track where it was. *)
Theorem bookmark_lists_partition (recommendations : list MusicRecommendation)
  (bookmarkedTracks : StringSet) (toggled : string) :
  Permutation (bookmarkedList recommendations bookmarkedTracks
               ++ recommendedList recommendations bookmarkedTracks)
              recommendations /\
  (forall track,
     In track (bookmarkedList recommendations bookmarkedTracks) ->
     In track (recommendedList recommendations bookmarkedTracks) -> False) /\
  (forall track,
     In track (bookmarkedList recommendations
                 (toggleBookmark toggled bookmarkedTracks))
     <-> if String.eqb (id track) toggled
         then In track (recommendedList recommendations bookmarkedTracks)
         else In track (bookmarkedList recommendations bookmarkedTracks)).
Proof.
  split; [apply lists_partition |]. split.
  - intros track Hb Hr. unfold bookmarkedList, recommendedList in *.
    apply filter_In in Hb as [_ Hb]. apply filter_In in Hr as [_ Hr].
    rewrite Hb in Hr. discriminate.
  - intros track. unfold bookmarkedList, recommendedList.
    destruct (String.eqb (id track) toggled) eqn:E;
      rewrite !filter_In, toggleBookmark_has, E.
    + apply String.eqb_eq in E. subst toggled. reflexivity.
    + reflexivity.
Qed.

(** *** Track ids *)

Lemma decimal_all_digits (n : N) : allChars isDigit (decimal n) = true.
Proof. apply decimal_digits. Qed.

Lemma decimal_inj (n m : N) : decimal n = decimal m -> n = m.
Proof.
  intros H. apply (f_equal parseInt) in H.
  rewrite !parseInt_decimal in H. lia.
Qed.

Lemma trackId_digits (now index : N) :
  takeDigits (trackId now index) = (decimal now, "-" ++ decimal index)%string.
Proof.
  unfold trackId. apply takeDigits_append.
  - apply decimal_all_digits.
  - reflexivity.
  - discriminate.
Qed.

Lemma trackId_inj (now now' index index' : N) :
  trackId now index = trackId now' index' -> now = now' /\ index = index'.
Proof.
  intros H. apply (f_equal takeDigits) in H. rewrite !trackId_digits in H.
  inversion H as [[Hn Hi]]. split; now apply decimal_inj.
Qed.

Lemma withIds_index (clock : N -> N) (results : list MusicRecommendation) :
  forall index reads track,
    In track (withIds clock results index reads) ->
    exists now j, (index <= j)%N /\ id track = trackId now j.
Proof.
  induction results as [|r rest IH]; intros index reads track H;
    cbn [withIds] in H; [destruct H |].
  destruct H as [<- | H].
  - exists (clock reads), index. split; [lia | reflexivity].
  - destruct (IH _ _ _ H) as (now & j & Hj & E).
    exists now, j. split; [lia | exact E].
Qed.

Lemma withIds_NoDup (clock : N -> N) (results : list MusicRecommendation) :
  forall index reads, NoDup (map id (withIds clock results index reads)).
Proof.
  induction results as [|r rest IH]; intros index reads;
    cbn [withIds map]; constructor; [| apply IH].
  cbn [id]. intros Hin. apply in_map_iff in Hin as (track & E & Hin).
  destruct (withIds_index _ _ _ _ _ Hin) as (now & j & Hj & E').
  rewrite E' in E. apply trackId_inj in E as [_ E]. lia.
Qed.

Lemma NoDup_map_inj {A B : Type} (f : A -> B) (l : list A) :
  NoDup (map f l) ->
  forall x y, In x l -> In y l -> f x = f y -> x = y.
Proof.
  induction l as [|a l IH]; intros Hnd x y Hx Hy E; [destruct Hx |].
  cbn [map] in Hnd. inversion Hnd as [|? ? Ha Hl]; subst.
  destruct Hx as [<- | Hx], Hy as [<- | Hy].
  - reflexivity.
  - exfalso. apply Ha. rewrite E. now apply in_map.
  - exfalso. apply Ha. rewrite <- E. now apply in_map.
  - now apply IH.
Qed.

(** X19: whatever the clock reads, the ids given to the tracks of one
    answer are pairwise distinct, so an id names one track of the page;
    the descriptions are passed on as they came. *)
Theorem batch_ids_distinct (clock : N -> N)
  (results : list MusicRecommendation) (reads : N) :
  let batch := withIds clock results 0 reads in
  NoDup (map id batch) /\
  (forall track other,
     In track batch -> In other batch -> id other = id track ->
     other = track) /\
  map musicDescription batch = map musicDescription results.
Proof.
  intros batch. split; [apply withIds_NoDup |]. split.
  - intros track other Ht Ho E.
    apply (NoDup_map_inj id batch (withIds_NoDup _ _ _ _)); assumption.
  - subst batch. generalize 0%N, reads.
    induction results as [|r rest IH]; intros index k; cbn [withIds map];
      [reflexivity |].
    cbn [musicDescription]. now rewrite IH.
Qed.

(** *** The key form *)

Lemma trimStart_split (s : string) :
  exists ws,
    s = (ws ++ trimStart s)%string /\ allChars isSpace ws = true /\
    (trimStart s = EmptyString \/ notSpace (firstChar (trimStart s)) = true).
Proof.
  induction s as [|c s IH]; cbn [trimStart].
  - exists EmptyString. split; [reflexivity |]. split; [reflexivity |].
    now left.
  - destruct (isSpace c) eqn:Hc.
    + destruct IH as (ws & Hs & Hws & Hhead).
      exists (String c ws). cbn [append allChars]. rewrite Hc, Hws.
      split; [now rewrite <- Hs |]. split; [reflexivity | assumption].
    + exists EmptyString. split; [reflexivity |]. split; [reflexivity |].
      right. cbn [firstChar notSpace]. now rewrite Hc.
Qed.

Lemma trimEnd_split (s : string) :
  exists ws,
    s = (trimEnd s ++ ws)%string /\ allChars isSpace ws = true /\
    (trimEnd s = EmptyString \/ notSpace (lastChar (trimEnd s)) = true) /\
    (notSpace (firstChar s) = true ->
     notSpace (firstChar (trimEnd s)) = true).
Proof.
  induction s as [|c s IH]; cbn [trimEnd].
  - exists EmptyString. split; [reflexivity |]. split; [reflexivity |].
    split; [now left | intros H; exact H].
  - destruct IH as (ws & Hs & Hws & Hlast & _).
    destruct (trimEnd s) as [|k kept] eqn:Ek.
    + cbn [append] in Hs. subst ws. destruct (isSpace c) eqn:Hc.
      * exists (String c s). cbn [append allChars]. rewrite Hc, Hws.
        split; [reflexivity |]. split; [reflexivity |].
        split; [now left |]. cbn [firstChar notSpace]. rewrite Hc.
        discriminate.
      * exists s. cbn [append lastChar firstChar notSpace]. rewrite Hc.
        split; [reflexivity |]. split; [assumption |].
        split; [now right | reflexivity].
    + exists ws. split; [cbn [append] in *; now rewrite <- Hs |]. split; [assumption |].
      split; [| intros H; exact H].
      right. destruct Hlast as [Hlast | Hlast]; [discriminate |].
      cbn [lastChar] in *. exact Hlast.
Qed.

Lemma allChars_append (p : ascii -> bool) (a b : string) :
  allChars p (a ++ b)%string = allChars p a && allChars p b.
Proof.
  induction a as [|c a IH]; cbn; [reflexivity |].
  now rewrite IH, andb_assoc.
Qed.

Lemma trim_split (s : string) :
  exists before after,
    s = (before ++ trim s ++ after)%string /\
    allChars isSpace before = true /\ allChars isSpace after = true /\
    (trim s = EmptyString
     \/ notSpace (firstChar (trim s)) = true
        /\ notSpace (lastChar (trim s)) = true).
Proof.
  destruct (trimStart_split s) as (before & Hs & Hb & Hhead).
  destruct (trimEnd_split (trimStart s)) as (after & He & Ha & Hlast & Hfirst).
  exists before, after. unfold trim.
  split; [now rewrite <- He |]. split; [assumption |].
  split; [assumption |].
  destruct Hlast as [Hlast | Hlast]; [now left |].
  destruct Hhead as [Hhead | Hhead].
  - left. now rewrite Hhead.
  - right. split; [now apply Hfirst | assumption].
Qed.

Lemma notSpace_not_all (s : string) :
  notSpace (firstChar s) = true -> allChars isSpace s = false.
Proof.
  destruct s as [|c s]; cbn; [discriminate |].
  now destruct (isSpace c).
Qed.

(** X20: the form passes a key on only when it holds something else
    than white space; the key then stored and held by the page is the
    input without the white space around it, and the page leaves the
    form. *)
Theorem submitted_key_is_trimmed (localApiKey : string) (st : KeyState) :
  (allChars isSpace localApiKey = true ->
   handleSubmit localApiKey st = st) /\
  (allChars isSpace localApiKey = false ->
   exists before key after,
     localApiKey = (before ++ key ++ after)%string /\
     allChars isSpace before = true /\ allChars isSpace after = true /\
     notSpace (firstChar key) = true /\ notSpace (lastChar key) = true /\
     handleSubmit localApiKey st
     = {| storedKey := Some key; apiKey := Some key |} /\
     showsKeyForm (handleSubmit localApiKey st) = false).
Proof.
  destruct (trim_split localApiKey)
    as (before & after & Hs & Hb & Ha & Hkey).
  unfold handleSubmit. split; intros Hall.
  - destruct Hkey as [-> | [Hfirst _]]; [reflexivity |].
    apply notSpace_not_all in Hfirst.
    rewrite Hs, !allChars_append, Hfirst, andb_false_r in Hall.
    discriminate.
  - destruct Hkey as [Hempty | [Hfirst Hlast]].
    + rewrite Hs, Hempty, !allChars_append, Hb, Ha in Hall. discriminate.
    + exists before, (trim localApiKey), after.
      destruct (trim localApiKey) as [|c key]; [discriminate |].
      cbn [truthy]. split; [exact Hs |]. split; [exact Hb |].
      split; [exact Ha |]. split; [exact Hfirst |]. split; [exact Hlast |].
      split; reflexivity.
Qed.

End AppFacts.
